(** * memdb: an MVCC ordered store over a skiplist

    A shallow embedding of [memdb.go]: the comparators derived from the key
    comparator, the writer operations [Put2], [GetNode], [Delete2] and
    [DeleteNode], snapshots ([NewSnapshot], [Open], [Close]), the snapshot
    iterator, the reclamation pass ([GC], [collectDead]), the collector
    ([collectionWorker]), [GetSnapshots], the codec of a snapshot
    ([Encode], [Decode]) and the entry of [LoadFromDisk].

    The database is one record of state that every operation threads
    through.  Pointers are addresses into heaps kept in that record: skiplist
    nodes, snapshots and writers are allocated at the end of their heap and
    are updated in place, so two handles to one object see one another's
    writes, as in the Go program.  Goroutines are not run: a [go] statement
    records the task it starts, and the body of a task ([GC]) is a function
    of the state like any other.

    The file has three parts: the model of the code, the vocabulary of the
    properties, and the properties with their proofs. *)

From Stdlib Require Import ZArith NArith List Bool Lia.
From Stdlib.Strings Require Import Byte String.
From stdpp Require Import base list.
Import ListNotations.

(** * Model *)

(** ** Machine integers *)

Module Int.

(** [uint32]: a natural number below [2^32]; arithmetic wraps. *)
Definition MaxUint32 : N := 4294967295.

Definition u32 (n : Z) : N := Z.to_N (n mod 4294967296).

Definition add32 (a b : N) : N := u32 (Z.of_N a + Z.of_N b).
Definition sub32 (a b : N) : N := u32 (Z.of_N a - Z.of_N b).

(** [int32] and [int64]: two's complement. *)
Definition i32 (z : Z) : Z := (z + 2147483648) mod 4294967296 - 2147483648.
Definition i64 (z : Z) : Z :=
  (z + 9223372036854775808) mod 18446744073709551616 - 9223372036854775808.

(** [int(x)] of a [uint32] [x], where [int] has 64 bits. *)
Definition int (n : N) : Z := i64 (Z.of_N n).

End Int.

(** ** Items and the three comparators *)

(** Modelled from the spec: the [Item] type, whose declaration (item.go) is
    not among the sources.  The spec gives it an opaque payload of bytes and
    two sequence stamps, [bornSn] and [deadSn], the latter 0 while the item
    is live; both stamps are [uint32] in the code that reads them. *)
Record Item : Type := mkItem {
  data : list byte;
  bornSn : N;
  deadSn : N
}.

Definition Bytes (x : Item) : list byte := data x.

Definition set_bornSn (x : Item) (s : N) : Item :=
  {| data := data x; bornSn := s; deadSn := deadSn x |}.

Definition set_deadSn (x : Item) (s : N) : Item :=
  {| data := data x; bornSn := bornSn x; deadSn := s |}.

Definition KeyCompare : Type := list byte -> list byte -> Z.

(** [skiplist.CompareFn] at [*Item]. *)
Definition CompareFn (A : Type) : Type := A -> A -> Z.

(** [bytes.Compare]: lexicographic over unsigned bytes, -1, 0 or +1. *)
Fixpoint bytes_Compare (a b : list byte) : Z :=
  match a, b with
  | [], [] => 0
  | [], _ :: _ => -1
  | _ :: _, [] => 1
  | x :: a', y :: b' =>
      match N.compare (Byte.to_N x) (Byte.to_N y) with
      | Lt => -1
      | Gt => 1
      | Eq => bytes_Compare a' b'
      end
  end%Z.

Definition defaultKeyCmp (this that : list byte) : Z := bytes_Compare this that.

Definition newInsertCompare (keyCmp : KeyCompare) : CompareFn Item :=
  fun thisItem thatItem =>
    let v := keyCmp (Bytes thisItem) (Bytes thatItem) in
    if (v =? 0)%Z
    then Int.i64 (Int.int (bornSn thisItem) - Int.int (bornSn thatItem))
    else v.

Definition newIterCompare (keyCmp : KeyCompare) : CompareFn Item :=
  fun thisItem thatItem => keyCmp (Bytes thisItem) (Bytes thatItem).

Definition newExistCompare (keyCmp : KeyCompare) : CompareFn Item :=
  fun thisItem thatItem =>
    if negb (deadSn thisItem =? 0)%N || negb (deadSn thatItem =? 0)%N
    then 1%Z
    else keyCmp (Bytes thisItem) (Bytes thatItem).

(** ** The ordered index *)

(** Modelled from the spec: the skiplist package, which is not among the
    sources.  Section 6 of the spec fixes its contract: an ordered collection
    of nodes searched with a comparator, [Insert] that "inserts item unless
    an entry equal under existCmp exists" and "returns the existing or new
    node", [DeleteNode] that "physically removes a node", and iterators with
    [SeekFirst], [Seek], [Valid], [Next], [Get] and [GetNode].  The model is
    the bottom level of the skiplist: the chain of entries in index order.
    [A] is what the chain links (a node), [K] what a node carries (the item
    the comparators read) and [get] the dereference. *)
Module skiplist.
Section Index.
Context {A K : Type}.
Variable get : A -> K.

(** The search every operation starts with: pass the entries that compare
    below the probe; the chain from the first entry that does not is
    returned. *)
Fixpoint seek (cmp : CompareFn K) (x : K) (l : list A) : list A :=
  match l with
  | [] => []
  | e :: l' => if (cmp (get e) x <? 0)%Z then seek cmp x l' else l
  end.

(** The entries passed by [seek]. *)
Fixpoint preds (cmp : CompareFn K) (x : K) (l : list A) : list A :=
  match l with
  | [] => []
  | e :: l' => if (cmp (get e) x <? 0)%Z then e :: preds cmp x l' else []
  end.

(** An iterator is the chain from its current node on; it is valid while
    that chain is not empty. *)
Definition Iterator : Type := list A.

Definition SeekFirst (l : list A) : Iterator := l.

(** [Seek] reports whether the entry it stops at equals the probe. *)
Definition Seek (cmp : CompareFn K) (x : K) (l : list A) : Iterator * bool :=
  let it := seek cmp x l in
  (it, match it with
       | e :: _ => (cmp (get e) x =? 0)%Z
       | [] => false
       end).

Definition Valid (it : Iterator) : bool :=
  match it with [] => false | _ :: _ => true end.

Definition Next (it : Iterator) : Iterator := tl it.

Definition GetNode (it : Iterator) : option A := head it.

Definition Get (it : Iterator) : option K := get <$> head it.

(** [Insert2]: no entry is added when one of the index is equal to the new
    one under [existCmp]; that entry is returned.  Otherwise the new node
    is linked before the first entry that does not compare below it. *)
Definition Insert2 (n : A) (insCmp existCmp : CompareFn K) (l : list A)
  : list A * A * bool :=
  match List.find (fun e => (existCmp (get n) (get e) =? 0)%Z) l with
  | Some e => (l, e, false)
  | None => (preds insCmp (get n) l ++ n :: seek insCmp (get n) l, n, true)
  end.

(** [Insert], the form without [existCmp] that the sets of snapshots use:
    these are sets ordered by [cmp], so an entry equal under [cmp] stands
    for the new one. *)
Definition Insert (n : A) (cmp : CompareFn K) (l : list A) : list A * bool :=
  match seek cmp (get n) l with
  | e :: _ =>
      if (cmp (get e) (get n) =? 0)%Z then (l, false)
      else (preds cmp (get n) l ++ n :: seek cmp (get n) l, true)
  | [] => (preds cmp (get n) l ++ [n], true)
  end.

(** [Delete]: unlink the entry the search stops at when it equals the
    probe. *)
Definition Delete (x : K) (cmp : CompareFn K) (l : list A) : list A * bool :=
  match seek cmp x l with
  | e :: rest =>
      if (cmp (get e) x =? 0)%Z then (preds cmp x l ++ rest, true)
      else (l, false)
  | [] => (l, false)
  end.

(** [DeleteNode]: unlink this very node; false when it is not linked. *)
Context `{EqDecision A}.

Fixpoint unlink (n : A) (l : list A) : list A :=
  match l with
  | [] => []
  | e :: l' => if decide (e = n) then l' else e :: unlink n l'
  end.

Definition DeleteNode (n : A) (l : list A) : list A * bool :=
  if decide (n ∈ l) then (unlink n l, true) else (l, false).

End Index.
End skiplist.

(** ** The state of a database *)

(** An address into one of the heaps below; [None] is Go's [nil]. *)
Abbreviation ptr := nat.

(** [skiplist.Node], as far as memdb.go reads and writes it: the item it
    carries ([Item()]) and the link that threads retired nodes ([GClink]). *)
Record Node : Type := mkNode {
  itm : Item;
  GClink : option ptr
}.

(** [Writer].  [rand], [buf] and [iter] are scratch space of the index and
    carry nothing from one call to the next; [next] is fixed when the writer
    is made, see [wlist]. *)
Record Writer : Type := mkWriter {
  gchead : option ptr;
  gctail : option ptr
}.

(** [Snapshot]; [s_count] is its field [count], and the back reference [db]
    is the one database of the model. *)
Record Snapshot : Type := mkSnapshot {
  sn : N;
  refCount : Z;
  s_count : Z;
  gclist : option ptr
}.

(** What a [go] statement starts. *)
Inductive Task : Type :=
  | collectionWorker
  | GC_pass.

#[global] Instance Task_eq_dec : EqDecision Task.
Proof. solve_decision. Defined.

(** [MemDB].  [nodes], [snaps] and [writers] are the heaps: the address of an
    object is its position.  [store], [snapshots] and [gcsnapshots] are the
    three indexes, each the chain of its entries in index order.  [gcchan]
    holds what was sent and not yet received, oldest first, and [tasks] the
    goroutines started so far. *)
Record MemDB : Type := mkMemDB {
  nodes : list Node;
  store : list ptr;
  currSn : N;
  snaps : list Snapshot;
  snapshots : list ptr;
  gcsnapshots : list ptr;
  isGCRunning : Z;
  lastGCSn : N;
  leastUnrefSn : N;
  count : Z;
  writers : list Writer;
  gcchan : list (option ptr);
  tasks : list Task
}.

Definition set_nodes (m : MemDB) (v : list Node) : MemDB :=
  mkMemDB v (store m) (currSn m) (snaps m) (snapshots m) (gcsnapshots m)
    (isGCRunning m) (lastGCSn m) (leastUnrefSn m) (count m) (writers m)
    (gcchan m) (tasks m).

Definition set_store (m : MemDB) (v : list ptr) : MemDB :=
  mkMemDB (nodes m) v (currSn m) (snaps m) (snapshots m) (gcsnapshots m)
    (isGCRunning m) (lastGCSn m) (leastUnrefSn m) (count m) (writers m)
    (gcchan m) (tasks m).

Definition set_currSn (m : MemDB) (v : N) : MemDB :=
  mkMemDB (nodes m) (store m) v (snaps m) (snapshots m) (gcsnapshots m)
    (isGCRunning m) (lastGCSn m) (leastUnrefSn m) (count m) (writers m)
    (gcchan m) (tasks m).

Definition set_snaps (m : MemDB) (v : list Snapshot) : MemDB :=
  mkMemDB (nodes m) (store m) (currSn m) v (snapshots m) (gcsnapshots m)
    (isGCRunning m) (lastGCSn m) (leastUnrefSn m) (count m) (writers m)
    (gcchan m) (tasks m).

Definition set_snapshots (m : MemDB) (v : list ptr) : MemDB :=
  mkMemDB (nodes m) (store m) (currSn m) (snaps m) v (gcsnapshots m)
    (isGCRunning m) (lastGCSn m) (leastUnrefSn m) (count m) (writers m)
    (gcchan m) (tasks m).

Definition set_gcsnapshots (m : MemDB) (v : list ptr) : MemDB :=
  mkMemDB (nodes m) (store m) (currSn m) (snaps m) (snapshots m) v
    (isGCRunning m) (lastGCSn m) (leastUnrefSn m) (count m) (writers m)
    (gcchan m) (tasks m).

Definition set_isGCRunning (m : MemDB) (v : Z) : MemDB :=
  mkMemDB (nodes m) (store m) (currSn m) (snaps m) (snapshots m)
    (gcsnapshots m) v (lastGCSn m) (leastUnrefSn m) (count m) (writers m)
    (gcchan m) (tasks m).

Definition set_lastGCSn (m : MemDB) (v : N) : MemDB :=
  mkMemDB (nodes m) (store m) (currSn m) (snaps m) (snapshots m)
    (gcsnapshots m) (isGCRunning m) v (leastUnrefSn m) (count m) (writers m)
    (gcchan m) (tasks m).

Definition set_leastUnrefSn (m : MemDB) (v : N) : MemDB :=
  mkMemDB (nodes m) (store m) (currSn m) (snaps m) (snapshots m)
    (gcsnapshots m) (isGCRunning m) (lastGCSn m) v (count m) (writers m)
    (gcchan m) (tasks m).

Definition set_count (m : MemDB) (v : Z) : MemDB :=
  mkMemDB (nodes m) (store m) (currSn m) (snaps m) (snapshots m)
    (gcsnapshots m) (isGCRunning m) (lastGCSn m) (leastUnrefSn m) v
    (writers m) (gcchan m) (tasks m).

Definition set_writers (m : MemDB) (v : list Writer) : MemDB :=
  mkMemDB (nodes m) (store m) (currSn m) (snaps m) (snapshots m)
    (gcsnapshots m) (isGCRunning m) (lastGCSn m) (leastUnrefSn m) (count m)
    v (gcchan m) (tasks m).

Definition set_gcchan (m : MemDB) (v : list (option ptr)) : MemDB :=
  mkMemDB (nodes m) (store m) (currSn m) (snaps m) (snapshots m)
    (gcsnapshots m) (isGCRunning m) (lastGCSn m) (leastUnrefSn m) (count m)
    (writers m) v (tasks m).

Definition set_tasks (m : MemDB) (v : list Task) : MemDB :=
  mkMemDB (nodes m) (store m) (currSn m) (snaps m) (snapshots m)
    (gcsnapshots m) (isGCRunning m) (lastGCSn m) (leastUnrefSn m) (count m)
    (writers m) (gcchan m) v.

(** [go f()]. *)
Definition go (t : Task) (m : MemDB) : MemDB := set_tasks m (tasks m ++ [t]).

(** Dereferences.  Every pointer the program holds was allocated, so the
    answer given for an address outside a heap is never observed. *)
Definition nilItem : Item := mkItem [] 0 0.

Definition Item_at (h : list Node) (n : ptr) : Item :=
  match h !! n with
  | Some nd => itm nd
  | None => nilItem
  end.

Definition Snapshot_at (h : list Snapshot) (s : ptr) : Snapshot :=
  match h !! s with
  | Some snap => snap
  | None => mkSnapshot 0 0 0 None
  end.

Definition Writer_at (h : list Writer) (w : ptr) : Writer :=
  match h !! w with
  | Some wr => wr
  | None => mkWriter None None
  end.

Definition set_GClink (h : list Node) (n : ptr) (l : option ptr) : list Node :=
  match h !! n with
  | Some nd => <[n := mkNode (itm nd) l]> h
  | None => h
  end.

Definition set_Item (h : list Node) (n : ptr) (x : Item) : list Node :=
  match h !! n with
  | Some nd => <[n := mkNode x (GClink nd)]> h
  | None => h
  end.

(** The entries of the primary index, in index order. *)
Definition items (m : MemDB) : list Item := map (Item_at (nodes m)) (store m).

Definition CompareSnapshot : CompareFn Snapshot :=
  fun thisItem thatItem => Int.i64 (Int.int (sn thisItem) - Int.int (sn thatItem)).

Inductive error : Type :=
  | ErrMaxSnapshotsLimitReached
  | ErrIO (code : nat).

(** [NewWithConfig]: the fields the constructor sets, the others zero.  The
    registration in [dbInstances] concerns memory accounting only. *)
Definition New : MemDB :=
  mkMemDB [] [] 1 [] [] [] 0 0 0 0 [] [] [].

Definition getCurrSn (m : MemDB) : N := currSn m.
Definition getLeastUnrefSn (m : MemDB) : N := leastUnrefSn m.
Definition ItemsCount (m : MemDB) : Z := count m.

(** [m.wlist] followed through [next]: [NewWriter] links each writer in
    front of the list and nothing relinks it, so the list is the writers'
    addresses from the last made back to the first. *)
Definition wlist (m : MemDB) : list ptr := rev (seq 0 (length (writers m))).

(** [NewWriter]: the new writer's address is returned. *)
Definition NewWriter (m : MemDB) : MemDB * ptr :=
  let w := length (writers m) in
  let m := set_writers m (writers m ++ [mkWriter None None]) in
  let m := go collectionWorker m in
  (m, w).

(** ** Writers *)

Section Database.

(** [Config.keyCmp].  [SetKeyComparator] is the one place that assigns the
    three comparators of a [Config], and it derives all three from the key
    comparator it is given. *)
Variable keyCmp : KeyCompare.

Definition insCmp : CompareFn Item := newInsertCompare keyCmp.
Definition iterCmp : CompareFn Item := newIterCompare keyCmp.
Definition existCmp : CompareFn Item := newExistCompare keyCmp.

(** [w.store.Insert2(x, w.insCmp, w.existCmp, ...)]: the node is allocated,
    then linked; the allocation is given up when the item is a duplicate. *)
Definition store_Insert2 (x : Item) (m : MemDB) : MemDB * ptr * bool :=
  let n := length (nodes m) in
  let heap := nodes m ++ [mkNode x None] in
  let '(chain, r, success) :=
    skiplist.Insert2 (Item_at heap) n insCmp existCmp (store m) in
  if success then (set_store (set_nodes m heap) chain, r, true)
  else (m, r, false).

Definition Put2 (x : Item) (m : MemDB) : MemDB * ptr * bool :=
  let x := set_bornSn x (getCurrSn m) in
  let '(m, n, success) := store_Insert2 x m in
  let m := if success then set_count m (Int.i64 (count m + 1)) else m in
  (m, n, success).

Definition Put (x : Item) (m : MemDB) : MemDB := fst (fst (Put2 x m)).

(** The loop of [GetNode].  [it] is the store iterator after [Next]: an empty
    chain is [!Valid()], otherwise its first node is [next]. *)
Fixpoint GetNode_loop (h : list Node) (curr : ptr) (it : skiplist.Iterator)
  : ptr :=
  match it with
  | [] => curr
  | next :: it' =>
      let nxtItm := Item_at h next in
      let currItm := Item_at h curr in
      if negb (iterCmp nxtItm currItm =? 0)%Z then curr
      else GetNode_loop h next it'
  end.

Definition GetNode (x : Item) (m : MemDB) : option ptr :=
  let '(it, found) := skiplist.Seek (Item_at (nodes m)) iterCmp x (store m) in
  if negb found then None
  else
    match skiplist.GetNode it with
    | None => None
    | Some curr =>
        let curr := GetNode_loop (nodes m) curr (skiplist.Next it) in
        let currItm := Item_at (nodes m) curr in
        if negb (deadSn currItm =? 0)%N then None else Some curr
    end.

Definition Get (x : Item) (m : MemDB) : option Item :=
  match GetNode x m with
  | Some n => Some (Item_at (nodes m) n)
  | None => None
  end.

(** The tail append of [DeleteNode] onto the retired list of writer [w]. *)
Definition retire (w : ptr) (x : ptr) (m : MemDB) : MemDB :=
  let wr := Writer_at (writers m) w in
  match gctail wr with
  | None =>
      set_writers m (<[w := mkWriter (Some x) (Some x)]> (writers m))
  | Some t =>
      let m := set_nodes m (set_GClink (nodes m) t (Some x)) in
      set_writers m (<[w := mkWriter (gchead wr) (Some x)]> (writers m))
  end.

(** How a call of [DeleteNode] ended: through the compare-and-swap of
    [deadSn], through the physical removal of a node born in the current
    sequence, or without success. *)
Inductive Deletion : Type :=
  | Tombstoned
  | Removed
  | NotDeleted.

Definition DeleteNode' (w : ptr) (x : ptr) (m : MemDB)
  : MemDB * bool * Deletion :=
  match nodes m !! x with
  | None => (m, false, NotDeleted)
  | Some nd =>
      let sn := getCurrSn m in
      let gotItem := itm nd in
      let '(m, success, how) :=
        if (bornSn gotItem =? sn)%N then
          let '(chain, success) := skiplist.DeleteNode x (store m) in
          (set_store m chain, success, if success then Removed else NotDeleted)
        else if (deadSn gotItem =? 0)%N then
          let m := set_nodes m (set_Item (nodes m) x (set_deadSn gotItem sn)) in
          (retire w x m, true, Tombstoned)
        else (m, false, NotDeleted) in
      (* the deferred function *)
      let m := if success then set_count m (Int.i64 (count m + -1)) else m in
      (m, success, how)
  end.

Definition DeleteNode (w : ptr) (x : ptr) (m : MemDB) : MemDB * bool :=
  fst (DeleteNode' w x m).

Definition Delete2' (w : ptr) (x : Item) (m : MemDB)
  : MemDB * option ptr * bool * Deletion :=
  match GetNode x m with
  | Some n =>
      let '(m, success, how) := DeleteNode' w n m in (m, Some n, success, how)
  | None => (m, None, false, NotDeleted)
  end.

Definition Delete2 (w : ptr) (x : Item) (m : MemDB)
  : MemDB * option ptr * bool :=
  fst (Delete2' w x m).

Definition Delete (w : ptr) (x : Item) (m : MemDB) : MemDB * bool :=
  let '(m, _, success) := Delete2 w x m in (m, success).

End Database.

(** ** Snapshots *)

(** The loop of [NewSnapshot] over the writers [ws] of [m.wlist]: the
    retired lists are stitched into one chain and every writer's list is
    cleared.  The heaps of nodes and writers are threaded through. *)
Fixpoint stitch (ws : list ptr) (head tail : option ptr)
    (hn : list Node) (hw : list Writer)
  : option ptr * option ptr * list Node * list Writer :=
  match ws with
  | [] => (head, tail, hn, hw)
  | w :: ws' =>
      let wr := Writer_at hw w in
      let '(head, tail, hn) :=
        match tail with
        | None => (gchead wr, gctail wr, hn)
        | Some t =>
            match gchead wr with
            | Some h => (head, gctail wr, set_GClink hn t (Some h))
            | None => (head, tail, hn)
            end
        end in
      stitch ws' head tail hn (<[w := mkWriter None None]> hw)
  end.

Definition set_gclist (h : list Snapshot) (s : ptr) (l : option ptr)
  : list Snapshot :=
  match h !! s with
  | Some snap => <[s := mkSnapshot (sn snap) (refCount snap) (s_count snap) l]> h
  | None => h
  end.

Definition set_refCount (h : list Snapshot) (s : ptr) (c : Z) : list Snapshot :=
  match h !! s with
  | Some snap => <[s := mkSnapshot (sn snap) c (s_count snap) (gclist snap)]> h
  | None => h
  end.

(** [NewSnapshot]: the new state and either the snapshot or the error. *)
Definition NewSnapshot (m : MemDB) : MemDB * (ptr + error) :=
  let snap := length (snaps m) in
  let m := set_snaps m
             (snaps m ++ [mkSnapshot (getCurrSn m) 1 (ItemsCount m) None]) in
  let m := set_snapshots m
             (fst (skiplist.Insert (Snapshot_at (snaps m)) snap CompareSnapshot
                     (snapshots m))) in
  let newSn := Int.add32 (currSn m) 1 in
  let m := set_currSn m newSn in
  if (newSn =? Int.MaxUint32)%N then (m, inr ErrMaxSnapshotsLimitReached)
  else
    let '(head, _, hn, hw) := stitch (wlist m) None None (nodes m) (writers m) in
    let m := set_writers (set_nodes m hn) hw in
    let m := set_snaps m (set_gclist (snaps m) snap head) in
    (m, inl snap).

Definition Open (s : ptr) (m : MemDB) : MemDB * bool :=
  let snap := Snapshot_at (snaps m) s in
  if (refCount snap =? 0)%Z then (m, false)
  else (set_snaps m (set_refCount (snaps m) s (Int.i32 (refCount snap + 1))), true).

Definition setLeastUnrefSn (m : MemDB) : MemDB :=
  let iter := skiplist.SeekFirst (snapshots m) in
  match skiplist.Get (Snapshot_at (snaps m)) iter with
  | Some snap => set_leastUnrefSn m (Int.sub32 (sn snap) 1)
  | None => m
  end.

(** [Snapshot.Close].  The pass it starts is a goroutine: it is recorded in
    [tasks] and runs as [GC] below. *)
Definition Close (s : ptr) (m : MemDB) : MemDB :=
  let newRefcount := Int.i32 (refCount (Snapshot_at (snaps m) s) + -1) in
  let m := set_snaps m (set_refCount (snaps m) s newRefcount) in
  if (newRefcount =? 0)%Z then
    let this := Snapshot_at (snaps m) s in
    let m := set_snapshots m
               (fst (skiplist.Delete (Snapshot_at (snaps m)) this
                       CompareSnapshot (snapshots m))) in
    let m := set_gcsnapshots m
               (fst (skiplist.Insert (Snapshot_at (snaps m)) s CompareSnapshot
                       (gcsnapshots m))) in
    let m := setLeastUnrefSn m in
    if (isGCRunning m =? 0)%Z then go GC_pass (set_isGCRunning m 1)
    else m
  else m.

(** ** Reclamation *)

(** The loop of [collectDead] over the iterator [it] of the dead set: each
    snapshot up to [leastUnrefSn] has its list sent on the channel and its
    node unlinked; the first one above it ends the pass. *)
Fixpoint collectDead_loop (it : skiplist.Iterator) (m : MemDB) : MemDB :=
  match it with
  | [] => m
  | node :: it' =>
      let snap := Snapshot_at (snaps m) node in
      if (getLeastUnrefSn m <? sn snap)%N then m
      else
        let m := set_gcchan m (gcchan m ++ [gclist snap]) in
        let m := set_gcsnapshots m
                   (fst (skiplist.DeleteNode node (gcsnapshots m))) in
        collectDead_loop it' m
  end.

Definition collectDead (sn : N) (m : MemDB) : MemDB :=
  collectDead_loop (skiplist.SeekFirst (gcsnapshots m)) m.

Definition GC (m : MemDB) : MemDB :=
  let sn := getLeastUnrefSn m in
  let m :=
    if negb (sn =? lastGCSn m)%N && (0 <? sn)%N then
      let m := set_lastGCSn m sn in
      collectDead (lastGCSn m) m
    else m in
  if (isGCRunning m =? 1)%Z then set_isGCRunning m 0 else m.

(** ** Iterators over a snapshot *)

(** [Iterator]: the snapshot it reads under and the iterator of the primary
    index. *)
Record Iterator : Type := mkIterator {
  snap : ptr;
  iter : skiplist.Iterator (A := ptr)
}.

(** The loop of [skipUnwanted], on the chain of the index iterator. *)
Fixpoint skipUnwanted_loop (m : MemDB) (s : ptr) (it : skiplist.Iterator)
  : skiplist.Iterator :=
  match it with
  | [] => []
  | n :: it' =>
      let itm := Item_at (nodes m) n in
      let snap := Snapshot_at (snaps m) s in
      if (sn snap <? bornSn itm)%N
         || ((0 <? deadSn itm)%N && (deadSn itm <=? sn snap)%N)
      then skipUnwanted_loop m s it'
      else it
  end.

Definition skipUnwanted (m : MemDB) (it : Iterator) : Iterator :=
  mkIterator (snap it) (skipUnwanted_loop m (snap it) (iter it)).

Definition Iterator_SeekFirst (m : MemDB) (it : Iterator) : Iterator :=
  skipUnwanted m (mkIterator (snap it) (skiplist.SeekFirst (store m))).

Definition Iterator_Seek (keyCmp : KeyCompare) (m : MemDB) (itm : Item)
    (it : Iterator) : Iterator :=
  skipUnwanted m
    (mkIterator (snap it)
       (fst (skiplist.Seek (Item_at (nodes m)) (iterCmp keyCmp) itm (store m)))).

Definition Iterator_Valid (it : Iterator) : bool := skiplist.Valid (iter it).

Definition Iterator_Get (m : MemDB) (it : Iterator) : option Item :=
  skiplist.Get (Item_at (nodes m)) (iter it).

Definition Iterator_GetNode (it : Iterator) : option ptr :=
  skiplist.GetNode (iter it).

Definition Iterator_Next (m : MemDB) (it : Iterator) : Iterator :=
  skipUnwanted m (mkIterator (snap it) (skiplist.Next (iter it))).

(** [MemDB.NewIterator]: refused on a snapshot that cannot be opened.  The
    index iterator it makes is not positioned yet. *)
Definition NewIterator (s : ptr) (m : MemDB) : MemDB * option Iterator :=
  let '(m, ok) := Open s m in
  if ok then (m, Some (mkIterator s [])) else (m, None).

Definition Iterator_Close (it : Iterator) (m : MemDB) : MemDB :=
  Close (snap it) m.

(** What a caller sees who runs an iterator to its end,
    [for ; it.Valid(); it.Next() { ... it.Get() ... }]: the items in the
    order [Get] returned them.  [None] when the loop is still running after
    [fuel] rounds. *)
Fixpoint scan (fuel : nat) (m : MemDB) (it : Iterator) : option (list Item) :=
  match fuel with
  | O => None
  | S fuel' =>
      if Iterator_Valid it then
        match Iterator_Get m it, scan fuel' m (Iterator_Next m it) with
        | Some x, Some xs => Some (x :: xs)
        | _, _ => None
        end
      else Some []
  end.

(** Visibility of an item to a snapshot, as section 3 of the spec words it. *)
Definition visible (S : Snapshot) (x : Item) : bool :=
  (bornSn x <=? sn S)%N && ((deadSn x =? 0)%N || (sn S <? deadSn x)%N).

(** ** Loading from disk *)

(** What [LoadFromDisk] reads through, none of it code of the package: the
    file system ([ioutil.ReadFile]), the JSON decoder and the file codec.  A
    path is the list of its components, so [path.Join(dir, "data")] is
    [dir ++ ["data"]].  [Unmarshal bs] is [json.Unmarshal(bs, &files)]: the
    value it leaves in [files] and the error it returns.  [Reader_items]
    gives the items [ReadItem] returns up to the end of the file, or up to
    the error it stops with. *)
Record Disk : Type := mkDisk {
  ReadFile : list string -> list byte + error;
  Unmarshal : list byte -> list string * option error;
  Reader_Open : list string -> option error;
  Reader_items : list string -> list Item * option error
}.

(** The loop that opens one reader per file of the manifest. *)
Fixpoint open_readers (d : Disk) (datadir : list string) (files : list string)
  : option error :=
  match files with
  | [] => None
  | file :: files' =>
      match Reader_Open d (datadir ++ [file]) with
      | Some err => Some err
      | None => open_readers d datadir files'
      end
  end.

(** [for _, err := range errors]: the first error of a shard. *)
Fixpoint first_error (errors : list (option error)) : option error :=
  match errors with
  | [] => None
  | Some err :: _ => Some err
  | None :: errors' => first_error errors'
  end.

(** [b.Assemble(segments...)] assigned to [m.store]: a new index whose
    entries are the items of the segments in order, on fresh nodes. *)
Definition Assemble (segments : list (list Item)) (m : MemDB) : MemDB :=
  let loaded := concat segments in
  let base := length (nodes m) in
  set_store
    (set_nodes m (nodes m ++ map (fun x => mkNode x None) loaded))
    (seq base (length loaded)).

(** [LoadFromDisk]: the state, the snapshot returned ([None] is nil) and the
    error returned ([None] is nil).  The workers are run one shard after the
    other, each shard to its end or to its first error; the callback is the
    caller's and is left out. *)
Definition LoadFromDisk (d : Disk) (dir : list string) (m : MemDB)
  : MemDB * option ptr * option error :=
  let datadir := dir ++ ["data"%string] in
  match ReadFile d (datadir ++ ["files.json"%string]) with
  | inr err => (m, None, Some err)
  | inl bs =>
      let files := fst (Unmarshal d bs) in
      match open_readers d datadir files with
      | Some err => (m, None, Some err)
      | None =>
          let shards := map (fun file => Reader_items d (datadir ++ [file])) files in
          match first_error (map snd shards) with
          | Some err => (m, None, Some err)
          | None =>
              let m := Assemble (map fst shards) m in
              let m := set_count m (Int.i64 (Z.of_nat (length (store m)))) in
              let '(m, r) := NewSnapshot m in
              (m, match r with inl snap => Some snap | inr _ => None end, None)
          end
      end
  end.

(** ** Histories *)

(** The calls a client makes on a database, its writers and its snapshots,
    and the reclamation pass the scheduler runs ([OpGC]). *)
Inductive Op : Type :=
  | OpNewWriter
  | OpNewSnapshot
  | OpOpen (s : ptr)
  | OpClose (s : ptr)
  | OpGC
  | OpPut (x : Item)
  | OpDelete (w : ptr) (x : Item)
  | OpDeleteNode (w : ptr) (n : ptr).

(** What a call did to the index. *)
Inductive Event : Type :=
  | Inserted
  | Duplicate
  | Deleted (how : Deletion)
  | Quiet.

Definition step (keyCmp : KeyCompare) (o : Op) (m : MemDB) : MemDB * Event :=
  match o with
  | OpNewWriter => (fst (NewWriter m), Quiet)
  | OpNewSnapshot => (fst (NewSnapshot m), Quiet)
  | OpOpen s => (fst (Open s m), Quiet)
  | OpClose s => (Close s m, Quiet)
  | OpGC => (GC m, Quiet)
  | OpPut x =>
      let '(m, _, success) := Put2 keyCmp x m in
      (m, if success then Inserted else Duplicate)
  | OpDelete w x =>
      let '(m, _, _, how) := Delete2' keyCmp w x m in (m, Deleted how)
  | OpDeleteNode w n =>
      let '(m, _, how) := DeleteNode' w n m in (m, Deleted how)
  end.

Fixpoint run (keyCmp : KeyCompare) (ops : list Op) (m : MemDB)
  : MemDB * list Event :=
  match ops with
  | [] => (m, [])
  | o :: ops' =>
      let '(m, e) := step keyCmp o m in
      let '(m, es) := run keyCmp ops' m in
      (m, e :: es)
  end.

Definition is_insert (e : Event) : bool :=
  match e with Inserted => true | _ => false end.

Definition is_tombstone (e : Event) : bool :=
  match e with Deleted Tombstoned => true | _ => false end.

Definition is_removal (e : Event) : bool :=
  match e with Deleted Removed => true | _ => false end.

(** The number of events of a kind in a history. *)
Definition tally (f : Event -> bool) (es : list Event) : Z :=
  Z.of_nat (length (List.filter f es)).

(** ** The collector *)

(** [n.GClink]. *)
Definition GClink_at (h : list Node) (n : ptr) : option ptr :=
  match h !! n with
  | Some nd => GClink nd
  | None => None
  end.

(** The inner loop of [collectionWorker],
    [for n := gclist; n != nil; n = n.GClink], after at most [fuel] rounds:
    every node of the chain is deleted from the primary index. *)
Fixpoint collectionWorker_loop (fuel : nat) (n : option ptr) (m : MemDB)
  : MemDB :=
  match fuel, n with
  | S fuel', Some p =>
      let m := set_store m (fst (skiplist.DeleteNode p (store m))) in
      collectionWorker_loop fuel' (GClink_at (nodes m) p) m
  | _, _ => m
  end.

(** One round of [for gclist := range m.gcchan]: the oldest list sent is
    received and walked.  On an empty channel the collector waits. *)
Definition collectionWorker_recv (fuel : nat) (m : MemDB) : MemDB :=
  match gcchan m with
  | [] => m
  | gclist :: rest => collectionWorker_loop fuel gclist (set_gcchan m rest)
  end.

(** ** The live snapshots *)



(** ** Actions *)

(** What happens to a database: a call of a client, or a collector that
    receives a list and walks it for some rounds. *)
Inductive Action : Type :=
  | Call (o : Op)
  | Collect (fuel : nat).

Definition act (keyCmp : KeyCompare) (a : Action) (m : MemDB) : MemDB :=
  match a with
  | Call o => fst (step keyCmp o m)
  | Collect fuel => collectionWorker_recv fuel m
  end.

(** A sequence of actions. *)
Fixpoint acts (keyCmp : KeyCompare) (l : list Action) (m : MemDB) : MemDB :=
  match l with
  | [] => m
  | a :: l' => acts keyCmp l' (act keyCmp a m)
  end.


(** ** The count of a snapshot *)


(** ** The codec of a snapshot *)

(** What [Encode] and [Decode] work through, none of it code of the package:
    byte slices, [binary.BigEndian] and the streams of [io]. *)

(** A byte slice: the bytes up to its length and, behind them, the spare
    bytes of its array up to its capacity.  [buf[0:4]] needs a capacity of
    4, not a length of 4. *)
Record Slice : Type := mkSlice {
  elems : list byte;
  spare : list byte
}.

Definition len (b : Slice) : nat := length (elems b).
Definition cap (b : Slice) : nat := length (elems b ++ spare b).

(** [buf[0:n]]. *)
Definition upto (n : nat) (b : Slice) : list byte :=
  firstn n (elems b ++ spare b).

(** Writing [p] through [buf[0:len(p)]]: the first bytes of the array are
    overwritten, the length of [buf] stays what it was. *)
Definition overwrite (p : list byte) (b : Slice) : Slice :=
  let arr := p ++ skipn (length p) (elems b ++ spare b) in
  mkSlice (firstn (len b) arr) (skipn (len b) arr).

(** [byte(v)]: the low eight bits. *)
Definition byte_of (v : N) : byte :=
  match Byte.of_N (v mod 256) with
  | Some b => b
  | None => "000"%byte
  end.

(** [binary.BigEndian.PutUint32]: [b[0] = byte(v >> 24)], [b[1] = byte(v >> 16)],
    [b[2] = byte(v >> 8)], [b[3] = byte(v)]. *)
Definition PutUint32 (v : N) : list byte :=
  [byte_of (N.shiftr v 24); byte_of (N.shiftr v 16); byte_of (N.shiftr v 8);
   byte_of v].

(** [binary.BigEndian.Uint32]:
    [uint32(b[3]) | uint32(b[2])<<8 | uint32(b[1])<<16 | uint32(b[0])<<24]. *)
Definition Uint32 (b : list byte) : N :=
  match b with
  | [b0; b1; b2; b3] =>
      N.lor (N.lor (N.lor (Byte.to_N b3) (N.shiftl (Byte.to_N b2) 8))
               (N.shiftl (Byte.to_N b1) 16))
        (N.shiftl (Byte.to_N b0) 24)
  | _ => 0%N
  end.

(** The errors of the codec: its own, those of [io.ReadFull], and whatever
    a stream fails with. *)
Inductive codec_error : Type :=
  | ErrNotEnoughSpace
  | EOF
  | ErrUnexpectedEOF
  | ErrStream (e : error).

(** An [io.Reader]: the bytes it still delivers and the error it ends with,
    [None] for the end of the stream. *)
Record Reader : Type := mkReader {
  pending : list byte;
  failure : option error
}.

(** [io.ReadFull(r, p)] with [n = len(p)]: the bytes copied into [p], the
    reader after the call and the error.  A stream that ends before [n]
    bytes gives [EOF] when it gave nothing and [ErrUnexpectedEOF] when it
    gave something; a stream that fails gives its error. *)
Definition ReadFull (r : Reader) (n : nat)
  : list byte * Reader * option codec_error :=
  if n <=? length (pending r) then
    (firstn n (pending r), mkReader (skipn n (pending r)) (failure r), None)
  else
    (pending r, mkReader [] (failure r),
     Some match failure r with
          | Some e => ErrStream e
          | None =>
              match pending r with
              | [] => EOF
              | _ :: _ => ErrUnexpectedEOF
              end
          end).

Definition set_sn (s : Snapshot) (v : N) : Snapshot :=
  mkSnapshot v (refCount s) (s_count s) (gclist s).

Section Codec.

(** An [io.Writer]: [Write p w] is the writer after [w.Write(p)] and the
    error the call returns. *)
Variable W : Type.
Variable Write : list byte -> W -> W * option codec_error.

(** [Snapshot.Encode]: the buffer and the writer after the call, and the
    error returned. *)
Definition Encode (s : Snapshot) (buf : Slice) (w : W)
  : Slice * W * option codec_error :=
  let l := 4 in
  if len buf <? l then (buf, w, Some ErrNotEnoughSpace)
  else
    let buf := overwrite (PutUint32 (sn s)) buf in
    let '(w, err) := Write (upto 4 buf) w in
    (buf, w, err).

End Codec.

(** What a call of [Decode] comes to: it returns, or it panics on
    [buf[0:4]] (slice bounds out of range). *)
Inductive Decoded : Type :=
  | Returned (s : Snapshot) (buf : Slice) (r : Reader)
      (err : option codec_error)
  | Panicked.

(** [Snapshot.Decode]. *)
Definition Decode (s : Snapshot) (buf : Slice) (r : Reader) : Decoded :=
  if cap buf <? 4 then Panicked
  else
    let '(got, r, err) := ReadFull r 4 in
    let buf := overwrite got buf in
    match err with
    | Some e => Returned s buf r (Some e)
    | None => Returned (set_sn s (Uint32 (upto 4 buf))) buf r None
    end.

(** * Specification *)

(** The vocabulary of the properties: what the spec's words mean on the
    states of the model, each as a function that can be run. *)

(** ** Order and stamps *)

(** An index chain is in order under [cmp] when no entry compares above the
    one that follows it. *)
Fixpoint ordered (cmp : CompareFn Item) (l : list Item) : bool :=
  match l with
  | [] => true
  | a :: l' =>
      match l' with
      | [] => true
      | b :: _ => (cmp a b <=? 0)%Z && ordered cmp l'
      end
  end.

(** The stamps of an item fit [uint32]. *)
Definition stamps_fit (x : Item) : bool :=
  (bornSn x <=? Int.MaxUint32)%N && (deadSn x <=? Int.MaxUint32)%N.

(** A key comparator orders the keys: swapping its arguments swaps the sign
    of its answer, and "not above" is transitive. *)
Record KeyOrder (keyCmp : KeyCompare) : Prop := mkKeyOrder {
  key_antisym :
    forall a b, Z.sgn (keyCmp b a) = (- Z.sgn (keyCmp a b))%Z;
  key_trans :
    forall a b c,
      (keyCmp a b <= 0)%Z -> (keyCmp b c <= 0)%Z -> (keyCmp a c <= 0)%Z
}.

(** ** Lookup *)

(** The entries walked from [curr]: the longest stretch of the chain [l] in
    which every entry has the key of the one before it. *)
Fixpoint equal_run (keyCmp : KeyCompare) (m : MemDB) (curr : ptr)
    (l : list ptr) : list ptr :=
  match l with
  | [] => []
  | next :: l' =>
      if (iterCmp keyCmp (Item_at (nodes m) next) (Item_at (nodes m) curr)
          =? 0)%Z
      then next :: equal_run keyCmp m next l'
      else []
  end.

(** Every entry of [run] has the key of the one before it, [curr] first. *)
Fixpoint linked (keyCmp : KeyCompare) (m : MemDB) (curr : ptr)
    (run : list ptr) : Prop :=
  match run with
  | [] => True
  | next :: run' =>
      iterCmp keyCmp (Item_at (nodes m) next) (Item_at (nodes m) curr) = 0%Z
      /\ linked keyCmp m next run'
  end.

(** [Get] as the spec words it: seek the first entry whose key is not below
    the probe's; if its key is the probe's, take the last entry of the run
    of equal keys; return it if it is live. *)
Definition GetNode_spec (keyCmp : KeyCompare) (m : MemDB) (x : Item)
  : option ptr :=
  match skiplist.seek (Item_at (nodes m)) (iterCmp keyCmp) x (store m) with
  | [] => None
  | first :: rest =>
      if (iterCmp keyCmp (Item_at (nodes m) first) x =? 0)%Z then
        let n := List.last (first :: equal_run keyCmp m first rest) first in
        if (deadSn (Item_at (nodes m) n) =? 0)%N then Some n else None
      else None
  end.

(** ** Counting *)

(** What an event adds to the counter. *)
Definition delta (e : Event) : Z :=
  match e with
  | Inserted => 1
  | Deleted Tombstoned => -1
  | Deleted Removed => -1
  | Deleted NotDeleted => 0
  | Duplicate => 0
  | Quiet => 0
  end.

(** What the events of a history add up to. *)
Definition total (es : list Event) : Z :=
  fold_right (fun e z => delta e + z)%Z 0%Z es.

(** The range of [int64]. *)
Definition in_i64 (z : Z) : Prop :=
  (-9223372036854775808 <= z < 9223372036854775808)%Z.

(** ** One live version of a key *)

(** Two live entries of the index clash when they carry one key. *)
Definition live_clash (keyCmp : KeyCompare) (h : list Node) (p q : ptr) : bool :=
  negb (p =? q)
  && (deadSn (Item_at h p) =? 0)%N && (deadSn (Item_at h q) =? 0)%N
  && (keyCmp (Bytes (Item_at h p)) (Bytes (Item_at h q)) =? 0)%Z.

(** No key has two live entries. *)
Definition one_live_version (keyCmp : KeyCompare) (m : MemDB) : bool :=
  forallb
    (fun p => forallb (fun q => negb (live_clash keyCmp (nodes m) p q)) (store m))
    (store m).

(** The index links allocated nodes only. *)
Definition linked_allocated (m : MemDB) : bool :=
  forallb (fun e => e <? length (nodes m)) (store m).

(** ** Snapshots and reclamation *)

(** The dead snapshots a pass promotes: those in front of the first one
    whose [sn] is above [least]. *)
Fixpoint promoted (h : list Snapshot) (least : N) (dead : list ptr) : list ptr :=
  match dead with
  | [] => []
  | d :: dead' =>
      if (least <? sn (Snapshot_at h d))%N then []
      else d :: promoted h least dead'
  end.

(** The dead snapshots a pass leaves: from that first one on. *)
Fixpoint retained (h : list Snapshot) (least : N) (dead : list ptr) : list ptr :=
  match dead with
  | [] => []
  | d :: dead' =>
      if (least <? sn (Snapshot_at h d))%N then dead
      else retained h least dead'
  end.

(** A list of sequence numbers ascends: no element is above a later one. *)
Fixpoint ascending (l : list N) : bool :=
  match l with
  | [] => true
  | a :: l' => forallb (fun b => (a <=? b)%N) l' && ascending l'
  end.

(** The sequence numbers of the snapshots of a set, in its order. *)
Definition sns (h : list Snapshot) (set : list ptr) : list N :=
  map (fun s => sn (Snapshot_at h s)) set.

(** Every live snapshot is allocated and was stamped before the current
    sequence. *)
Definition live_before_current (m : MemDB) : bool :=
  forallb
    (fun p => (p <? length (snaps m))
              && (sn (Snapshot_at (snaps m) p) <? getCurrSn m)%N)
    (snapshots m).

(** The collector tasks started on a database so far: the consumers of its
    retirement channel. *)
Definition collectors (m : MemDB) : nat :=
  count_occ Task_eq_dec (tasks m) collectionWorker.

(** [n] calls of [NewWriter] in a row. *)
Fixpoint NewWriters (n : nat) (m : MemDB) : MemDB :=
  match n with
  | O => m
  | S n' => NewWriters n' (fst (NewWriter m))
  end.

(** ** Invariants *)

(** On a heap [h] and a chain [l]: the chain links allocated nodes, no key
    has two live entries, the chain is in the order of [insCmp] and the
    stamps of its entries fit [uint32]. *)
Definition chain_inv (keyCmp : KeyCompare) (h : list Node) (l : list ptr)
  : Prop :=
  (forall e, In e l -> e < length h)
  /\ (forall p q, In p l -> In q l -> p <> q ->
        deadSn (Item_at h p) = 0%N -> deadSn (Item_at h q) = 0%N ->
        keyCmp (Bytes (Item_at h p)) (Bytes (Item_at h q)) <> 0%Z)
  /\ ordered (insCmp keyCmp) (map (Item_at h) l) = true
  /\ (forall e, In e l -> stamps_fit (Item_at h e) = true).

(** The invariant of the primary index. *)
Definition store_inv (keyCmp : KeyCompare) (m : MemDB) : Prop :=
  chain_inv keyCmp (nodes m) (store m) /\ (currSn m <= Int.MaxUint32)%N.

(** On a heap [h] of snapshots, a live set [l] and the current sequence
    [c]: the live snapshots are allocated, their [sn] is at least 1 and
    below [c], and the set is in ascending order of [sn]. *)
Definition live_inv (h : list Snapshot) (l : list ptr) (c : N) : Prop :=
  (forall p, In p l ->
     p < length h
     /\ (0 < sn (Snapshot_at h p))%N /\ (sn (Snapshot_at h p) < c)%N)
  /\ ascending (sns h l) = true.

(** The invariant of the live set. *)
Definition snap_inv (m : MemDB) : Prop :=
  live_inv (snaps m) (snapshots m) (currSn m)
  /\ (1 <= currSn m <= Int.MaxUint32)%N.

(** A call is admissible when the item it puts is fresh (it was never
    tombstoned) and when it takes no snapshot after the sequence reached the
    32-bit limit. *)
Definition admissible (o : Op) (m : MemDB) : Prop :=
  match o with
  | OpPut x => deadSn x = 0%N
  | OpNewSnapshot => (currSn m < Int.MaxUint32)%N
  | _ => True
  end.

(** The states of a database that admissible calls lead to from [New]. *)
Inductive reachable (keyCmp : KeyCompare) : MemDB -> Prop :=
  | reachable_New : reachable keyCmp New
  | reachable_step (o : Op) (m : MemDB) :
      reachable keyCmp m -> admissible o m ->
      reachable keyCmp (fst (step keyCmp o m)).

(** ** A database in use *)

(** What a snapshot sees: the nodes of the index whose item is visible to
    it, in index order. *)
Definition sees (m : MemDB) (s : ptr) : list ptr :=
  List.filter (fun e => visible (Snapshot_at (snaps m) s) (Item_at (nodes m) e))
    (store m).

(** The live entries of the index. *)
Definition live_entries (m : MemDB) : list ptr :=
  List.filter (fun e => (deadSn (Item_at (nodes m) e) =? 0)%N) (store m).

(** The use a client makes of a database that has not met the limit of
    snapshots: the items it puts are fresh, the snapshots it takes succeed,
    and the nodes it hands to [DeleteNode] are nodes of the index. *)
Definition proper (a : Action) (m : MemDB) : Prop :=
  match a with
  | Call (OpPut x) => deadSn x = 0%N
  | Call OpNewSnapshot => (currSn m + 1 < Int.MaxUint32)%N
  | Call (OpDeleteNode w n) => In n (store m)
  | _ => True
  end.

(** The states of a database in use: those that proper actions lead to
    from [New]. *)
Inductive operating (keyCmp : KeyCompare) : MemDB -> Prop :=
  | operating_New : operating keyCmp New
  | operating_act (a : Action) (m : MemDB) :
      operating keyCmp m -> proper a m -> operating keyCmp (act keyCmp a m).

(** A sequence of actions is proper when each is, in the state it meets. *)
Fixpoint proper_all (keyCmp : KeyCompare) (l : list Action) (m : MemDB)
  : Prop :=
  match l with
  | [] => True
  | a :: l' => proper a m /\ proper_all keyCmp l' (act keyCmp a m)
  end.

(** ** Snapshots that do not overlap *)

(** A [Close] is of the only live snapshot when the live set holds no
    other one. *)
Definition alone (a : Action) (m : MemDB) : Prop :=
  match a with
  | Call (OpClose s) => snapshots m = [] \/ snapshots m = [s]
  | _ => True
  end.

Fixpoint alone_all (keyCmp : KeyCompare) (l : list Action) (m : MemDB)
  : Prop :=
  match l with
  | [] => True
  | a :: l' => alone a m /\ alone_all keyCmp l' (act keyCmp a m)
  end.

(** ** Reclamation in a database in use *)

(** Several nodes unlinked one after the other. *)
Definition unlinks {A : Type} `{EqDecision A} (ks : list A) (l : list A)
  : list A :=
  fold_left (fun l k => skiplist.unlink k l) ks l.

(** The retired lists are stamped: a node that links to another is
    tombstoned and the two carry one [deadSn]; the lists of a writer carry
    the current sequence, the list of a snapshot its [sn], and a list on the
    channel a sequence that no live snapshot has reached.  The snapshots
    were stamped in the order they were allocated, and the live set holds
    none twice. *)
Record gc_inv (m : MemDB) : Prop := mk_gc_inv {
  gc_links :
    forall n k, GClink_at (nodes m) n = Some k ->
      deadSn (Item_at (nodes m) n) <> 0%N
      /\ deadSn (Item_at (nodes m) k) = deadSn (Item_at (nodes m) n);
  gc_writers :
    forall w wr p, writers m !! w = Some wr ->
      gchead wr = Some p \/ gctail wr = Some p ->
      deadSn (Item_at (nodes m) p) = currSn m;
  gc_snaps :
    forall s sp, snaps m !! s = Some sp ->
      (1 <= sn sp < currSn m)%N
      /\ forall p, gclist sp = Some p -> deadSn (Item_at (nodes m) p) = sn sp;
  gc_chan :
    forall p, In (Some p) (gcchan m) ->
      (0 < deadSn (Item_at (nodes m) p) <= leastUnrefSn m)%N;
  gc_least :
    forall s, In s (snapshots m) ->
      (leastUnrefSn m < sn (Snapshot_at (snaps m) s))%N;
  gc_least_curr : (leastUnrefSn m < currSn m)%N;
  gc_order :
    forall i j, i < j -> j < length (snaps m) ->
      (sn (Snapshot_at (snaps m) i) < sn (Snapshot_at (snaps m) j))%N;
  gc_live_nodup : List.NoDup (snapshots m)
}.

(** The versions of the index: no node is linked twice, no entry is born
    after the current sequence, a tombstoned entry died after it was born
    and not after the current sequence, the live entry of a key is its
    newest version, the counter is the number of live entries, and the
    versions of a key succeed one another: of two, the one born first died
    before the other was born, or at the sequence it was born at. *)
Record version_inv (keyCmp : KeyCompare) (m : MemDB) : Prop := mk_version_inv {
  v_nodup : List.NoDup (store m);
  v_born :
    forall e, In e (store m) -> (bornSn (Item_at (nodes m) e) <= currSn m)%N;
  v_dead :
    forall e, In e (store m) -> deadSn (Item_at (nodes m) e) <> 0%N ->
      (bornSn (Item_at (nodes m) e) < deadSn (Item_at (nodes m) e)
       <= currSn m)%N;
  v_newest :
    forall p q, In p (store m) -> In q (store m) -> p <> q ->
      keyCmp (Bytes (Item_at (nodes m) p)) (Bytes (Item_at (nodes m) q)) = 0%Z ->
      deadSn (Item_at (nodes m) p) = 0%N ->
      (bornSn (Item_at (nodes m) q) < bornSn (Item_at (nodes m) p))%N;
  v_count : count m = Int.i64 (Z.of_nat (length (live_entries m)));
  v_successive :
    forall p q, In p (store m) -> In q (store m) -> p <> q ->
      keyCmp (Bytes (Item_at (nodes m) p)) (Bytes (Item_at (nodes m) q)) = 0%Z ->
      (bornSn (Item_at (nodes m) q) <= bornSn (Item_at (nodes m) p))%N ->
      (0 < deadSn (Item_at (nodes m) q) <= bornSn (Item_at (nodes m) p))%N
}.

(** The invariants of a database in use. *)
Definition sound (keyCmp : KeyCompare) (m : MemDB) : Prop :=
  store_inv keyCmp m /\ snap_inv m /\ gc_inv m /\ version_inv keyCmp m.

(** Nothing was promoted and nothing can be: [leastUnrefSn] and [lastGCSn]
    are 0 and the channel is empty. *)
Definition idle (m : MemDB) : Prop :=
  leastUnrefSn m = 0%N /\ lastGCSn m = 0%N /\ gcchan m = [].

(** ** Examples *)

(** Two keys. *)
Definition key_a : Item := mkItem ["a"%byte] 0 0.
Definition key_b : Item := mkItem ["b"%byte] 0 0.

(** A history that leaves two versions of the first key in the index, the
    older one tombstoned and the newer one live, and one entry of the
    second key. *)
Definition two_versions : MemDB :=
  fst (run defaultKeyCmp
         [OpNewWriter; OpPut key_a; OpNewSnapshot; OpDelete 0 key_a;
          OpPut key_a; OpPut key_b] New).

(** Three snapshots taken one after the other. *)
Definition three_snapshots : MemDB :=
  fst (run defaultKeyCmp [OpNewSnapshot; OpNewSnapshot; OpNewSnapshot] New).

(** A database one snapshot away from the limit, with one writer that holds
    a retired node. *)
Definition near_limit : MemDB :=
  let m := fst (run defaultKeyCmp
                  [OpNewWriter; OpPut key_a; OpNewSnapshot; OpDelete 0 key_a]
                  New) in
  set_currSn m 4294967294.

(** A disk whose manifest is the one byte of an opening brace, which the
    decoder refuses. *)
Definition broken_manifest : Disk :=
  mkDisk
    (fun path =>
       if List.list_eq_dec String.string_dec path ["db"; "data"; "files.json"]%string
       then inl ["{"%byte] else inr (ErrIO 2))
    (fun bs => ([], Some (ErrIO 1)))
    (fun path => Some (ErrIO 2))
    (fun path => ([], Some (ErrIO 2))).

(** A history that goes through every stage of the reclamation: a key is
    put and deleted under snapshots, the snapshots that saw it are closed,
    two passes promote their lists, and a collector receives the first
    (empty) one.  The list that holds the tombstoned node is on the
    channel. *)
Definition reclaiming : list Action :=
  [Call OpNewWriter; Call (OpPut key_a); Call (OpPut key_b);
   Call OpNewSnapshot; Call (OpDelete 0 key_a); Call OpNewSnapshot;
   Call OpNewSnapshot; Call (OpClose 0); Call OpGC; Call (OpClose 1);
   Call OpGC; Collect 8].

Definition reclaimed : MemDB := acts defaultKeyCmp reclaiming New.

(** A key put by a writer, and a snapshot taken of it. *)
Definition snapped : MemDB :=
  acts defaultKeyCmp [Call OpNewWriter; Call (OpPut key_a); Call OpNewSnapshot]
    New.

(** Snapshots taken and closed one after the other, around the deletion of
    a key. *)
Definition in_turn : list Action :=
  [Call OpNewWriter; Call (OpPut key_a); Call OpNewSnapshot;
   Call (OpClose 0); Call OpGC; Call (OpDelete 0 key_a); Call OpNewSnapshot;
   Call (OpClose 1); Call OpGC; Call OpNewSnapshot; Call (OpClose 2);
   Call OpGC; Collect 8].

(** A key written twice: [key_a] is put, a snapshot is taken, the key is
    deleted and put again beside [key_b], and a second snapshot is taken.
    The index holds both versions of [key_a]. *)
Definition rewriting : list Action :=
  [Call OpNewWriter; Call (OpPut key_a); Call OpNewSnapshot;
   Call (OpDelete 0 key_a); Call (OpPut key_a); Call (OpPut key_b);
   Call OpNewSnapshot].

Definition rewritten : MemDB := acts defaultKeyCmp rewriting New.

(** * Properties *)

(** ** Machine integers *)

Lemma i64_small (z : Z) :
  (-9223372036854775808 <= z < 9223372036854775808)%Z -> Int.i64 z = z.
Proof.
  intros Hz. unfold Int.i64.
  rewrite Z.mod_small by lia. lia.
Qed.

Lemma i64_i64_add (a b : Z) : Int.i64 (Int.i64 a + b) = Int.i64 (a + b).
Proof.
  unfold Int.i64.
  replace ((a + 9223372036854775808) mod 18446744073709551616
           - 9223372036854775808 + b + 9223372036854775808)%Z
    with ((a + 9223372036854775808) mod 18446744073709551616 + b)%Z by lia.
  rewrite Zplus_mod_idemp_l.
  f_equal. f_equal. lia.
Qed.

Lemma int_u32 (n : N) : (n <= Int.MaxUint32)%N -> Int.int n = Z.of_N n.
Proof.
  unfold Int.int, Int.MaxUint32. intros Hn. apply i64_small. lia.
Qed.

Lemma sub32_one_lt (n : N) : (0 < n)%N -> (Int.sub32 n 1 < n)%N.
Proof.
  intros Hn. unfold Int.sub32, Int.u32.
  assert (H : (0 <= (Z.of_N n - Z.of_N 1) mod 4294967296
               <= Z.of_N n - Z.of_N 1)%Z).
  { split.
    - apply Z.mod_pos_bound. lia.
    - apply Z.mod_le; lia. }
  lia.
Qed.

Lemma sub32_one_pred (n : N) :
  (0 < n)%N -> (n <= Int.MaxUint32)%N -> Int.sub32 n 1 = N.pred n.
Proof.
  unfold Int.sub32, Int.u32, Int.MaxUint32. intros H0 H1.
  rewrite Z.mod_small by lia. lia.
Qed.

(** ** Comparators *)

(** [bytes.Compare] answers 0 on equal slices only. *)
Lemma bytes_Compare_eq (a b : list byte) : bytes_Compare a b = 0%Z -> a = b.
Proof.
  revert b. induction a as [|x a IH]; intros [|y b]; simpl; trivial;
    try discriminate.
  destruct (N.compare_spec (Byte.to_N x) (Byte.to_N y)) as [E|E|E];
    try discriminate.
  intros H. f_equal.
  - assert (Hx := Byte.of_to_N x). rewrite E, Byte.of_to_N in Hx.
    congruence.
  - apply IH, H.
Qed.

Lemma bytes_Compare_refl (a : list byte) : bytes_Compare a a = 0%Z.
Proof.
  induction a as [|x a IH]; simpl; trivial.
  rewrite N.compare_refl. exact IH.
Qed.

Lemma defaultKeyCmp_sym (a b : list byte) :
  defaultKeyCmp a b = 0%Z -> defaultKeyCmp b a = 0%Z.
Proof.
  unfold defaultKeyCmp. intros H. apply bytes_Compare_eq in H. subst.
  apply bytes_Compare_refl.
Qed.

Lemma defaultKeyCmp_trans (a b c : list byte) :
  defaultKeyCmp a b = 0%Z -> defaultKeyCmp b c = 0%Z -> defaultKeyCmp a c = 0%Z.
Proof.
  unfold defaultKeyCmp. intros H1 H2.
  apply bytes_Compare_eq in H1, H2. subst. apply bytes_Compare_refl.
Qed.

Lemma bytes_Compare_antisym (a b : list byte) :
  Z.sgn (bytes_Compare b a) = (- Z.sgn (bytes_Compare a b))%Z.
Proof.
  revert b. induction a as [|x a IH]; intros [|y b]; simpl; trivial.
  rewrite (N.compare_antisym (Byte.to_N x) (Byte.to_N y)).
  destruct (Byte.to_N x ?= Byte.to_N y)%N; simpl; trivial.
Qed.

Lemma bytes_Compare_trans (a b c : list byte) :
  (bytes_Compare a b <= 0)%Z -> (bytes_Compare b c <= 0)%Z ->
  (bytes_Compare a c <= 0)%Z.
Proof.
  revert b c. induction a as [|x a IH]; intros [|y b] [|z c]; simpl; try lia.
  destruct (N.compare_spec (Byte.to_N x) (Byte.to_N y)) as [E1|E1|E1];
    destruct (N.compare_spec (Byte.to_N y) (Byte.to_N z)) as [E2|E2|E2];
    destruct (N.compare_spec (Byte.to_N x) (Byte.to_N z)) as [E3|E3|E3];
    try lia; intros H1 H2; try (exfalso; lia).
  eapply IH; eauto.
Qed.

Lemma defaultKeyCmp_order : KeyOrder defaultKeyCmp.
Proof.
  split; unfold defaultKeyCmp.
  - apply bytes_Compare_antisym.
  - apply bytes_Compare_trans.
Qed.

Section KeyLaws.

Variable keyCmp : KeyCompare.
Hypothesis Hkey : KeyOrder keyCmp.

Lemma key_sym0 (a b : list byte) : keyCmp a b = 0%Z -> keyCmp b a = 0%Z.
Proof.
  intros H. pose proof (key_antisym keyCmp Hkey a b) as Ha.
  rewrite H in Ha. simpl in Ha.
  destruct (keyCmp b a); simpl in Ha; [reflexivity | discriminate | discriminate].
Qed.

Lemma key_trans0 (a b c : list byte) :
  keyCmp a b = 0%Z -> keyCmp b c = 0%Z -> keyCmp a c = 0%Z.
Proof.
  intros H1 H2.
  pose proof (key_trans keyCmp Hkey a b c) as T1.
  pose proof (key_trans keyCmp Hkey c b a) as T2.
  pose proof (key_sym0 _ _ H1). pose proof (key_sym0 _ _ H2).
  pose proof (key_antisym keyCmp Hkey a c) as Ha.
  assert (keyCmp a c <= 0)%Z by lia.
  assert (keyCmp c a <= 0)%Z by lia.
  destruct (keyCmp a c) eqn:E1, (keyCmp c a) eqn:E2; simpl in Ha; lia.
Qed.

(** [insCmp] on items whose stamps fit [uint32]. *)
Lemma insCmp_fit (a b : Item) :
  stamps_fit a = true -> stamps_fit b = true ->
  insCmp keyCmp a b
  = (if (keyCmp (Bytes a) (Bytes b) =? 0)%Z
     then Z.of_N (bornSn a) - Z.of_N (bornSn b)
     else keyCmp (Bytes a) (Bytes b))%Z.
Proof.
  unfold stamps_fit, insCmp, newInsertCompare. intros Ha Hb.
  apply andb_true_iff in Ha as [Ha _]. apply andb_true_iff in Hb as [Hb _].
  apply N.leb_le in Ha, Hb.
  destruct (keyCmp (Bytes a) (Bytes b) =? 0)%Z; trivial.
  rewrite !int_u32 by assumption.
  unfold Int.MaxUint32 in *. apply i64_small. lia.
Qed.

Lemma insCmp_antisym (a b : Item) :
  stamps_fit a = true -> stamps_fit b = true ->
  (insCmp keyCmp a b >= 0)%Z -> (insCmp keyCmp b a <= 0)%Z.
Proof.
  intros Ha Hb. rewrite (insCmp_fit a b), (insCmp_fit b a) by assumption.
  pose proof (key_antisym keyCmp Hkey (Bytes a) (Bytes b)) as Hs.
  destruct (Z.eqb_spec (keyCmp (Bytes a) (Bytes b)) 0) as [E|E].
  - rewrite (key_sym0 _ _ E). simpl. lia.
  - destruct (Z.eqb_spec (keyCmp (Bytes b) (Bytes a)) 0) as [E'|E'].
    + exfalso. apply E. apply key_sym0, E'.
    + destruct (keyCmp (Bytes a) (Bytes b)), (keyCmp (Bytes b) (Bytes a));
        simpl in Hs; lia.
Qed.

Lemma insCmp_trans (a b c : Item) :
  stamps_fit a = true -> stamps_fit b = true -> stamps_fit c = true ->
  (insCmp keyCmp a b <= 0)%Z -> (insCmp keyCmp b c <= 0)%Z ->
  (insCmp keyCmp a c <= 0)%Z.
Proof.
  intros Ha Hb Hc.
  rewrite (insCmp_fit a b), (insCmp_fit b c), (insCmp_fit a c) by assumption.
  pose proof (key_trans keyCmp Hkey (Bytes a) (Bytes b) (Bytes c)) as T.
  pose proof (key_trans keyCmp Hkey (Bytes c) (Bytes a) (Bytes b)) as T1.
  pose proof (key_trans keyCmp Hkey (Bytes b) (Bytes c) (Bytes a)) as T2.
  pose proof (key_antisym keyCmp Hkey (Bytes a) (Bytes b)) as S1.
  pose proof (key_antisym keyCmp Hkey (Bytes b) (Bytes c)) as S2.
  pose proof (key_antisym keyCmp Hkey (Bytes a) (Bytes c)) as S3.
  destruct (Z.eqb_spec (keyCmp (Bytes a) (Bytes b)) 0) as [E1|E1];
    destruct (Z.eqb_spec (keyCmp (Bytes b) (Bytes c)) 0) as [E2|E2];
    destruct (Z.eqb_spec (keyCmp (Bytes a) (Bytes c)) 0) as [E3|E3];
    intros H1 H2; lia.
Qed.

End KeyLaws.

(** ** Chains in order *)

Lemma ordered_cons (cmp : CompareFn Item) (a : Item) (l : list Item) :
  ordered cmp (a :: l) = true ->
  ordered cmp l = true
  /\ match l with [] => True | b :: _ => (cmp a b <= 0)%Z end.
Proof.
  simpl. destruct l as [|b l]; [intros _; split; trivial|].
  intros H. apply andb_true_iff in H as [H1 H2].
  apply Z.leb_le in H1. split; assumption.
Qed.

Lemma ordered_cons_intro (cmp : CompareFn Item) (a : Item) (l : list Item) :
  ordered cmp l = true ->
  match l with [] => True | b :: _ => (cmp a b <= 0)%Z end ->
  ordered cmp (a :: l) = true.
Proof.
  intros Hl Ha. simpl. destruct l as [|b l]; trivial.
  apply andb_true_iff. split; [apply Z.leb_le, Ha | exact Hl].
Qed.

Lemma ordered_app_r (cmp : CompareFn Item) (a b : list Item) :
  ordered cmp (a ++ b) = true -> ordered cmp b = true.
Proof.
  induction a as [|x a IH]; simpl; trivial.
  destruct (a ++ b) eqn:E.
  - intros _. destruct a; [simpl in E; subst; reflexivity | discriminate].
  - intros H. apply andb_true_iff in H. apply IH, H.
Qed.

Lemma forallb_app_r {A : Type} (f : A -> bool) (a b : list A) :
  forallb f (a ++ b) = true -> forallb f b = true.
Proof.
  rewrite forallb_app. intros H. apply andb_true_iff in H. apply H.
Qed.

(** ** Iteration under a snapshot (C1) *)

Section Iteration.

Variable m : MemDB.
Variable s : ptr.

Local Abbreviation snapshot_of := (Snapshot_at (snaps m) s).
Local Abbreviation item_of := (Item_at (nodes m)).

(** The test of [skipUnwanted] is the negation of visibility. *)
Lemma unwanted_not_visible (x : Item) :
  ((sn snapshot_of <? bornSn x)%N
   || ((0 <? deadSn x)%N && (deadSn x <=? sn snapshot_of)%N))
  = negb (visible snapshot_of x).
Proof.
  unfold visible.
  destruct (N.ltb_spec (sn snapshot_of) (bornSn x));
    destruct (N.leb_spec (bornSn x) (sn snapshot_of)); try lia; simpl; trivial.
  destruct (N.ltb_spec 0 (deadSn x));
    destruct (N.eqb_spec (deadSn x) 0); try lia; simpl; trivial.
  destruct (N.leb_spec (deadSn x) (sn snapshot_of));
    destruct (N.ltb_spec (sn snapshot_of) (deadSn x)); try lia; trivial.
Qed.

Lemma visible_iff (x : Item) :
  visible snapshot_of x = true <->
  (bornSn x <= sn snapshot_of)%N /\
  (deadSn x = 0%N \/ (sn snapshot_of < deadSn x)%N).
Proof.
  unfold visible.
  rewrite andb_true_iff, orb_true_iff, N.leb_le, N.eqb_eq, N.ltb_lt.
  tauto.
Qed.

Lemma skip_loop_filter (c : list ptr) :
  List.filter (visible snapshot_of) (map item_of (skipUnwanted_loop m s c))
  = List.filter (visible snapshot_of) (map item_of c).
Proof.
  induction c as [|n c IH]; simpl; trivial.
  rewrite unwanted_not_visible.
  destruct (visible snapshot_of (item_of n)) eqn:Hv; simpl.
  - rewrite Hv. trivial.
  - exact IH.
Qed.

Lemma skip_loop_head (c : list ptr) :
  match skipUnwanted_loop m s c with
  | [] => True
  | n :: _ => visible snapshot_of (item_of n) = true
  end.
Proof.
  induction c as [|n c IH]; simpl; trivial.
  rewrite unwanted_not_visible.
  destruct (visible snapshot_of (item_of n)) eqn:Hv; simpl; trivial.
Qed.

Lemma skip_loop_length (c : list ptr) :
  length (skipUnwanted_loop m s c) <= length c.
Proof.
  induction c as [|n c IH]; simpl; trivial.
  destruct (_ || _); simpl; lia.
Qed.

(** The entries [skipUnwanted] passes are exactly the invisible ones in
    front of the first visible one. *)
Lemma skip_loop_split (c : list ptr) :
  exists skipped,
    c = skipped ++ skipUnwanted_loop m s c /\
    Forall (fun n => visible snapshot_of (item_of n) = false) skipped.
Proof.
  induction c as [|n c [sk [Heq Hall]]]; simpl.
  - exists []. split; [reflexivity | constructor].
  - rewrite unwanted_not_visible.
    destruct (visible snapshot_of (item_of n)) eqn:Hv; simpl.
    + exists []. split; [reflexivity | constructor].
    + exists (n :: sk). split.
      * simpl. f_equal. exact Heq.
      * constructor; assumption.
Qed.

(** An iterator standing on a visible entry, or at the end, yields the
    visible entries of its chain, in order, and then stops. *)
Lemma scan_chain (fuel : nat) (c : list ptr) :
  length c < fuel ->
  match c with
  | [] => True
  | n :: _ => visible snapshot_of (item_of n) = true
  end ->
  scan fuel m (mkIterator s c)
  = Some (List.filter (visible snapshot_of) (map item_of c)).
Proof.
  revert c. induction fuel as [|fuel IH]; intros c Hlen Hhead; [lia|].
  destruct c as [|n c]; simpl; trivial.
  unfold Iterator_Get, Iterator_Next, skipUnwanted; simpl.
  rewrite IH.
  - rewrite Hhead. rewrite skip_loop_filter. reflexivity.
  - pose proof (skip_loop_length c). simpl in Hlen. lia.
  - apply skip_loop_head.
Qed.

Lemma scan_skipped (fuel : nat) (c : list ptr) :
  length c < fuel ->
  scan fuel m (skipUnwanted m (mkIterator s c))
  = Some (List.filter (visible snapshot_of) (map item_of c)).
Proof.
  intros Hlen. unfold skipUnwanted; simpl.
  rewrite scan_chain.
  - rewrite skip_loop_filter. reflexivity.
  - pose proof (skip_loop_length c). lia.
  - apply skip_loop_head.
Qed.

End Iteration.

Lemma seek_length {A K : Type} (get : A -> K) (cmp : CompareFn K) (x : K)
    (l : list A) :
  length (skiplist.seek get cmp x l) <= length l.
Proof.
  induction l as [|e l IH]; simpl; trivial.
  destruct (_ <? _)%Z; simpl; lia.
Qed.

(** C1. Iteration over a snapshot [S], started by [SeekFirst] or [Seek] and
    continued by [Next], yields exactly the entries of the index (from the
    position sought) that are visible to [S], in index order: an entry is
    yielded if and only if [bornSn <= S.sn] and [deadSn = 0] or
    [deadSn > S.sn]; what [skipUnwanted] passes is invisible, and it stops
    at the first visible entry. *)
Theorem iterator_yields_exactly_visible (keyCmp : KeyCompare) (m : MemDB)
    (it : Iterator) (probe : Item) :
  let view := Snapshot_at (snaps m) (snap it) in
  let item := Item_at (nodes m) in
  let sought := skiplist.seek item (iterCmp keyCmp) probe (store m) in
  let fuel := S (length (store m)) in
  scan fuel m (Iterator_SeekFirst m it)
    = Some (List.filter (visible view) (items m))
  /\ scan fuel m (Iterator_Seek keyCmp m probe it)
    = Some (List.filter (visible view) (map item sought))
  /\ scan (S (length (iter it))) m (Iterator_Next m it)
    = Some (List.filter (visible view) (map item (tl (iter it))))
  /\ (forall x yielded,
        scan fuel m (Iterator_SeekFirst m it) = Some yielded ->
        (In x yielded <->
         In x (items m) /\
         (bornSn x <= sn view)%N /\ (deadSn x = 0%N \/ (sn view < deadSn x)%N)))
  /\ (forall c, exists skipped,
        c = skipped ++ iter (skipUnwanted m (mkIterator (snap it) c)) /\
        Forall (fun n => visible view (item n) = false) skipped /\
        match iter (skipUnwanted m (mkIterator (snap it) c)) with
        | [] => True
        | n :: _ => visible view (item n) = true
        end).
Proof.
  intros view item sought fuel.
  assert (Hfirst : scan fuel m (Iterator_SeekFirst m it)
                   = Some (List.filter (visible view) (items m))).
  { unfold Iterator_SeekFirst, skiplist.SeekFirst, fuel.
    rewrite scan_skipped by lia. reflexivity. }
  split; [exact Hfirst|].
  split.
  { unfold Iterator_Seek, skiplist.Seek, fuel; cbn [fst].
    rewrite scan_skipped.
    - reflexivity.
    - pose proof (seek_length (Item_at (nodes m)) (iterCmp keyCmp) probe (store m)).
      lia. }
  split.
  { unfold Iterator_Next, skiplist.Next.
    rewrite scan_skipped.
    - reflexivity.
    - destruct (iter it); simpl; lia. }
  split.
  { intros x yielded Hy. rewrite Hfirst in Hy. injection Hy as <-.
    rewrite filter_In. unfold view. rewrite (visible_iff m (snap it) x).
    reflexivity. }
  intros c. destruct (skip_loop_split m (snap it) c) as [sk [Heq Hall]].
  exists sk. simpl. split; [exact Heq|]. split; [exact Hall|].
  apply skip_loop_head.
Qed.

(** ** Lookup by a writer (C2) *)

Section Lookup.

Variable keyCmp : KeyCompare.
Variable m : MemDB.

Local Abbreviation item := (Item_at (nodes m)).

Lemma last_cons_default {A : Type} (a d d' : A) (l : list A) :
  List.last (a :: l) d = List.last (a :: l) d'.
Proof.
  revert a. induction l as [|b l IH]; intros a; simpl; trivial.
  apply (IH b).
Qed.

Lemma GetNode_loop_last (curr : ptr) (l : list ptr) :
  GetNode_loop keyCmp (nodes m) curr l
  = List.last (curr :: equal_run keyCmp m curr l) curr.
Proof.
  revert curr. induction l as [|next l IH]; intros curr; simpl; trivial.
  destruct (iterCmp keyCmp (item next) (item curr) =? 0)%Z eqn:E; simpl; trivial.
  rewrite IH.
  change (List.last (curr :: next :: equal_run keyCmp m next l) curr)
    with (List.last (next :: equal_run keyCmp m next l) curr).
  apply last_cons_default.
Qed.

Lemma GetNode_refines (x : Item) : GetNode keyCmp x m = GetNode_spec keyCmp m x.
Proof.
  unfold GetNode, GetNode_spec, skiplist.Seek, skiplist.GetNode, skiplist.Next.
  destruct (skiplist.seek item (iterCmp keyCmp) x (store m)) as [|first rest];
    simpl; trivial.
  destruct (iterCmp keyCmp (item first) x =? 0)%Z; simpl; trivial.
  rewrite GetNode_loop_last.
  destruct (deadSn _ =? 0)%N; reflexivity.
Qed.

(** What [seek] passes lies below the probe, and it stops on an entry that
    does not. *)
Lemma seek_split (cmp : CompareFn Item) (x : Item) (l : list ptr) :
  l = skiplist.preds item cmp x l ++ skiplist.seek item cmp x l
  /\ Forall (fun e => (cmp (item e) x < 0)%Z) (skiplist.preds item cmp x l)
  /\ match skiplist.seek item cmp x l with
     | [] => True
     | e :: _ => (cmp (item e) x >= 0)%Z
     end.
Proof.
  induction l as [|e l (Heq & Hall & Hhd)]; simpl.
  - repeat split. constructor.
  - destruct (Z.ltb_spec (cmp (item e) x) 0); simpl.
    + repeat split; [f_equal; exact Heq | constructor; assumption | exact Hhd].
    + repeat split; [constructor | lia].
Qed.

(** The run is cut at the first entry whose key differs from the key of the
    entry before it, or at the end of the chain. *)
Lemma equal_run_split (curr : ptr) (l : list ptr) :
  linked keyCmp m curr (equal_run keyCmp m curr l)
  /\ exists post,
       l = equal_run keyCmp m curr l ++ post
       /\ match post with
          | [] => True
          | e :: _ =>
              iterCmp keyCmp (item e)
                (item (List.last (curr :: equal_run keyCmp m curr l) curr)) <> 0%Z
          end.
Proof.
  revert curr. induction l as [|next l IH]; intros curr; simpl.
  - split; trivial. exists []. split; trivial.
  - destruct (Z.eqb_spec (iterCmp keyCmp (item next) (item curr)) 0) as [E|E].
    + destruct (IH next) as [Hl [post [Heq Hpost]]].
      split; [split; assumption|].
      exists post. split; [simpl; f_equal; exact Heq|].
      destruct post as [|e post]; trivial.
      rewrite (last_cons_default next curr next). exact Hpost.
    + split; [exact I|]. exists (next :: l). split; trivial.
Qed.

Section Versions.

(** Keys that compare equal do so in either order. *)
Hypothesis keyCmp_sym :
  forall a b : list byte, keyCmp a b = 0%Z -> keyCmp b a = 0%Z.

(** In an ordered chain the run of a key ascends in [bornSn]. *)
Lemma equal_run_ascends (curr : ptr) (l : list ptr) :
  ordered (insCmp keyCmp) (map item (curr :: l)) = true ->
  forallb stamps_fit (map item (curr :: l)) = true ->
  forall e, In e (curr :: equal_run keyCmp m curr l) ->
    (bornSn (item e)
     <= bornSn (item (List.last (curr :: equal_run keyCmp m curr l) curr)))%N.
Proof.
  revert curr. induction l as [|next l IH]; intros curr Hord Hfit e He.
  - simpl in *. destruct He as [<-|[]]. lia.
  - simpl equal_run in *.
    destruct (Z.eqb_spec (iterCmp keyCmp (item next) (item curr)) 0) as [E|E].
    + assert (Hstep : (bornSn (item curr) <= bornSn (item next))%N).
      { simpl in Hord. apply andb_true_iff in Hord as [Hc _].
        simpl in Hfit.
        apply andb_true_iff in Hfit as [Hf1 Hfit].
        apply andb_true_iff in Hfit as [Hf2 _].
        unfold stamps_fit in Hf1, Hf2.
        apply andb_true_iff in Hf1 as [Hf1 _].
        apply andb_true_iff in Hf2 as [Hf2 _].
        apply N.leb_le in Hf1, Hf2.
        unfold insCmp, newInsertCompare in Hc.
        unfold iterCmp, newIterCompare in E.
        rewrite (keyCmp_sym _ _ E) in Hc. simpl in Hc.
        rewrite !int_u32 in Hc by assumption.
        unfold Int.MaxUint32 in Hf1, Hf2.
        rewrite i64_small in Hc by lia.
        apply Z.leb_le in Hc. lia. }
      assert (Hord' : ordered (insCmp keyCmp) (map item (next :: l)) = true).
      { simpl in Hord. apply andb_true_iff in Hord as [_ Ho]. exact Ho. }
      assert (Hfit' : forallb stamps_fit (map item (next :: l)) = true).
      { simpl in Hfit. apply andb_true_iff in Hfit as [_ Hf]. exact Hf. }
      specialize (IH next Hord' Hfit').
      replace (List.last (curr :: next :: equal_run keyCmp m next l) curr)
        with (List.last (next :: equal_run keyCmp m next l) next)
        by (simpl; apply last_cons_default).
      destruct He as [<-|He].
      * specialize (IH next (or_introl eq_refl)). lia.
      * apply IH, He.
    + destruct He as [<-|[]]. simpl. lia.
Qed.

End Versions.
End Lookup.

Section AllVersions.

Variable keyCmp : KeyCompare.
Hypothesis Hkey : KeyOrder keyCmp.
Variable m : MemDB.

Local Abbreviation item := (Item_at (nodes m)).

(** In an ordered chain every entry is not above the ones behind it. *)
Lemma ordered_pairwise (a : ptr) (l : list ptr) :
  ordered (insCmp keyCmp) (map item (a :: l)) = true ->
  forallb stamps_fit (map item (a :: l)) = true ->
  forall e, In e l -> (insCmp keyCmp (item a) (item e) <= 0)%Z.
Proof.
  revert a. induction l as [|b l IH]; intros a Hord Hfit e He; [destruct He|].
  assert (Fall : forall p, In p (a :: b :: l) -> stamps_fit (item p) = true).
  { intros p Hp. rewrite forallb_forall in Hfit. apply Hfit.
    apply in_map. exact Hp. }
  cbn [map] in Hord, Hfit.
  apply ordered_cons in Hord as [Hord Hab].
  cbn [forallb] in Hfit. apply andb_true_iff in Hfit as [_ Fl].
  destruct He as [<-|He]; [exact Hab|].
  apply (insCmp_trans keyCmp Hkey (item a) (item b) (item e));
    [apply Fall; simpl; auto ..| exact Hab |].
  apply (IH b); trivial.
Qed.

Lemma insCmp_le_key (a b : Item) :
  stamps_fit a = true -> stamps_fit b = true ->
  (insCmp keyCmp a b <= 0)%Z -> (keyCmp (Bytes a) (Bytes b) <= 0)%Z.
Proof.
  intros Fa Fb. rewrite (insCmp_fit keyCmp a b Fa Fb).
  destruct (Z.eqb_spec (keyCmp (Bytes a) (Bytes b)) 0); lia.
Qed.

(** In an ordered chain the run that starts at the first entry of a key
    holds every entry of that key. *)
Lemma equal_run_complete (x : Item) (first : ptr) (rest : list ptr) :
  ordered (insCmp keyCmp) (map item (first :: rest)) = true ->
  forallb stamps_fit (map item (first :: rest)) = true ->
  iterCmp keyCmp (item first) x = 0%Z ->
  forall e, In e rest -> iterCmp keyCmp (item e) x = 0%Z ->
    In e (equal_run keyCmp m first rest).
Proof.
  revert first. induction rest as [|next rest IH];
    intros first Hord Hfit Hfx e He Hex; [destruct He|].
  pose proof (ordered_pairwise first (next :: rest) Hord Hfit) as Hpair.
  assert (Fall : forall p, In p (first :: next :: rest) ->
            stamps_fit (item p) = true).
  { intros p Hp. rewrite forallb_forall in Hfit. apply Hfit.
    apply in_map. exact Hp. }
  cbn [map] in Hord, Hfit. apply ordered_cons in Hord as [Hord _].
  cbn [forallb] in Hfit. apply andb_true_iff in Hfit as [_ Hfit].
  unfold iterCmp, newIterCompare in *.
  cbn [equal_run]. unfold iterCmp, newIterCompare.
  destruct (Z.eqb_spec (keyCmp (Bytes (item next)) (Bytes (item first))) 0)
    as [E|E].
  - destruct He as [<-|He]; [left; reflexivity|]. right.
    apply IH; trivial.
    eapply key_trans0; eauto.
  - exfalso.
    assert (Hef : keyCmp (Bytes (item e)) (Bytes (item first)) = 0%Z).
    { eapply key_trans0; [exact Hkey | exact Hex |].
      apply key_sym0; trivial. }
    destruct He as [<-|He]; [contradiction|].
    (* first <= next <= e, and e has the key of first *)
    assert (H1 : (keyCmp (Bytes (item first)) (Bytes (item next)) <= 0)%Z).
    { apply insCmp_le_key; [apply Fall; simpl; auto ..|].
      apply Hpair. left. reflexivity. }
    assert (H2 : (keyCmp (Bytes (item next)) (Bytes (item e)) <= 0)%Z).
    { apply insCmp_le_key;
        [apply Fall; simpl; auto | apply Fall; simpl; auto |].
      apply (ordered_pairwise next rest); trivial. }
    assert (H3 : (keyCmp (Bytes (item next)) (Bytes (item first)) <= 0)%Z).
    { apply (key_trans keyCmp Hkey _ (Bytes (item e))); [exact H2 | lia]. }
    pose proof (key_antisym keyCmp Hkey (Bytes (item first)) (Bytes (item next)))
      as Ha.
    destruct (keyCmp (Bytes (item first)) (Bytes (item next))),
             (keyCmp (Bytes (item next)) (Bytes (item first)));
      simpl in Ha; try lia; try discriminate; try (apply E; reflexivity).
Qed.

End AllVersions.

(** C2. [GetNode] seeks the first entry whose key is not below the probe's.
    When that entry has the probe's key, the walk goes on exactly while the
    next entry has the key of the current one and stops at the first that
    has not (or at the end of the index); the entry it stands on then is the
    last of the run and no entry of the run has a larger [bornSn]; for a key
    comparator that orders the keys the run holds every entry of the index
    with the probe's key, so that entry is the newest version of the key.  It
    is returned if its [deadSn] is 0; none is returned if it is not 0,
    or if the entry sought does not have the probe's key, in particular when
    no entry of the index has it. *)
Theorem GetNode_returns_live_last_of_run (keyCmp : KeyCompare) (m : MemDB)
    (x : Item)
    (keyCmp_sym : forall a b : list byte, keyCmp a b = 0%Z -> keyCmp b a = 0%Z)
    (Hord : ordered (insCmp keyCmp) (items m) = true)
    (Hfit : forallb stamps_fit (items m) = true) :
  let item := Item_at (nodes m) in
  let passed := skiplist.preds item (iterCmp keyCmp) x (store m) in
  let sought := skiplist.seek item (iterCmp keyCmp) x (store m) in
  store m = passed ++ sought
  /\ Forall (fun e => (iterCmp keyCmp (item e) x < 0)%Z) passed
  /\ match sought with
     | [] => GetNode keyCmp x m = None
     | first :: rest =>
         (iterCmp keyCmp (item first) x >= 0)%Z /\
         if (iterCmp keyCmp (item first) x =? 0)%Z then
           let run := equal_run keyCmp m first rest in
           let n := List.last (first :: run) first in
           linked keyCmp m first run
           /\ (exists post,
                 rest = run ++ post /\
                 match post with
                 | [] => True
                 | e :: _ => iterCmp keyCmp (item e) (item n) <> 0%Z
                 end)
           /\ (forall e, In e (first :: run) ->
                 (bornSn (item e) <= bornSn (item n))%N)
           /\ (KeyOrder keyCmp ->
               forall e, In e (store m) ->
                 iterCmp keyCmp (item e) x = 0%Z -> In e (first :: run))
           /\ GetNode keyCmp x m
              = (if (deadSn (item n) =? 0)%N then Some n else None)
         else GetNode keyCmp x m = None
     end
  /\ ((forall e, In e (store m) -> iterCmp keyCmp (item e) x <> 0%Z) ->
      GetNode keyCmp x m = None)
  /\ Get keyCmp x m = item <$> GetNode keyCmp x m.
Proof.
  intros item passed sought.
  destruct (seek_split m (iterCmp keyCmp) x (store m)) as (Heq & Hall & Hhd).
  fold item passed sought in Heq, Hall, Hhd.
  assert (Hspec := GetNode_refines keyCmp m x).
  unfold GetNode_spec in Hspec. fold item sought in Hspec.
  split; [exact Heq|]. split; [exact Hall|]. split; [|split].
  - destruct sought as [|first rest] eqn:Es; [exact Hspec|].
    split; [exact Hhd|].
    destruct (Z.eqb_spec (iterCmp keyCmp (item first) x) 0) as [E|E];
      [|exact Hspec].
    destruct (equal_run_split keyCmp m first rest) as [Hlinked Hpost].
    assert (Hord' : ordered (insCmp keyCmp) (map item (first :: rest)) = true).
    { apply (ordered_app_r _ (map item passed)).
      rewrite <- map_app, <- Heq. exact Hord. }
    assert (Hfit' : forallb stamps_fit (map item (first :: rest)) = true).
    { apply (forallb_app_r _ (map item passed)).
      rewrite <- map_app, <- Heq. exact Hfit. }
    split; [exact Hlinked|]. split; [exact Hpost|].
    split; [apply equal_run_ascends; trivial|].
    split; [|exact Hspec].
    intros Hkey e He Hex. rewrite Heq in He.
    apply in_app_or in He as [He|[<-|He]].
    + exfalso. rewrite List.Forall_forall in Hall.
      specialize (Hall e He). lia.
    + left. reflexivity.
    + right. apply (equal_run_complete keyCmp Hkey m x); trivial.
  - intros Hnone. rewrite Hspec.
    destruct sought as [|first rest] eqn:Es; trivial.
    destruct (Z.eqb_spec (iterCmp keyCmp (item first) x) 0) as [E|E]; trivial.
    exfalso. apply (Hnone first); trivial.
    rewrite Heq. apply in_or_app. right. left. reflexivity.
  - unfold Get. destruct (GetNode keyCmp x m); reflexivity.
Qed.

(** On the index with two versions of the first key, the lookup of that key
    returns the second node, the live one. *)
Lemma GetNode_returns_live_last_of_run_witness :
  ordered (insCmp defaultKeyCmp) (items two_versions) = true
  /\ forallb stamps_fit (items two_versions) = true
  /\ store two_versions = [0; 1; 2]
  /\ GetNode defaultKeyCmp key_a two_versions = Some 1.
Proof.
  split; [reflexivity|]. split; [reflexivity|]. split; [reflexivity|].
  pose proof (GetNode_returns_live_last_of_run defaultKeyCmp two_versions
                key_a defaultKeyCmp_sym eq_refl eq_refl) as H.
  cbv zeta in H. destruct H as (_ & _ & H & _).
  assert (Hs : skiplist.seek (Item_at (nodes two_versions))
                 (iterCmp defaultKeyCmp) key_a (store two_versions)
               = [0; 1; 2]) by reflexivity.
  rewrite Hs in H. destruct H as [_ H].
  assert (Hk : Z.eqb (iterCmp defaultKeyCmp (Item_at (nodes two_versions) 0)
                        key_a) 0 = true) by reflexivity.
  rewrite Hk in H. destruct H as (_ & _ & _ & _ & H).
  rewrite H. reflexivity.
Defined.

(** ** The heap of nodes *)

Lemma Item_at_set_GClink (h : list Node) (t : ptr) (l : option ptr) (e : ptr) :
  Item_at (set_GClink h t l) e = Item_at h e.
Proof.
  unfold set_GClink, Item_at.
  destruct (h !! t) as [nd|] eqn:Et; trivial.
  destruct (decide (t = e)) as [->|Hne].
  - rewrite list_lookup_insert_eq by (eapply lookup_lt_Some; eauto).
    rewrite Et. reflexivity.
  - rewrite list_lookup_insert_ne by assumption. reflexivity.
Qed.

Lemma length_set_GClink (h : list Node) (t : ptr) (l : option ptr) :
  length (set_GClink h t l) = length h.
Proof.
  unfold set_GClink. destruct (h !! t); trivial. apply length_insert.
Qed.

Lemma Item_at_set_Item (h : list Node) (n : ptr) (x : Item) (e : ptr) :
  n < length h ->
  Item_at (set_Item h n x) e = if decide (e = n) then x else Item_at h e.
Proof.
  intros Hn. unfold set_Item, Item_at.
  destruct (lookup_lt_is_Some_2 h n Hn) as [nd End]. rewrite End.
  destruct (decide (e = n)) as [->|Hne].
  - rewrite list_lookup_insert_eq by assumption. reflexivity.
  - rewrite list_lookup_insert_ne by congruence. reflexivity.
Qed.

Lemma length_set_Item (h : list Node) (n : ptr) (x : Item) :
  length (set_Item h n x) = length h.
Proof.
  unfold set_Item. destruct (h !! n); trivial. apply length_insert.
Qed.

Lemma Item_at_retire (w x : ptr) (m : MemDB) (e : ptr) :
  Item_at (nodes (retire w x m)) e = Item_at (nodes m) e.
Proof.
  unfold retire. destruct (gctail (Writer_at (writers m) w)); simpl; trivial.
  apply Item_at_set_GClink.
Qed.

Lemma length_nodes_retire (w x : ptr) (m : MemDB) :
  length (nodes (retire w x m)) = length (nodes m).
Proof.
  unfold retire. destruct (gctail (Writer_at (writers m) w)); simpl; trivial.
  apply length_set_GClink.
Qed.

Lemma Item_at_alloc (h : list Node) (x : Item) (e : ptr) :
  Item_at (h ++ [mkNode x None]) e
  = if decide (e = length h) then x
    else if decide (e < length h) then Item_at h e else nilItem.
Proof.
  unfold Item_at.
  destruct (decide (e = length h)) as [->|Hne].
  - rewrite list_lookup_middle by reflexivity. reflexivity.
  - destruct (decide (e < length h)) as [Hlt|Hge].
    + rewrite lookup_app_l by assumption. reflexivity.
    + rewrite lookup_ge_None_2; trivial. rewrite length_app. simpl. lia.
Qed.

Lemma find_none_intro {A : Type} (f : A -> bool) (l : list A) :
  (forall e, In e l -> f e = false) -> List.find f l = None.
Proof.
  induction l as [|a l IH]; simpl; trivial.
  intros H. rewrite (H a) by (left; reflexivity).
  apply IH. intros e He. apply H. right. exact He.
Qed.

Lemma in_seek {A K : Type} (get : A -> K) (cmp : CompareFn K) (x : K)
    (l : list A) (e : A) :
  In e (skiplist.seek get cmp x l) -> In e l.
Proof.
  induction l as [|a l IH]; simpl; trivial.
  destruct (_ <? _)%Z; simpl; auto.
Qed.

Lemma preds_seek {A K : Type} (get : A -> K) (cmp : CompareFn K) (x : K)
    (l : list A) :
  skiplist.preds get cmp x l ++ skiplist.seek get cmp x l = l.
Proof.
  induction l as [|a l IH]; simpl; trivial.
  destruct (_ <? _)%Z; simpl; [f_equal; exact IH | reflexivity].
Qed.

(** ** The count of live items (C3) *)

Lemma i64_in_i64 (z : Z) : in_i64 (Int.i64 z).
Proof.
  unfold in_i64, Int.i64.
  pose proof (Z.mod_pos_bound (z + 9223372036854775808) 18446744073709551616).
  lia.
Qed.

Lemma retire_count (w x : ptr) (m : MemDB) : count (retire w x m) = count m.
Proof.
  unfold retire. destruct (gctail (Writer_at (writers m) w)); reflexivity.
Qed.

Lemma retire_store (w x : ptr) (m : MemDB) : store (retire w x m) = store m.
Proof.
  unfold retire. destruct (gctail (Writer_at (writers m) w)); reflexivity.
Qed.

Lemma retire_currSn (w x : ptr) (m : MemDB) : currSn (retire w x m) = currSn m.
Proof.
  unfold retire. destruct (gctail (Writer_at (writers m) w)); reflexivity.
Qed.

(** What the two successful ways out of [DeleteNode] did: the tombstone is
    the change of [deadSn] from 0 to the current sequence on a node born in
    an earlier one, and leaves the index as it is; the removal unlinks a
    node of the index born in the current sequence. *)
Lemma DeleteNode'_how (w x : ptr) (m : MemDB) :
  let m' := fst (fst (DeleteNode' w x m)) in
  match snd (DeleteNode' w x m) with
  | Tombstoned =>
      deadSn (Item_at (nodes m) x) = 0%N
      /\ bornSn (Item_at (nodes m) x) <> getCurrSn m
      /\ Item_at (nodes m') x = set_deadSn (Item_at (nodes m) x) (getCurrSn m)
      /\ store m' = store m
  | Removed =>
      bornSn (Item_at (nodes m) x) = getCurrSn m
      /\ In x (store m)
      /\ store m' = skiplist.unlink x (store m)
      /\ nodes m' = nodes m
  | NotDeleted => m' = m
  end.
Proof.
  unfold DeleteNode'.
  destruct (nodes m !! x) as [nd|] eqn:End; [|reflexivity].
  assert (Hlt : x < length (nodes m)) by (eapply lookup_lt_Some; eauto).
  assert (Hx : Item_at (nodes m) x = itm nd) by (unfold Item_at; rewrite End; reflexivity).
  rewrite Hx.
  destruct (N.eqb_spec (bornSn (itm nd)) (getCurrSn m)) as [B|B].
  - unfold skiplist.DeleteNode.
    destruct (decide (x ∈ store m)) as [Hin|Hin];
      lazy beta iota zeta delta [fst snd];
      [|clear; destruct m; reflexivity].
    repeat split; trivial. apply list_elem_of_In, Hin.
  - destruct (N.eqb_spec (deadSn (itm nd)) 0) as [D|D];
      lazy beta iota zeta delta [fst snd]; [|reflexivity].
    cbn [nodes store set_count]. rewrite retire_store, Item_at_retire.
    cbn [nodes store set_nodes].
    rewrite Item_at_set_Item by exact Hlt.
    destruct (decide (x = x)); [|contradiction].
    repeat split; trivial.
Qed.

(** [DeleteNode] takes one from the counter exactly when it succeeds, on
    either of its two paths. *)
Lemma DeleteNode'_count (w x : ptr) (m : MemDB) :
  count (fst (fst (DeleteNode' w x m)))
  = (match snd (DeleteNode' w x m) with
     | NotDeleted => count m
     | _ => Int.i64 (count m + -1)
     end)
  /\ (snd (fst (DeleteNode' w x m)) = true
      <-> snd (DeleteNode' w x m) <> NotDeleted).
Proof.
  unfold DeleteNode'.
  destruct (nodes m !! x) as [nd|]; simpl; [|split; [reflexivity|]].
  - destruct (bornSn (itm nd) =? getCurrSn m)%N.
    + destruct (skiplist.DeleteNode x (store m)) as [chain [|]]; simpl;
        (split; [reflexivity|]); split; congruence.
    + destruct (deadSn (itm nd) =? 0)%N; simpl.
      * rewrite retire_count. simpl. split; [reflexivity|]. split; congruence.
      * split; [reflexivity|]. split; congruence.
  - split; congruence.
Qed.

Lemma NewSnapshot_count (m : MemDB) : count (fst (NewSnapshot m)) = count m.
Proof.
  unfold NewSnapshot. simpl.
  destruct (_ =? _)%N; simpl; trivial.
  destruct (stitch _ _ _ _ _) as [[[hd tl] hn] hw]. reflexivity.
Qed.

Lemma Open_frame (s : ptr) (m : MemDB) :
  nodes (fst (Open s m)) = nodes m /\ store (fst (Open s m)) = store m
  /\ currSn (fst (Open s m)) = currSn m /\ count (fst (Open s m)) = count m
  /\ snapshots (fst (Open s m)) = snapshots m.
Proof.
  unfold Open. destruct (_ =? _)%Z; repeat split.
Qed.

Lemma Close_frame (s : ptr) (m : MemDB) :
  nodes (Close s m) = nodes m /\ store (Close s m) = store m
  /\ currSn (Close s m) = currSn m /\ count (Close s m) = count m.
Proof.
  unfold Close, setLeastUnrefSn.
  destruct (_ =? 0)%Z; [|repeat split].
  cbn [snaps snapshots set_snaps set_snapshots set_gcsnapshots].
  destruct (skiplist.Get _ _); simpl; destruct (_ =? 0)%Z; repeat split.
Qed.

Lemma collectDead_loop_frame (it : list ptr) (m : MemDB) :
  let m' := collectDead_loop it m in
  nodes m' = nodes m /\ store m' = store m /\ currSn m' = currSn m
  /\ count m' = count m /\ snaps m' = snaps m /\ snapshots m' = snapshots m.
Proof.
  revert m. induction it as [|d it IH]; intros m; simpl; [repeat split|].
  destruct (_ <? _)%N; [repeat split|].
  match goal with |- context [collectDead_loop it ?a] =>
    destruct (IH a) as (H1 & H2 & H3 & H4 & H5 & H6) end.
  rewrite H1, H2, H3, H4, H5, H6. repeat split.
Qed.

Lemma GC_frame (m : MemDB) :
  nodes (GC m) = nodes m /\ store (GC m) = store m /\ currSn (GC m) = currSn m
  /\ count (GC m) = count m /\ snaps (GC m) = snaps m
  /\ snapshots (GC m) = snapshots m.
Proof.
  unfold GC, collectDead.
  destruct (_ && _).
  - pose proof (collectDead_loop_frame
                  (skiplist.SeekFirst (gcsnapshots (set_lastGCSn m (getLeastUnrefSn m))))
                  (set_lastGCSn m (getLeastUnrefSn m))) as H.
    cbv zeta in H. destruct H as (H1 & H2 & H3 & H4 & H5 & H6).
    simpl in H1, H2, H3, H4, H5, H6.
    destruct (_ =? 1)%Z; simpl; rewrite ?H1, ?H2, ?H3, ?H4, ?H5, ?H6;
      repeat split.
  - destruct (_ =? 1)%Z; repeat split.
Qed.

Section Counting.

Variable keyCmp : KeyCompare.

Lemma step_count (o : Op) (m : MemDB) :
  count (fst (step keyCmp o m))
  = (if (delta (snd (step keyCmp o m)) =? 0)%Z then count m
     else Int.i64 (count m + delta (snd (step keyCmp o m)))).
Proof.
  destruct o as [| |s|s| |x|w x|w n]; simpl.
  - reflexivity.
  - apply NewSnapshot_count.
  - apply Open_frame.
  - apply Close_frame.
  - apply GC_frame.
  - unfold Put2, store_Insert2.
    destruct (skiplist.Insert2 _ _ _ _ _) as [[chain r] [|]]; reflexivity.
  - unfold Delete2'. destruct (GetNode keyCmp x m) as [n|]; simpl; trivial.
    pose proof (DeleteNode'_count w n m) as [Hc _].
    destruct (DeleteNode' w n m) as [[m' ok] how]. simpl in *.
    rewrite Hc. destruct how; reflexivity.
  - pose proof (DeleteNode'_count w n m) as [Hc _].
    destruct (DeleteNode' w n m) as [[m' ok] how]. simpl in *.
    rewrite Hc. destruct how; reflexivity.
Qed.

Lemma run_count (ops : list Op) (m : MemDB) :
  in_i64 (count m) ->
  in_i64 (count (fst (run keyCmp ops m)))
  /\ count (fst (run keyCmp ops m))
     = Int.i64 (count m + total (snd (run keyCmp ops m))).
Proof.
  revert m. induction ops as [|o ops IH]; intros m Hm; simpl.
  - split; trivial. rewrite Z.add_0_r. symmetry. apply i64_small, Hm.
  - pose proof (step_count o m) as Hs.
    destruct (step keyCmp o m) as [m1 e]. simpl in Hs.
    assert (Hm1 : in_i64 (count m1)).
    { rewrite Hs. destruct (delta e =? 0)%Z; trivial. apply i64_in_i64. }
    destruct (IH m1 Hm1) as [Hr Hc].
    destruct (run keyCmp ops m1) as [m2 es]. simpl in *.
    split; trivial. rewrite Hc, Hs.
    destruct (Z.eqb_spec (delta e) 0) as [E|E].
    + rewrite E. f_equal; lia.
    + rewrite i64_i64_add. f_equal; lia.
Qed.

Lemma total_tally (es : list Event) :
  total es
  = (tally is_insert es - tally is_tombstone es - tally is_removal es)%Z.
Proof.
  unfold tally. induction es as [|e es IH]; simpl; trivial.
  rewrite IH. destruct e as [| |[| |]|]; simpl; lia.
Qed.

Lemma tally_bound (f : Event -> bool) (es : list Event) :
  (0 <= tally f es <= Z.of_nat (length es))%Z.
Proof.
  unfold tally. pose proof (filter_length_le f es). lia.
Qed.

Lemma tally_sum_bound (es : list Event) :
  (tally is_insert es + tally is_tombstone es + tally is_removal es
   <= Z.of_nat (length es))%Z.
Proof.
  unfold tally. induction es as [|e es IH]; simpl; [lia|].
  destruct e as [| |[| |]|]; simpl; lia.
Qed.

Lemma run_length (ops : list Op) (m : MemDB) :
  length (snd (run keyCmp ops m)) = length ops.
Proof.
  revert m. induction ops as [|o ops IH]; intros m; simpl; trivial.
  destruct (step keyCmp o m) as [m1 e]. specialize (IH m1).
  destruct (run keyCmp ops m1) as [m2 es]. simpl in *. lia.
Qed.

End Counting.

(** C3, as the code has it. After any history of calls on a new database
    ([Put], [Delete] and [DeleteNode], with new writers, snapshots taken,
    opened and closed and reclamation passes in between), [ItemsCount] is,
    in 64-bit arithmetic, the number of [Put] calls whose insert succeeded
    minus the number of [DeleteNode] calls that succeeded: those that
    tombstoned a node (the compare-and-swap of [deadSn] from 0 to the
    current sequence) and those that removed a node born in the current
    sequence from the index.  Each event goes with the result of its call:
    an insert counts when [Put2] reports success, a deletion when
    [DeleteNode] does, and the two kinds of deletion are told apart by what
    the call did to the node. *)
Theorem ItemsCount_is_inserts_minus_deletions (keyCmp : KeyCompare)
    (ops : list Op) :
  let m := fst (run keyCmp ops New) in
  let es := snd (run keyCmp ops New) in
  ItemsCount m
  = Int.i64 (tally is_insert es - tally is_tombstone es - tally is_removal es)
  /\ ((Z.of_nat (length ops) < 9223372036854775808)%Z ->
      ItemsCount m
      = (tally is_insert es - tally is_tombstone es - tally is_removal es)%Z)
  /\ (forall (x : Item) (m0 : MemDB),
        snd (step keyCmp (OpPut x) m0) = Inserted
        <-> snd (Put2 keyCmp x m0) = true)
  /\ (forall (w n : ptr) (m0 : MemDB),
        (snd (DeleteNode w n m0) = true
         <-> snd (DeleteNode' w n m0) <> NotDeleted)
        /\ let m1 := fst (DeleteNode w n m0) in
           match snd (DeleteNode' w n m0) with
           | Tombstoned =>
               deadSn (Item_at (nodes m0) n) = 0%N
               /\ bornSn (Item_at (nodes m0) n) <> getCurrSn m0
               /\ Item_at (nodes m1) n
                  = set_deadSn (Item_at (nodes m0) n) (getCurrSn m0)
               /\ store m1 = store m0
           | Removed =>
               bornSn (Item_at (nodes m0) n) = getCurrSn m0
               /\ In n (store m0)
               /\ store m1 = skiplist.unlink n (store m0)
               /\ nodes m1 = nodes m0
           | NotDeleted => m1 = m0
           end).
Proof.
  intros m es.
  assert (H0 : in_i64 (count New)) by (unfold in_i64; simpl; lia).
  destruct (run_count keyCmp ops New H0) as [_ Hc].
  fold m es in Hc. rewrite total_tally in Hc.
  change (count New) with 0%Z in Hc. rewrite Z.add_0_l in Hc.
  split; [exact Hc|]. split; [|split].
  - intros Hlen. unfold ItemsCount. rewrite Hc. apply i64_small.
    pose proof (tally_bound is_insert es).
    pose proof (tally_bound is_tombstone es).
    pose proof (tally_bound is_removal es).
    pose proof (tally_sum_bound es).
    assert (Hes : length es = length ops) by apply run_length.
    lia.
  - intros x m0. simpl.
    destruct (Put2 keyCmp x m0) as [[m1 r] [|]]; simpl; split; congruence.
  - intros w n m0. split; [apply DeleteNode'_count|].
    apply DeleteNode'_how.
Qed.

(** C3 as stated fails: a [Put] and the [Delete] of the same key in one
    sequence leave the counter at 0, with one successful insert and no
    tombstone. *)
Lemma ItemsCount_not_inserts_minus_tombstones :
  let h := run defaultKeyCmp [OpNewWriter; OpPut key_a; OpDelete 0 key_a] New in
  snd h = [Quiet; Inserted; Deleted Removed]
  /\ ItemsCount (fst h) = 0%Z
  /\ ItemsCount (fst h)
     <> (tally is_insert (snd h) - tally is_tombstone (snd h))%Z.
Proof.
  vm_compute. repeat split; discriminate.
Qed.

(** ** Insertion after a tombstone (C4) *)

Section OneKey.

Variable keyCmp : KeyCompare.

Hypothesis keyCmp_sym :
  forall a b : list byte, keyCmp a b = 0%Z -> keyCmp b a = 0%Z.
Hypothesis keyCmp_trans :
  forall a b c : list byte,
    keyCmp a b = 0%Z -> keyCmp b c = 0%Z -> keyCmp a c = 0%Z.

Lemma linked_last_key (m : MemDB) (x : Item) (curr : ptr) (run : list ptr) :
  linked keyCmp m curr run ->
  keyCmp (Bytes (Item_at (nodes m) curr)) (Bytes x) = 0%Z ->
  keyCmp (Bytes (Item_at (nodes m) (List.last (curr :: run) curr))) (Bytes x)
  = 0%Z.
Proof.
  revert curr. induction run as [|next run IH]; intros curr Hl Hk; trivial.
  destruct Hl as [Hn Hl].
  replace (List.last (curr :: next :: run) curr)
    with (List.last (next :: run) next)
    by (simpl; apply last_cons_default).
  apply IH; trivial.
  unfold iterCmp, newIterCompare in Hn. eapply keyCmp_trans; eauto.
Qed.

Lemma in_equal_run (m : MemDB) (curr : ptr) (l : list ptr) (e : ptr) :
  In e (equal_run keyCmp m curr l) -> In e l.
Proof.
  revert curr. induction l as [|next l IH]; intros curr; simpl; trivial.
  destruct (_ =? _)%Z; simpl; [|tauto].
  intros [->|H]; [left; reflexivity | right; eapply IH; eauto].
Qed.

Lemma last_in {A : Type} (a : A) (l : list A) : In (List.last (a :: l) a) (a :: l).
Proof.
  revert a. induction l as [|b l IH]; intros a.
  - left. reflexivity.
  - right. replace (List.last (a :: b :: l) a) with (List.last (b :: l) b)
      by (simpl; apply last_cons_default).
    apply IH.
Qed.

(** The node [GetNode] returns is linked, live and carries the probe's key. *)
Lemma GetNode_Some (m : MemDB) (x : Item) (n : ptr) :
  GetNode keyCmp x m = Some n ->
  In n (store m)
  /\ deadSn (Item_at (nodes m) n) = 0%N
  /\ keyCmp (Bytes (Item_at (nodes m) n)) (Bytes x) = 0%Z.
Proof.
  rewrite GetNode_refines. unfold GetNode_spec.
  destruct (skiplist.seek _ _ _ _) as [|first rest] eqn:Es; [discriminate|].
  destruct (Z.eqb_spec (iterCmp keyCmp (Item_at (nodes m) first) x) 0)
    as [E|E]; [|discriminate].
  destruct (N.eqb_spec
              (deadSn (Item_at (nodes m)
                 (List.last (first :: equal_run keyCmp m first rest) first))) 0)
    as [D|D]; [|discriminate].
  intros [= <-]. split; [|split; [exact D|]].
  - apply (in_seek (Item_at (nodes m)) (iterCmp keyCmp) x). rewrite Es.
    destruct (last_in first (equal_run keyCmp m first rest)) as [H|H].
    + left. exact H.
    + right. eapply in_equal_run. exact H.
  - apply linked_last_key; [apply equal_run_split | exact E].
Qed.

End OneKey.

(** What the tombstoning path of [Delete2] leaves behind. *)
Lemma Delete2'_Tombstoned (keyCmp : KeyCompare) (w : ptr) (x : Item)
    (m m1 : MemDB) (n : ptr) :
  Delete2' keyCmp w x m = (m1, Some n, true, Tombstoned) ->
  GetNode keyCmp x m = Some n
  /\ n < length (nodes m)
  /\ store m1 = store m
  /\ currSn m1 = currSn m
  /\ length (nodes m1) = length (nodes m)
  /\ forall e,
       Item_at (nodes m1) e
       = if decide (e = n) then set_deadSn (Item_at (nodes m) n) (currSn m)
         else Item_at (nodes m) e.
Proof.
  unfold Delete2'.
  destruct (GetNode keyCmp x m) as [n0|] eqn:Eg; [|discriminate].
  unfold DeleteNode'.
  destruct (nodes m !! n0) as [nd|] eqn:End; [|discriminate].
  assert (Hlt : n0 < length (nodes m)) by (eapply lookup_lt_Some; eauto).
  destruct (bornSn (itm nd) =? getCurrSn m)%N.
  { destruct (skiplist.DeleteNode n0 (store m)) as [chain [|]]; discriminate. }
  destruct (deadSn (itm nd) =? 0)%N; [|discriminate].
  intros [= <- <-].
  split; [reflexivity|]. split; [exact Hlt|].
  simpl. rewrite retire_store, retire_currSn, length_nodes_retire. simpl.
  rewrite length_set_Item.
  repeat split.
  intros e. rewrite Item_at_retire. simpl.
  rewrite Item_at_set_Item by exact Hlt.
  unfold Item_at at 2. rewrite End. reflexivity.
Qed.

(** C4. [existCmp] answers a non-zero result as soon as one of the two items
    is tombstoned, and the answer of [keyCmp] on the payloads when neither
    is.  So once [Delete] has tombstoned the live entry of a key, a [Put] of
    that key in the same sequence is not taken for a duplicate of the
    tombstoned node: [Put2] reports success, the new node is linked beside
    the tombstoned one with [bornSn] the current sequence, and the counter
    goes up by one. *)
Theorem existCmp_ignores_tombstones (keyCmp : KeyCompare) :
  (forall a b : Item,
     (deadSn a <> 0%N \/ deadSn b <> 0%N -> existCmp keyCmp a b <> 0%Z)
     /\ (deadSn a = 0%N -> deadSn b = 0%N ->
         existCmp keyCmp a b = keyCmp (Bytes a) (Bytes b)))
  /\ ((forall a b : list byte, keyCmp a b = 0%Z -> keyCmp b a = 0%Z) ->
      (forall a b c : list byte,
         keyCmp a b = 0%Z -> keyCmp b c = 0%Z -> keyCmp a c = 0%Z) ->
      forall (m m1 : MemDB) (w n : ptr) (x y : Item),
        linked_allocated m = true ->
        one_live_version keyCmp m = true ->
        currSn m <> 0%N ->
        keyCmp (Bytes y) (Bytes x) = 0%Z ->
        Delete2' keyCmp w x m = (m1, Some n, true, Tombstoned) ->
        let n' := length (nodes m1) in
        Delete keyCmp w x m = (m1, true)
        /\ In n (store m1)
        /\ deadSn (Item_at (nodes m1) n) = currSn m
        /\ getCurrSn m1 = getCurrSn m
        /\ exists m2,
             Put2 keyCmp y m1 = (m2, n', true)
             /\ In n' (store m2) /\ In n (store m2)
             /\ Item_at (nodes m2) n' = set_bornSn y (getCurrSn m)
             /\ ItemsCount m2 = Int.i64 (ItemsCount m1 + 1)).
Proof.
  split.
  { intros a b. unfold existCmp, newExistCompare. split.
    - intros H.
      destruct (N.eqb_spec (deadSn a) 0), (N.eqb_spec (deadSn b) 0); simpl;
        try discriminate.
      exfalso. destruct H; contradiction.
    - intros -> ->. reflexivity. }
  intros keyCmp_sym keyCmp_trans m m1 w n x y Halloc Hone Hsn Hkey Hdel n'.
  subst n'.
  destruct (Delete2'_Tombstoned keyCmp w x m m1 n Hdel)
    as (Hget & Hlt & Hstore & Hcur & Hlen & Hitems).
  destruct (GetNode_Some keyCmp keyCmp_trans m x n Hget) as (Hin & Hlive & Hnx).
  assert (Hdead : deadSn (Item_at (nodes m1) n) = currSn m).
  { rewrite Hitems. destruct (decide (n = n)); [reflexivity | contradiction]. }
  split.
  { unfold Delete, Delete2. rewrite Hdel. reflexivity. }
  split; [rewrite Hstore; exact Hin|].
  split; [exact Hdead|].
  split; [exact Hcur|].
  unfold Put2, store_Insert2, skiplist.Insert2.
  set (x' := set_bornSn y (getCurrSn m1)).
  set (heap := nodes m1 ++ [mkNode x' None]).
  assert (Hnew : Item_at heap (length (nodes m1)) = x').
  { unfold heap. rewrite Item_at_alloc.
    destruct (decide ((length (nodes m1)) = length (nodes m1))); [reflexivity | contradiction]. }
  assert (Hold : forall e, In e (store m1) -> Item_at heap e = Item_at (nodes m1) e).
  { intros e He. unfold heap. rewrite Item_at_alloc.
    rewrite Hstore in He.
    unfold linked_allocated in Halloc. rewrite forallb_forall in Halloc.
    specialize (Halloc e He). apply Nat.ltb_lt in Halloc.
    destruct (decide (e = length (nodes m1))); [lia|].
    destruct (decide (e < length (nodes m1))); [reflexivity | lia]. }
  rewrite find_none_intro.
  2:{ intros e He. apply Z.eqb_neq. rewrite Hnew, (Hold e He).
      unfold existCmp, newExistCompare.
      destruct (N.eqb_spec (deadSn x') 0) as [Dx|Dx]; simpl; [|discriminate].
      destruct (N.eqb_spec (deadSn (Item_at (nodes m1) e)) 0) as [De|De];
        simpl; [|discriminate].
      rewrite Hitems in De |- *.
      destruct (decide (e = n)) as [->|Hne].
      { exfalso. simpl in De. contradiction. }
      intros Hk. rewrite Hstore in He.
      unfold one_live_version in Hone. rewrite forallb_forall in Hone.
      specialize (Hone n Hin). rewrite forallb_forall in Hone.
      specialize (Hone e He). apply negb_true_iff in Hone.
      unfold live_clash in Hone.
      destruct (Nat.eqb_spec n e) as [->|_]; [contradiction|].
      apply N.eqb_eq in Hlive, De. rewrite Hlive, De in Hone. simpl in Hone.
      apply Z.eqb_neq in Hone. apply Hone.
      eapply keyCmp_trans; [exact Hnx|].
      eapply keyCmp_trans; [apply keyCmp_sym; exact Hkey|].
      exact Hk. }
  rewrite Hnew.
  eexists. split; [reflexivity|]. simpl.
  assert (Hchain : forall e, In e (store m1) ->
            In e (skiplist.preds (Item_at heap) (insCmp keyCmp) x' (store m1)
                  ++ (length (nodes m1)) :: skiplist.seek (Item_at heap) (insCmp keyCmp) x' (store m1))).
  { intros e He.
    rewrite <- (preds_seek (Item_at heap) (insCmp keyCmp) x' (store m1)) in He.
    apply in_app_or in He. apply in_or_app. destruct He; [left|right; right]; trivial. }
  split; [apply in_or_app; right; left; reflexivity|].
  split; [apply Hchain; rewrite Hstore; exact Hin|].
  split; [|reflexivity].
  rewrite Hnew. unfold x', getCurrSn. rewrite Hcur. reflexivity.
Qed.

(** [Put], [NewSnapshot], [Delete], [Put] of one key: the second [Put]
    inserts and the counter is back at 1. *)
Lemma existCmp_ignores_tombstones_witness :
  let m := fst (run defaultKeyCmp [OpNewWriter; OpPut key_a; OpNewSnapshot] New) in
  let m1 := fst (fst (fst (Delete2' defaultKeyCmp 0 key_a m))) in
  linked_allocated m = true
  /\ one_live_version defaultKeyCmp m = true
  /\ Delete2' defaultKeyCmp 0 key_a m = (m1, Some 0, true, Tombstoned)
  /\ exists m2,
       Put2 defaultKeyCmp key_a m1 = (m2, 1, true) /\ ItemsCount m2 = 1%Z.
Proof.
  intros m m1.
  split; [reflexivity|]. split; [reflexivity|]. split; [reflexivity|].
  destruct (proj2 (existCmp_ignores_tombstones defaultKeyCmp)
              defaultKeyCmp_sym defaultKeyCmp_trans m m1 0 0 key_a key_a
              eq_refl eq_refl ltac:(discriminate) eq_refl eq_refl)
    as (_ & _ & _ & _ & m2 & Hput & _ & _ & _ & Hcount).
  exists m2. split; [exact Hput|]. rewrite Hcount. reflexivity.
Defined.

(** ** The reclamation pass (C5) *)

Lemma promoted_retained (h : list Snapshot) (least : N) (dead : list ptr) :
  dead = promoted h least dead ++ retained h least dead
  /\ Forall (fun d => (sn (Snapshot_at h d) <= least)%N) (promoted h least dead)
  /\ match retained h least dead with
     | [] => True
     | d :: _ => (least < sn (Snapshot_at h d))%N
     end.
Proof.
  induction dead as [|d dead (Heq & Hall & Hhd)]; simpl.
  - repeat split. constructor.
  - destruct (N.ltb_spec least (sn (Snapshot_at h d))); simpl.
    + repeat split; [constructor | assumption].
    + repeat split; [f_equal; exact Heq | constructor; assumption | exact Hhd].
Qed.

Lemma MemDB_eta (m : MemDB) :
  m = mkMemDB (nodes m) (store m) (currSn m) (snaps m) (snapshots m)
        (gcsnapshots m) (isGCRunning m) (lastGCSn m) (leastUnrefSn m)
        (count m) (writers m) (gcchan m) (tasks m).
Proof. destruct m. reflexivity. Qed.

Lemma DeleteNode_head {A : Type} `{EqDecision A} (n : A) (l : list A) :
  skiplist.DeleteNode n (n :: l) = (l, true).
Proof.
  unfold skiplist.DeleteNode.
  destruct (decide (n ∈ n :: l)) as [_|Hn].
  - simpl. destruct (decide (n = n)); [reflexivity | contradiction].
  - exfalso. apply Hn. left.
Qed.

(** The loop of [collectDead], started on the whole dead set. *)
Lemma collectDead_loop_spec (it : list ptr) (m : MemDB) :
  gcsnapshots m = it ->
  collectDead_loop it m
  = set_gcsnapshots
      (set_gcchan m
         (gcchan m
          ++ map (fun d => gclist (Snapshot_at (snaps m) d))
               (promoted (snaps m) (leastUnrefSn m) it)))
      (retained (snaps m) (leastUnrefSn m) it).
Proof.
  revert m. induction it as [|d it IH]; intros m Hm; simpl.
  - rewrite app_nil_r. unfold set_gcsnapshots, set_gcchan; simpl.
    rewrite <- Hm. apply MemDB_eta.
  - unfold getLeastUnrefSn.
    destruct (leastUnrefSn m <? sn (Snapshot_at (snaps m) d))%N.
    + rewrite app_nil_r. unfold set_gcsnapshots, set_gcchan; simpl.
      rewrite <- Hm. apply MemDB_eta.
    + simpl. rewrite Hm, DeleteNode_head. simpl.
      rewrite IH by reflexivity. simpl.
      unfold set_gcsnapshots, set_gcchan; simpl.
      rewrite <- app_assoc. reflexivity.
Qed.

(** C5. A pass of [GC] does nothing to [lastGCSn], the channel and the dead
    set when [leastUnrefSn] is [lastGCSn] or is 0.  Otherwise it records
    [lastGCSn = leastUnrefSn] and goes through the dead set in its order:
    every dead snapshot in front of the first one with [sn > leastUnrefSn]
    has [sn <= leastUnrefSn], has its [gclist] sent on the channel, in that
    order, and leaves the dead set; that first one and those behind it
    stay. *)
Theorem GC_promotes_dead_up_to_leastUnrefSn (m : MemDB) :
  let least := getLeastUnrefSn m in
  let D := Snapshot_at (snaps m) in
  if ((least =? lastGCSn m) || (least =? 0))%N then
    lastGCSn (GC m) = lastGCSn m
    /\ gcchan (GC m) = gcchan m
    /\ gcsnapshots (GC m) = gcsnapshots m
  else
    lastGCSn (GC m) = least
    /\ exists gone kept,
         gcsnapshots m = gone ++ kept
         /\ Forall (fun d => (sn (D d) <= least)%N) gone
         /\ match kept with
            | [] => True
            | d :: _ => (least < sn (D d))%N
            end
         /\ gcchan (GC m) = gcchan m ++ map (fun d => gclist (D d)) gone
         /\ gcsnapshots (GC m) = kept.
Proof.
  intros least D. unfold GC. fold least.
  destruct (N.eqb_spec least (lastGCSn m)) as [E1|E1]; simpl.
  - destruct (isGCRunning m =? 1)%Z; repeat split.
  - destruct (N.eqb_spec least 0) as [E2|E2]; simpl.
    + replace (0 <? least)%N with false by (symmetry; apply N.ltb_ge; lia).
      destruct (isGCRunning m =? 1)%Z; repeat split.
    + replace (0 <? least)%N with true by (symmetry; apply N.ltb_lt; lia).
      unfold collectDead, skiplist.SeekFirst.
      rewrite collectDead_loop_spec by reflexivity. simpl.
      destruct (promoted_retained (snaps m) (leastUnrefSn m) (gcsnapshots m))
        as (Heq & Hall & Hhd).
      assert (Hres :
        exists gone kept,
          gcsnapshots m = gone ++ kept
          /\ Forall (fun d => (sn (D d) <= least)%N) gone
          /\ match kept with
             | [] => True
             | d :: _ => (least < sn (D d))%N
             end
          /\ gcchan m ++ map (fun d => gclist (Snapshot_at (snaps m) d))
               (promoted (snaps m) (leastUnrefSn m) (gcsnapshots m))
             = gcchan m ++ map (fun d => gclist (D d)) gone
          /\ retained (snaps m) (leastUnrefSn m) (gcsnapshots m) = kept).
      { exists (promoted (snaps m) (leastUnrefSn m) (gcsnapshots m)),
               (retained (snaps m) (leastUnrefSn m) (gcsnapshots m)).
        repeat split; assumption. }
      destruct (isGCRunning m =? 1)%Z; simpl; (split; [reflexivity | exact Hres]).
Qed.

(** ** The least unreferenced sequence (C6) *)

Lemma ascending_app_cons (a : list N) (e : N) (b : list N) :
  ascending (a ++ e :: b) = true -> ascending (a ++ b) = true.
Proof.
  induction a as [|x a IH]; simpl.
  - intros H. apply andb_true_iff in H. apply H.
  - intros H. apply andb_true_iff in H as [H1 H2].
    apply andb_true_iff. split; [|apply IH, H2].
    rewrite forallb_app in H1 |- *. simpl in H1.
    apply andb_true_iff in H1 as [Ha Hb].
    apply andb_true_iff in Hb as [_ Hb].
    rewrite Ha, Hb. reflexivity.
Qed.

Lemma forallb_app_cons {A : Type} (f : A -> bool) (a : list A) (e : A)
    (b : list A) :
  forallb f (a ++ e :: b) = true -> forallb f (a ++ b) = true.
Proof.
  rewrite !forallb_app. simpl. intros H.
  apply andb_true_iff in H as [Ha Hb]. apply andb_true_iff in Hb as [_ Hb].
  rewrite Ha, Hb. reflexivity.
Qed.

Lemma sn_set_refCount (h : list Snapshot) (s : ptr) (c : Z) (p : ptr) :
  sn (Snapshot_at (set_refCount h s c) p) = sn (Snapshot_at h p).
Proof.
  unfold set_refCount, Snapshot_at.
  destruct (h !! s) as [sp|] eqn:Es; trivial.
  destruct (decide (s = p)) as [->|Hne].
  - rewrite list_lookup_insert_eq by (eapply lookup_lt_Some; eauto).
    rewrite Es. reflexivity.
  - rewrite list_lookup_insert_ne by assumption. reflexivity.
Qed.

Lemma sns_set_refCount (h : list Snapshot) (s : ptr) (c : Z) (set : list ptr) :
  sns (set_refCount h s c) set = sns h set.
Proof.
  unfold sns. apply map_ext. intros p. apply sn_set_refCount.
Qed.

(** [Delete] takes at most one entry out of a set and leaves the others in
    their order. *)
Lemma Delete_shape {A K : Type} (get : A -> K) (x : K) (cmp : CompareFn K)
    (l : list A) :
  fst (skiplist.Delete get x cmp l) = l
  \/ exists a e b, l = a ++ e :: b /\ fst (skiplist.Delete get x cmp l) = a ++ b.
Proof.
  unfold skiplist.Delete.
  destruct (skiplist.seek get cmp x l) as [|e rest] eqn:Es; [left; reflexivity|].
  destruct (cmp (get e) x =? 0)%Z; [|left; reflexivity].
  right. exists (skiplist.preds get cmp x l), e, rest. split; [|reflexivity].
  rewrite <- Es. symmetry. apply preds_seek.
Qed.

Lemma setLeastUnrefSn_head (m : MemDB) :
  setLeastUnrefSn m
  = match snapshots m with
    | [] => m
    | d :: _ => set_leastUnrefSn m (Int.sub32 (sn (Snapshot_at (snaps m) d)) 1)
    end.
Proof.
  unfold setLeastUnrefSn, skiplist.SeekFirst, skiplist.Get.
  destruct (snapshots m); reflexivity.
Qed.

(** What [Close] does to the live set, the heap of snapshots and
    [leastUnrefSn] when the count of references falls to 0. *)
Lemma Close_last_reference (s : ptr) (m : MemDB) :
  Int.i32 (refCount (Snapshot_at (snaps m) s) + -1) = 0%Z ->
  let h := set_refCount (snaps m) s 0 in
  let live := fst (skiplist.Delete (Snapshot_at h) (Snapshot_at h s)
                     CompareSnapshot (snapshots m)) in
  snaps (Close s m) = h
  /\ snapshots (Close s m) = live
  /\ leastUnrefSn (Close s m)
     = match live with
       | [] => leastUnrefSn m
       | d :: _ => Int.sub32 (sn (Snapshot_at h d)) 1
       end.
Proof.
  intros H0 h live. unfold Close. rewrite H0. simpl.
  fold h. fold live. rewrite setLeastUnrefSn_head. simpl. fold live.
  destruct live as [|d live']; simpl;
    destruct (isGCRunning m =? 0)%Z; simpl; repeat split.
Qed.

(** C6. [setLeastUnrefSn] stores the [sn] of the first snapshot of the live
    set minus 1 and stores nothing when the live set is empty.  When
    [Snapshot.Close] drops the last reference, with the live set in
    ascending order of [sn] and no live [sn] equal to 0, that first snapshot
    is the smallest one left, so [leastUnrefSn] is the smallest live [sn]
    minus 1, it is unchanged when no snapshot is left live, and it is below
    the [sn] of every live snapshot. *)
Theorem Close_sets_leastUnrefSn_below_live (m : MemDB) (s : ptr)
    (Hasc : ascending (sns (snaps m) (snapshots m)) = true)
    (Hpos : forallb (fun n => (0 <? n)%N) (sns (snaps m) (snapshots m)) = true)
    (Hlast : Int.i32 (refCount (Snapshot_at (snaps m) s) + -1) = 0%Z) :
  let m' := Close s m in
  let D := Snapshot_at (snaps m') in
  setLeastUnrefSn m
  = match snapshots m with
    | [] => m
    | d :: _ => set_leastUnrefSn m (Int.sub32 (sn (Snapshot_at (snaps m) d)) 1)
    end
  /\ match snapshots m' with
     | [] => leastUnrefSn m' = leastUnrefSn m
     | d :: _ =>
         leastUnrefSn m' = Int.sub32 (sn (D d)) 1
         /\ (sn (D d) <= Int.MaxUint32 -> leastUnrefSn m' = N.pred (sn (D d)))%N
         /\ forall S, In S (snapshots m') -> (sn (D d) <= sn (D S))%N
     end
  /\ forall S, In S (snapshots m') -> (leastUnrefSn m' < sn (D S))%N.
Proof.
  intros m' D.
  split; [apply setLeastUnrefSn_head|].
  destruct (Close_last_reference s m Hlast) as (Hh & Hlive & Hleast).
  fold m' in Hh, Hlive, Hleast. cbv zeta in Hlive, Hleast.
  set (h := set_refCount (snaps m) s 0) in *.
  set (live := fst (skiplist.Delete (Snapshot_at h) (Snapshot_at h s)
                      CompareSnapshot (snapshots m))) in *.
  assert (Hasc' : ascending (sns h live) = true
                  /\ forallb (fun n => (0 <? n)%N) (sns h live) = true).
  { unfold h. rewrite sns_set_refCount.
    destruct (Delete_shape (Snapshot_at h) (Snapshot_at h s) CompareSnapshot
                (snapshots m)) as [E|(a & e & b & El & E)]; fold live in E.
    - rewrite E. split; assumption.
    - rewrite E. rewrite El in Hasc, Hpos. unfold sns in *.
      rewrite map_app in *. simpl in Hasc, Hpos. split.
      + eapply ascending_app_cons; eauto.
      + eapply forallb_app_cons; eauto. }
  destruct Hasc' as [Ha Hp].
  unfold D. rewrite Hh, Hlive, Hleast.
  destruct live as [|d live']; [split; [reflexivity | intros S []]|].
  simpl in Ha, Hp.
  apply andb_true_iff in Ha as [Hmin _].
  apply andb_true_iff in Hp as [Hd _]. apply N.ltb_lt in Hd.
  rewrite forallb_forall in Hmin.
  assert (Hle : forall S, In S (d :: live') ->
            (sn (Snapshot_at h d) <= sn (Snapshot_at h S))%N).
  { intros S [<-|HS]; [lia|]. apply N.leb_le, Hmin.
    apply (in_map (fun s0 => sn (Snapshot_at h s0))), HS. }
  split.
  - split; [reflexivity|]. split; [|exact Hle].
    intros Hfit. apply sub32_one_pred; assumption.
  - intros S HS. specialize (Hle S HS).
    pose proof (sub32_one_lt _ Hd). lia.
Qed.

(** Closing the oldest of three snapshots leaves [leastUnrefSn] at 1, below
    the two that stay live. *)
Lemma Close_sets_leastUnrefSn_below_live_witness :
  sns (snaps three_snapshots) (snapshots three_snapshots) = [1; 2; 3]%N
  /\ refCount (Snapshot_at (snaps three_snapshots) 0) = 1%Z
  /\ snapshots (Close 0 three_snapshots) = [1; 2]
  /\ leastUnrefSn (Close 0 three_snapshots) = 1%N
  /\ forall S, In S (snapshots (Close 0 three_snapshots)) ->
       (leastUnrefSn (Close 0 three_snapshots)
        < sn (Snapshot_at (snaps (Close 0 three_snapshots)) S))%N.
Proof.
  split; [reflexivity|]. split; [reflexivity|]. split; [reflexivity|].
  pose proof (Close_sets_leastUnrefSn_below_live three_snapshots 0
                eq_refl eq_refl eq_refl) as H.
  cbv zeta in H. destruct H as (_ & Hmin & Hbelow).
  split; [|exact Hbelow].
  assert (Hs : snapshots (Close 0 three_snapshots) = [1; 2]) by reflexivity.
  rewrite Hs in Hmin. destruct Hmin as [Hmin _].
  rewrite Hmin. reflexivity.
Defined.

(** ** Taking a snapshot (C7, C9) *)

Lemma add32_one_limit (n : N) :
  (n <= Int.MaxUint32)%N ->
  Int.add32 n 1 = Int.MaxUint32 <-> n = 4294967294%N.
Proof.
  unfold Int.add32, Int.u32, Int.MaxUint32. intros Hn.
  destruct (N.eq_dec n 4294967295%N) as [->|Hne].
  - split; intros H; [vm_compute in H|]; discriminate.
  - rewrite Z.mod_small by lia. lia.
Qed.

Lemma set_gclist_lookup (h : list Snapshot) (s : ptr) (snap : Snapshot)
    (l : option ptr) :
  h !! s = Some snap ->
  set_gclist h s l !! s
  = Some (mkSnapshot (sn snap) (refCount snap) (s_count snap) l).
Proof.
  intros Hs. unfold set_gclist. rewrite Hs.
  apply list_lookup_insert_eq. eapply lookup_lt_Some; eauto.
Qed.

(** The two ways [NewSnapshot] ends. *)
Lemma NewSnapshot_result (m : MemDB) :
  let newSn := Int.add32 (currSn m) 1 in
  let s := length (snaps m) in
  let m' := fst (NewSnapshot m) in
  (newSn = Int.MaxUint32
   /\ snd (NewSnapshot m) = inr ErrMaxSnapshotsLimitReached
   /\ currSn m' = newSn)
  \/ (newSn <> Int.MaxUint32
      /\ snd (NewSnapshot m) = inl s
      /\ currSn m' = newSn
      /\ exists head,
           snaps m' !! s = Some (mkSnapshot (currSn m) 1 (count m) head)).
Proof.
  cbv zeta. unfold NewSnapshot, getCurrSn, ItemsCount. simpl.
  destruct (N.eqb_spec (Int.add32 (currSn m) 1) Int.MaxUint32) as [E|E].
  - left. repeat split; trivial.
  - right. split; [exact E|].
    destruct (stitch _ _ _ _ _) as [[[hd tl] hn] hw]. simpl.
    split; [reflexivity|]. split; [reflexivity|].
    exists hd.
    rewrite (set_gclist_lookup _ _ (mkSnapshot (currSn m) 1 (count m) None)).
    + reflexivity.
    + apply list_lookup_middle. reflexivity.
Qed.

(** C7. [NewSnapshot] returns the error of the snapshot limit exactly when
    the incremented [currSn] is the largest 32-bit value, [2^32 - 1] (for a
    [currSn] within 32 bits: exactly when it was [2^32 - 2]).  In every
    other case it returns the snapshot it allocated, whose [sn] is the
    [currSn] from before the increment and whose [refCount] is 1.  In both
    cases [currSn] is left incremented. *)
Theorem NewSnapshot_fails_exactly_at_limit (m : MemDB) :
  let newSn := Int.add32 (getCurrSn m) 1 in
  let s := length (snaps m) in
  let m' := fst (NewSnapshot m) in
  (snd (NewSnapshot m) = inr ErrMaxSnapshotsLimitReached
   <-> newSn = Int.MaxUint32)
  /\ (newSn <> Int.MaxUint32 ->
      snd (NewSnapshot m) = inl s
      /\ sn (Snapshot_at (snaps m') s) = getCurrSn m
      /\ refCount (Snapshot_at (snaps m') s) = 1%Z
      /\ exists head,
           snaps m' !! s
           = Some (mkSnapshot (getCurrSn m) 1 (ItemsCount m) head))
  /\ getCurrSn m' = newSn
  /\ ((getCurrSn m <= Int.MaxUint32)%N ->
      (newSn = Int.MaxUint32 <-> getCurrSn m = 4294967294%N)).
Proof.
  intros newSn s m'.
  pose proof (NewSnapshot_result m) as Hcases. cbv zeta in Hcases.
  fold m' in Hcases. unfold getCurrSn, ItemsCount in *. subst newSn s.
  destruct Hcases as [(E & Hr & Hc)|(E & Hr & Hc & head & Hl)].
  - split; [rewrite Hr; tauto|].
    split; [intros; contradiction|].
    split; [exact Hc|]. intros Hfit. apply add32_one_limit, Hfit.
  - split; [rewrite Hr; split; [discriminate | contradiction]|].
    split.
    { intros _. split; [exact Hr|].
      unfold Snapshot_at. rewrite Hl. simpl.
      split; [reflexivity|]. split; [reflexivity|]. exists head. reflexivity. }
    split; [exact Hc|]. intros Hfit. apply add32_one_limit, Hfit.
Qed.

Lemma Insert_above_all {A K : Type} (get : A -> K) (n : A) (cmp : CompareFn K)
    (l : list A) :
  Forall (fun e => (cmp (get e) (get n) < 0)%Z) l ->
  skiplist.Insert get n cmp l = (l ++ [n], true).
Proof.
  intros Hall. unfold skiplist.Insert.
  assert (H : skiplist.seek get cmp (get n) l = []
              /\ skiplist.preds get cmp (get n) l = l).
  { induction Hall as [|e l He Hall [IH1 IH2]]; simpl; [split; reflexivity|].
    apply Z.ltb_lt in He. rewrite He. split; [exact IH1 | f_equal; exact IH2]. }
  destruct H as [-> ->]. reflexivity.
Qed.

Lemma Snapshot_at_alloc (h : list Snapshot) (snap : Snapshot) (p : ptr) :
  p < length h -> Snapshot_at (h ++ [snap]) p = Snapshot_at h p.
Proof.
  intros Hp. unfold Snapshot_at. rewrite lookup_app_l by exact Hp. reflexivity.
Qed.

Lemma Snapshot_at_new (h : list Snapshot) (snap : Snapshot) :
  Snapshot_at (h ++ [snap]) (length h) = snap.
Proof.
  unfold Snapshot_at. rewrite list_lookup_middle by reflexivity. reflexivity.
Qed.

(** C9. When [NewSnapshot] returns the error of the snapshot limit, in a
    database whose live snapshots were stamped before the current sequence,
    the state has changed all the same: the snapshot it allocated is in the
    live set, at its end; [currSn] is incremented, to [2^32 - 1]; and nothing
    was harvested, every writer keeps its [gchead] and [gctail] and no
    [GClink] was written.  The database it leaves is not the one it found. *)
Theorem NewSnapshot_failure_is_not_atomic (m : MemDB)
    (Herr : snd (NewSnapshot m) = inr ErrMaxSnapshotsLimitReached)
    (Hfit : (getCurrSn m <= Int.MaxUint32)%N)
    (Hlive : live_before_current m = true) :
  let s := length (snaps m) in
  let m' := fst (NewSnapshot m) in
  snaps m' = snaps m ++ [mkSnapshot (getCurrSn m) 1 (ItemsCount m) None]
  /\ snapshots m' = snapshots m ++ [s]
  /\ In s (snapshots m')
  /\ getCurrSn m' = Int.MaxUint32
  /\ getCurrSn m' = Int.add32 (getCurrSn m) 1
  /\ getCurrSn m' <> getCurrSn m
  /\ writers m' = writers m
  /\ nodes m' = nodes m
  /\ m' <> m.
Proof.
  intros s m'.
  assert (Hnew : Int.add32 (getCurrSn m) 1 = Int.MaxUint32).
  { revert Herr. unfold NewSnapshot. simpl.
    destruct (N.eqb_spec (Int.add32 (currSn m) 1) Int.MaxUint32) as [E|E].
    - intros _. exact E.
    - destruct (stitch _ _ _ _ _) as [[[hd tl] hn] hw]. discriminate. }
  assert (Hcur : getCurrSn m = 4294967294%N) by (apply add32_one_limit; assumption).
  assert (Hins :
    skiplist.Insert
      (Snapshot_at (snaps m ++ [mkSnapshot (getCurrSn m) 1 (ItemsCount m) None]))
      s CompareSnapshot (snapshots m)
    = (snapshots m ++ [s], true)).
  { apply Insert_above_all. apply List.Forall_forall. intros e He.
    unfold live_before_current in Hlive. rewrite forallb_forall in Hlive.
    specialize (Hlive e He). apply andb_true_iff in Hlive as [Hp Hs].
    apply Nat.ltb_lt in Hp. apply N.ltb_lt in Hs.
    unfold s. rewrite Snapshot_at_new, Snapshot_at_alloc by exact Hp.
    unfold CompareSnapshot. simpl.
    unfold Int.MaxUint32 in Hfit.
    rewrite !int_u32 by (unfold Int.MaxUint32; lia).
    rewrite i64_small by lia. lia. }
  assert (Hm' : m' = set_currSn
                  (set_snapshots
                     (set_snaps m
                        (snaps m ++ [mkSnapshot (getCurrSn m) 1 (ItemsCount m) None]))
                     (snapshots m ++ [s]))
                  Int.MaxUint32).
  { unfold m', NewSnapshot. simpl. fold s. rewrite Hins.
    unfold getCurrSn in Hnew. rewrite Hnew. reflexivity. }
  rewrite Hm'. simpl.
  split; [reflexivity|]. split; [reflexivity|].
  split; [apply in_or_app; right; left; reflexivity|].
  split; [reflexivity|]. split; [symmetry; exact Hnew|].
  split; [rewrite Hcur; discriminate|].
  split; [reflexivity|]. split; [reflexivity|].
  intros Heq. apply (f_equal currSn) in Heq. simpl in Heq.
  unfold getCurrSn in Hcur. rewrite Hcur in Heq. discriminate.
Qed.

(** At the limit the call fails, and yet the live set has grown and the
    writer still holds its retired node. *)
Lemma NewSnapshot_failure_is_not_atomic_witness :
  snd (NewSnapshot near_limit) = inr ErrMaxSnapshotsLimitReached
  /\ live_before_current near_limit = true
  /\ writers near_limit = [mkWriter (Some 0) (Some 0)]
  /\ writers (fst (NewSnapshot near_limit)) = [mkWriter (Some 0) (Some 0)]
  /\ snapshots (fst (NewSnapshot near_limit)) = [0; 1]
  /\ getCurrSn (fst (NewSnapshot near_limit)) = Int.MaxUint32.
Proof.
  split; [reflexivity|]. split; [reflexivity|]. split; [reflexivity|].
  pose proof (NewSnapshot_failure_is_not_atomic near_limit eq_refl
                ltac:(discriminate) eq_refl) as H.
  cbv zeta in H. destruct H as (_ & Hs & _ & Hc & _ & _ & Hw & _).
  split; [rewrite Hw; reflexivity|].
  split; [rewrite Hs; reflexivity | exact Hc].
Defined.

(** ** Collectors (C10) *)

Lemma NewWriter_collectors (m : MemDB) :
  collectors (fst (NewWriter m)) = S (collectors m).
Proof.
  unfold collectors, NewWriter, go. simpl.
  rewrite count_occ_app. simpl. lia.
Qed.

(** C10, as the code has it. Every call of [NewWriter] starts a collector
    task, the first call and each later one alike: a call adds one
    [collectionWorker] to the tasks of the database, and after [n] calls on
    a new database [n] collectors consume from its retirement channel. *)
Theorem NewWriter_starts_a_collector_each_call (m : MemDB) (n : nat) :
  tasks (fst (NewWriter m)) = tasks m ++ [collectionWorker]
  /\ collectors (fst (NewWriter m)) = S (collectors m)
  /\ collectors (NewWriters n m) = collectors m + n
  /\ collectors (NewWriters n New) = n
  /\ length (writers (NewWriters n m)) = length (writers m) + n.
Proof.
  split; [reflexivity|]. split; [apply NewWriter_collectors|].
  assert (H : forall k m0,
            collectors (NewWriters k m0) = collectors m0 + k
            /\ length (writers (NewWriters k m0)) = length (writers m0) + k).
  { induction k as [|k IH]; intros m0; [simpl; lia|].
    destruct (IH (fst (NewWriter m0))) as [Hc Hw].
    change (NewWriters (S k) m0) with (NewWriters k (fst (NewWriter m0))).
    rewrite Hc, Hw, NewWriter_collectors.
    unfold NewWriter, go. simpl. rewrite length_app. simpl. lia. }
  split; [apply H|]. split; [|apply H].
  destruct (H n New) as [Hc _]. rewrite Hc. reflexivity.
Qed.

(** C10 as stated fails: the second call of [NewWriter] on a database starts
    a second collector. *)
Lemma second_NewWriter_starts_second_collector :
  let m1 := fst (NewWriter New) in
  let m2 := fst (NewWriter m1) in
  collectors m1 = 1
  /\ collectors m2 = 2
  /\ collectors m2 <> collectors m1
  /\ tasks m2 = [collectionWorker; collectionWorker].
Proof.
  cbv zeta. split; [reflexivity|]. split; [reflexivity|].
  split; [|reflexivity].
  change (collectors (fst (NewWriter (fst (NewWriter New))))) with 2.
  change (collectors (fst (NewWriter New))) with 1.
  discriminate.
Qed.

(** ** The manifest of [LoadFromDisk] (C8) *)

Lemma NewSnapshot_store (m : MemDB) :
  store (fst (NewSnapshot m)) = store m /\ count (fst (NewSnapshot m)) = count m.
Proof.
  split; [|apply NewSnapshot_count].
  unfold NewSnapshot. simpl.
  destruct (_ =? _)%N; simpl; trivial.
  destruct (stitch _ _ _ _ _) as [[[hd tl] hn] hw]. reflexivity.
Qed.

(** C8, on the code. A missing manifest makes [LoadFromDisk] return the
    error of [ReadFile], with no snapshot and the database untouched.  A
    manifest that is read but that [json.Unmarshal] refuses, leaving no file
    name, does not: the error of the decoder is dropped, an index with no
    entry replaces the one of the database, the counter is set to 0, a
    snapshot is taken and the error returned is nil. *)
Theorem LoadFromDisk_drops_decoder_error (d : Disk) (dir : list string)
    (m : MemDB) (bs : list byte) (err : error)
    (Hread : ReadFile d (dir ++ ["data"; "files.json"]%string) = inl bs)
    (Hjson : Unmarshal d bs = ([], Some err)) :
  let r := LoadFromDisk d dir m in
  let m' := fst (fst r) in
  snd r = None
  /\ store m' = []
  /\ ItemsCount m' = 0%Z
  /\ getCurrSn m' = Int.add32 (getCurrSn m) 1
  /\ length (snaps m') = S (length (snaps m))
  /\ (Int.add32 (getCurrSn m) 1 <> Int.MaxUint32 ->
      snd (fst r) = Some (length (snaps m)))
  /\ (forall e,
        ReadFile d (dir ++ ["data"; "files.json"]%string) = inr e ->
        LoadFromDisk d dir m = (m, None, Some e)).
Proof.
  intros r m'.
  assert (Hpath : (dir ++ ["data"%string]) ++ ["files.json"%string]
                  = dir ++ ["data"; "files.json"]%string)
    by (rewrite <- app_assoc; reflexivity).
  split; [|split; [|split; [|split; [|split; [|split]]]]].
  7:{ intros e He. rewrite Hread in He. discriminate. }
  all: subst r m'; unfold LoadFromDisk; rewrite Hpath, Hread, Hjson; simpl.
  all: unfold Assemble; simpl.
  all: rewrite ?app_nil_r.
  - destruct (NewSnapshot _) as [m1 [sp|e]]; reflexivity.
  - match goal with |- context [NewSnapshot ?a] =>
      pose proof (NewSnapshot_store a) as [Hs _];
      destruct (NewSnapshot a) as [m1 [sp|e]] end; exact Hs.
  - match goal with |- context [NewSnapshot ?a] =>
      pose proof (NewSnapshot_store a) as [_ Hc];
      destruct (NewSnapshot a) as [m1 [sp|e]] end; exact Hc.
  - match goal with |- context [NewSnapshot ?a] =>
      pose proof (NewSnapshot_result a) as Hc; cbv zeta in Hc;
      destruct (NewSnapshot a) as [m1 [sp|e]] end;
      destruct Hc as [(_ & _ & Hc)|(_ & _ & Hc & _)]; exact Hc.
  - unfold NewSnapshot. simpl.
    destruct (_ =? _)%N; simpl.
    + rewrite length_app. simpl. lia.
    + destruct (stitch _ _ _ _ _) as [[[hd tl] hn] hw]. simpl.
      unfold set_gclist. rewrite list_lookup_middle by reflexivity.
      rewrite length_insert, length_app. simpl. lia.
  - intros Hne.
    match goal with |- context [NewSnapshot ?a] =>
      pose proof (NewSnapshot_result a) as Hok; cbv zeta in Hok;
      destruct Hok as [(E & _)|(_ & Hr & _)]; [contradiction|];
      destruct (NewSnapshot a) as [m1 [sp|e]] end;
      simpl in Hr; [injection Hr as ->; reflexivity | discriminate].
Qed.

(** Loading over a database that holds one item, from a manifest that does
    not parse: no error, a snapshot, and an empty index. *)
Lemma LoadFromDisk_drops_decoder_error_witness :
  let r := LoadFromDisk broken_manifest ["db"%string]
             (fst (run defaultKeyCmp [OpNewWriter; OpPut key_a] New)) in
  ReadFile broken_manifest ["db"; "data"; "files.json"]%string = inl ["{"%byte]
  /\ snd r = None
  /\ snd (fst r) = Some 0
  /\ store (fst (fst r)) = []
  /\ ItemsCount (fst (fst r)) = 0%Z.
Proof.
  cbv zeta. split; [reflexivity|].
  pose proof (LoadFromDisk_drops_decoder_error broken_manifest ["db"%string]
                (fst (run defaultKeyCmp [OpNewWriter; OpPut key_a] New))
                ["{"%byte] (ErrIO 1) eq_refl eq_refl) as H.
  cbv zeta in H. destruct H as (He & Hs & Hc & _ & _ & Hsnap & _).
  split; [exact He|]. split; [|split; [exact Hs | exact Hc]].
  apply Hsnap. discriminate.
Defined.

(** ** Invariants of the index *)

Section Order.

Variable keyCmp : KeyCompare.
Hypothesis Hkey : KeyOrder keyCmp.

(** *** Chains *)

Lemma in_Insert_chain {A K : Type} (get : A -> K) (cmp : CompareFn K) (x : K)
    (n : A) (l : list A) (e : A) :
  In e (skiplist.preds get cmp x l ++ n :: skiplist.seek get cmp x l)
  <-> e = n \/ In e l.
Proof.
  rewrite in_app_iff. simpl.
  rewrite <- (preds_seek get cmp x l) at 3. rewrite in_app_iff.
  intuition congruence.
Qed.

Lemma in_unlink {A : Type} `{EqDecision A} (n : A) (l : list A) (e : A) :
  In e (skiplist.unlink n l) -> In e l.
Proof.
  induction l as [|a l IH]; simpl; trivial.
  destruct (decide (a = n)); simpl; [tauto|].
  intros [->|H]; [left; reflexivity | right; apply IH, H].
Qed.

(** Linking a node where [Insert2] links it keeps the chain in order. *)
Lemma ordered_Insert (get : ptr -> Item) (cmp : CompareFn Item) (n : ptr)
    (l : list ptr) :
  (forall e, In e l -> (cmp (get e) (get n) >= 0)%Z -> (cmp (get n) (get e) <= 0)%Z) ->
  ordered cmp (map get l) = true ->
  ordered cmp
    (map get (skiplist.preds get cmp (get n) l
              ++ n :: skiplist.seek get cmp (get n) l)) = true.
Proof.
  induction l as [|e l IH]; intros Hanti Hord; [reflexivity|].
  cbn [map] in Hord. apply ordered_cons in Hord as [Hl He].
  cbn [skiplist.preds skiplist.seek].
  destruct (Z.ltb_spec (cmp (get e) (get n)) 0) as [Hlt|Hge]; cbn [app map].
  - apply ordered_cons_intro.
    + apply IH; trivial. intros e' He'. apply Hanti. right. exact He'.
    + destruct l as [|e2 l]; cbn [skiplist.preds skiplist.seek app map];
        [lia|].
      cbn [map] in He.
      destruct (cmp (get e2) (get n) <? 0)%Z; cbn [app map]; [exact He | lia].
  - apply ordered_cons_intro.
    + apply ordered_cons_intro; assumption.
    + apply Hanti; [left; reflexivity | lia].
Qed.

(** Unlinking a node keeps the chain in order when the comparator is
    transitive on its entries. *)
Lemma ordered_unlink (get : ptr -> Item) (cmp : CompareFn Item) (n : ptr)
    (l : list ptr) :
  (forall a b c, In a l -> In b l -> In c l ->
     (cmp (get a) (get b) <= 0)%Z -> (cmp (get b) (get c) <= 0)%Z ->
     (cmp (get a) (get c) <= 0)%Z) ->
  ordered cmp (map get l) = true ->
  ordered cmp (map get (skiplist.unlink n l)) = true.
Proof.
  induction l as [|e l IH]; intros Htr Hord; [reflexivity|].
  cbn [map] in Hord. apply ordered_cons in Hord as [Hl He].
  cbn [skiplist.unlink].
  destruct (decide (e = n)) as [_|Hne]; [exact Hl|].
  cbn [map]. apply ordered_cons_intro.
  - apply IH; trivial. intros a b c Ha Hb Hc. apply Htr; right; assumption.
  - destruct l as [|e2 l]; cbn [skiplist.unlink map]; trivial.
    cbn [map] in He, Hl.
    destruct (decide (e2 = n)) as [_|Hne2]; cbn [map]; [|exact He].
    destruct l as [|e3 l]; cbn [map]; trivial.
    apply ordered_cons in Hl as [_ He2]. cbn [map] in He2.
    apply (Htr e e2 e3); simpl; auto.
Qed.

Lemma ordered_ext (cmp : CompareFn Item) (f g : ptr -> Item) (l : list ptr) :
  (forall a b, In a l -> In b l -> cmp (g a) (g b) = cmp (f a) (f b)) ->
  ordered cmp (map g l) = ordered cmp (map f l).
Proof.
  induction l as [|e l IH]; intros Hext; [reflexivity|].
  assert (IH' : ordered cmp (map g l) = ordered cmp (map f l)).
  { apply IH. intros a b Ha Hb. apply Hext; right; assumption. }
  destruct l as [|e2 l]; [reflexivity|].
  change (ordered cmp (map g (e :: e2 :: l)))
    with ((cmp (g e) (g e2) <=? 0)%Z && ordered cmp (map g (e2 :: l))).
  change (ordered cmp (map f (e :: e2 :: l)))
    with ((cmp (f e) (f e2) <=? 0)%Z && ordered cmp (map f (e2 :: l))).
  rewrite (Hext e e2) by (simpl; auto). rewrite IH'. reflexivity.
Qed.

(** *** The invariant of the primary index *)

Lemma store_inv_bools (m : MemDB) :
  store_inv keyCmp m ->
  linked_allocated m = true
  /\ one_live_version keyCmp m = true
  /\ ordered (insCmp keyCmp) (items m) = true
  /\ forallb stamps_fit (items m) = true.
Proof.
  intros [(Ha & Ho & Hord & Hf) _]. repeat split.
  - unfold linked_allocated. apply forallb_forall. intros e He.
    apply Nat.ltb_lt, Ha, He.
  - unfold one_live_version. apply forallb_forall. intros p Hp.
    apply forallb_forall. intros q Hq. apply negb_true_iff.
    unfold live_clash.
    destruct (Nat.eqb_spec p q) as [E|E]; simpl; trivial.
    destruct (N.eqb_spec (deadSn (Item_at (nodes m) p)) 0) as [Dp|Dp];
      simpl; trivial.
    destruct (N.eqb_spec (deadSn (Item_at (nodes m) q)) 0) as [Dq|Dq];
      simpl; trivial.
    apply Z.eqb_neq. apply Ho; assumption.
  - exact Hord.
  - unfold items. apply forallb_forall. intros x Hx.
    apply in_map_iff in Hx as (e & <- & He). apply Hf, He.
Qed.

Lemma insCmp_same_version (a a' b b' : Item) :
  data a' = data a -> bornSn a' = bornSn a ->
  data b' = data b -> bornSn b' = bornSn b ->
  insCmp keyCmp a' b' = insCmp keyCmp a b.
Proof.
  unfold insCmp, newInsertCompare, Bytes. intros -> -> -> ->. reflexivity.
Qed.

(** The invariant survives an update of the heap that keeps the versions,
    revives no entry and keeps the stamps within [uint32]. *)
Lemma chain_inv_update (h h' : list Node) (l : list ptr) :
  length h' = length h ->
  (forall e, In e l ->
     data (Item_at h' e) = data (Item_at h e)
     /\ bornSn (Item_at h' e) = bornSn (Item_at h e)
     /\ (deadSn (Item_at h' e) = 0%N -> deadSn (Item_at h e) = 0%N)
     /\ (deadSn (Item_at h' e) <= Int.MaxUint32)%N) ->
  chain_inv keyCmp h l -> chain_inv keyCmp h' l.
Proof.
  intros Hlen Hup (Ha & Ho & Hord & Hf). repeat split.
  - intros e He. rewrite Hlen. apply Ha, He.
  - intros p q Hp Hq Hne Dp Dq.
    destruct (Hup p Hp) as (Hd1 & _ & Hl1 & _).
    destruct (Hup q Hq) as (Hd2 & _ & Hl2 & _).
    unfold Bytes. rewrite Hd1, Hd2. apply Ho; auto.
  - rewrite <- Hord. apply ordered_ext. intros a b Ha' Hb'.
    destruct (Hup a Ha') as (? & ? & _). destruct (Hup b Hb') as (? & ? & _).
    apply insCmp_same_version; assumption.
  - intros e He. destruct (Hup e He) as (_ & Hb & _ & Hd).
    specialize (Hf e He). unfold stamps_fit in *.
    apply andb_true_iff in Hf as [Hf _]. rewrite Hb, Hf. simpl.
    apply N.leb_le, Hd.
Qed.

Lemma chain_inv_unlink (h : list Node) (l : list ptr) (n : ptr) :
  chain_inv keyCmp h l -> chain_inv keyCmp h (skiplist.unlink n l).
Proof.
  intros (Ha & Ho & Hord & Hf). repeat split.
  - intros e He. apply Ha. eapply in_unlink; eauto.
  - intros p q Hp Hq. apply Ho; eapply in_unlink; eauto.
  - apply ordered_unlink; trivial.
    intros a b c Ha' Hb' Hc'. apply (insCmp_trans keyCmp Hkey); auto.
  - intros e He. apply Hf. eapply in_unlink; eauto.
Qed.

(** Linking a fresh node whose item no entry equals under [existCmp]. *)
Lemma chain_inv_Insert (h : list Node) (l : list ptr) (x : Item) :
  let h' := h ++ [mkNode x None] in
  let n := length h in
  stamps_fit x = true ->
  (forall e, In e l -> existCmp keyCmp x (Item_at h' e) <> 0%Z) ->
  chain_inv keyCmp h l ->
  chain_inv keyCmp h'
    (skiplist.preds (Item_at h') (insCmp keyCmp) (Item_at h' n) l
     ++ n :: skiplist.seek (Item_at h') (insCmp keyCmp) (Item_at h' n) l).
Proof.
  intros h' n Hx Hex (Ha & Ho & Hord & Hf).
  assert (Hnew : Item_at h' n = x).
  { unfold h', n. rewrite Item_at_alloc.
    destruct (decide (length h = length h)); [reflexivity | contradiction]. }
  assert (Hold : forall e, In e l -> Item_at h' e = Item_at h e).
  { intros e He. unfold h'. rewrite Item_at_alloc. specialize (Ha e He).
    destruct (decide (e = length h)); [lia|].
    destruct (decide (e < length h)); [reflexivity | lia]. }
  assert (Hfit : forall e, In e l \/ e = n -> stamps_fit (Item_at h' e) = true).
  { intros e [He| ->]; [rewrite Hold by exact He; apply Hf, He|].
    rewrite Hnew. exact Hx. }
  assert (Hclash : forall e, In e l -> deadSn x = 0%N ->
            deadSn (Item_at h e) = 0%N ->
            keyCmp (Bytes x) (Bytes (Item_at h e)) <> 0%Z).
  { intros e He Dx De. specialize (Hex e He). rewrite (Hold e He) in Hex.
    unfold existCmp, newExistCompare in Hex. rewrite Dx, De in Hex.
    exact Hex. }
  repeat split.
  - intros e He. apply in_Insert_chain in He. unfold h'.
    rewrite length_app. simpl. destruct He as [->|He]; [unfold n; lia|].
    specialize (Ha e He). lia.
  - intros p q Hp Hq Hne Dp Dq.
    apply in_Insert_chain in Hp, Hq.
    destruct Hp as [->|Hp], Hq as [->|Hq]; [contradiction| | |].
    + rewrite Hnew in *. rewrite (Hold q Hq) in *. apply Hclash; assumption.
    + rewrite Hnew in *. rewrite (Hold p Hp) in *.
      intros Hk. apply (Hclash p Hp Dq Dp). apply (key_sym0 keyCmp Hkey), Hk.
    + rewrite (Hold p Hp), (Hold q Hq) in *. apply Ho; assumption.
  - apply ordered_Insert.
    + intros e He Hge. apply (insCmp_antisym keyCmp Hkey); auto.
    + rewrite <- Hord. apply ordered_ext. intros a b Ha' Hb'.
      rewrite (Hold a Ha'), (Hold b Hb'). reflexivity.
  - intros e He. apply in_Insert_chain in He. apply Hfit.
    destruct He; auto.
Qed.

(** *** The operations keep the invariant of the index *)

Lemma stitch_nodes (ws : list ptr) (head tail : option ptr) (hn : list Node)
    (hw : list Writer) :
  length (snd (fst (stitch ws head tail hn hw))) = length hn
  /\ forall e, Item_at (snd (fst (stitch ws head tail hn hw))) e = Item_at hn e.
Proof.
  revert head tail hn hw.
  induction ws as [|w ws IH]; intros head tail hn hw; simpl;
    [split; reflexivity|].
  destruct tail as [t|]; [destruct (gchead (Writer_at hw w)) as [g|]|];
    match goal with |- context [stitch ws ?a ?b ?c ?d] =>
      destruct (IH a b c d) as [Hl Hi] end;
    split; try assumption.
  - rewrite Hl. apply length_set_GClink.
  - intros e. rewrite Hi. apply Item_at_set_GClink.
Qed.

Lemma NewSnapshot_nodes (m : MemDB) :
  let m' := fst (NewSnapshot m) in
  length (nodes m') = length (nodes m)
  /\ (forall e, Item_at (nodes m') e = Item_at (nodes m) e)
  /\ store m' = store m
  /\ currSn m' = Int.add32 (currSn m) 1.
Proof.
  unfold NewSnapshot. simpl.
  destruct (_ =? _)%N; simpl; [repeat split|].
  match goal with |- context [stitch ?a ?b ?c ?d ?e] =>
    pose proof (stitch_nodes a b c d e) as H;
    destruct (stitch a b c d e) as [[[hd tl] hn] hw] end.
  simpl in *. destruct H as [Hl Hi]. repeat split; assumption.
Qed.

Lemma add32_fits (a b : N) : (Int.add32 a b <= Int.MaxUint32)%N.
Proof.
  unfold Int.add32, Int.u32, Int.MaxUint32.
  pose proof (Z.mod_pos_bound (Z.of_N a + Z.of_N b) 4294967296). lia.
Qed.

Lemma store_inv_frame (m m' : MemDB) :
  nodes m' = nodes m -> store m' = store m -> currSn m' = currSn m ->
  store_inv keyCmp m -> store_inv keyCmp m'.
Proof.
  unfold store_inv. intros -> -> ->. trivial.
Qed.

Lemma store_inv_NewSnapshot (m : MemDB) :
  store_inv keyCmp m -> store_inv keyCmp (fst (NewSnapshot m)).
Proof.
  intros [Hc Hs]. destruct (NewSnapshot_nodes m) as (Hl & Hi & Hst & Hcur).
  split; [|rewrite Hcur; apply add32_fits].
  rewrite Hst. eapply chain_inv_update; [exact Hl| |exact Hc].
  intros e He. rewrite Hi. repeat split; trivial.
  destruct Hc as (_ & _ & _ & Hf). specialize (Hf e He).
  unfold stamps_fit in Hf. apply andb_true_iff in Hf as [_ Hf].
  apply N.leb_le, Hf.
Qed.

Lemma store_inv_Put2 (x : Item) (m : MemDB) :
  deadSn x = 0%N -> store_inv keyCmp m -> store_inv keyCmp (fst (fst (Put2 keyCmp x m))).
Proof.
  intros Hx [Hc Hs]. unfold Put2, store_Insert2, skiplist.Insert2.
  set (x' := set_bornSn x (getCurrSn m)).
  set (h' := nodes m ++ [mkNode x' None]).
  destruct (List.find _ (store m)) as [e|] eqn:Ef; simpl; [split; assumption|].
  split; [|exact Hs].
  assert (Hnew : Item_at h' (length (nodes m)) = x').
  { unfold h'. rewrite Item_at_alloc.
    destruct (decide (length (nodes m) = length (nodes m)));
      [reflexivity | contradiction]. }
  apply (chain_inv_Insert (nodes m) (store m) x'); trivial.
  - unfold stamps_fit, x'. simpl. rewrite Hx.
    unfold getCurrSn. apply andb_true_iff. split; [apply N.leb_le, Hs | reflexivity].
  - intros e He. pose proof (find_none _ _ Ef e He) as Hn. simpl in Hn.
    fold h' in Hn. rewrite Hnew in Hn. apply Z.eqb_neq, Hn.
Qed.

Lemma DeleteNode'_store_inv (w x : ptr) (m : MemDB) :
  store_inv keyCmp m -> store_inv keyCmp (fst (fst (DeleteNode' w x m))).
Proof.
  intros [Hc Hs]. unfold DeleteNode'.
  destruct (nodes m !! x) as [nd|] eqn:End; [|split; assumption].
  assert (Hlt : x < length (nodes m)) by (eapply lookup_lt_Some; eauto).
  destruct (bornSn (itm nd) =? getCurrSn m)%N.
  - unfold skiplist.DeleteNode.
    destruct (decide (x ∈ store m));
      lazy beta iota zeta delta [fst snd]; [|split; assumption].
    split; [|exact Hs]. apply chain_inv_unlink, Hc.
  - destruct (N.eqb_spec (deadSn (itm nd)) 0) as [D|D];
      lazy beta iota zeta delta [fst snd]; [|split; assumption].
    unfold store_inv. cbn [nodes store currSn set_count].
    split; [|rewrite retire_currSn; exact Hs].
    rewrite retire_store. cbn [store set_nodes].
    eapply chain_inv_update; [| |exact Hc].
    + rewrite length_nodes_retire. simpl. apply length_set_Item.
    + intros e He. rewrite Item_at_retire. simpl.
      rewrite Item_at_set_Item by exact Hlt.
      destruct Hc as (_ & _ & _ & Hf). specialize (Hf e He).
      unfold stamps_fit in Hf. apply andb_true_iff in Hf as [_ Hf].
      apply N.leb_le in Hf.
      destruct (decide (e = x)) as [->|Hne]; [|repeat split; trivial].
      unfold Item_at. rewrite End. simpl. repeat split; trivial.
Qed.

Lemma Delete2'_store_inv (w : ptr) (x : Item) (m : MemDB) :
  store_inv keyCmp m -> store_inv keyCmp (fst (fst (fst (Delete2' keyCmp w x m)))).
Proof.
  intros Hm. unfold Delete2'.
  destruct (GetNode keyCmp x m) as [n|]; [|exact Hm].
  pose proof (DeleteNode'_store_inv w n m Hm) as H.
  destruct (DeleteNode' w n m) as [[m' ok] how]. exact H.
Qed.

End Order.

(** *** The invariant of the live set *)

Lemma snap_inv_bools (m : MemDB) :
  snap_inv m ->
  live_before_current m = true
  /\ ascending (sns (snaps m) (snapshots m)) = true
  /\ forallb (fun n => (0 <? n)%N) (sns (snaps m) (snapshots m)) = true.
Proof.
  intros [[Hl Ha] _]. repeat split; trivial.
  - unfold live_before_current. apply forallb_forall. intros p Hp.
    destruct (Hl p Hp) as (H1 & _ & H3).
    apply andb_true_iff. split; [apply Nat.ltb_lt, H1 | apply N.ltb_lt, H3].
  - apply forallb_forall. intros n Hn. unfold sns in Hn.
    apply in_map_iff in Hn as (p & <- & Hp). apply N.ltb_lt, Hl, Hp.
Qed.

Lemma live_inv_ext (h h' : list Snapshot) (l : list ptr) (c : N) :
  length h' = length h ->
  (forall p, sn (Snapshot_at h' p) = sn (Snapshot_at h p)) ->
  live_inv h l c -> live_inv h' l c.
Proof.
  intros Hlen Hsn [Hl Ha]. split.
  - intros p Hp. rewrite Hlen, Hsn. apply Hl, Hp.
  - rewrite <- Ha. unfold sns. f_equal. apply map_ext. intros p. apply Hsn.
Qed.

Lemma live_inv_remove (h : list Snapshot) (a : list ptr) (e : ptr)
    (b : list ptr) (c : N) :
  live_inv h (a ++ e :: b) c -> live_inv h (a ++ b) c.
Proof.
  intros [Hl Ha]. split.
  - intros p Hp. apply Hl. apply in_app_iff in Hp. apply in_app_iff.
    destruct Hp; [left | right; right]; assumption.
  - unfold sns in *. rewrite map_app in *. simpl in Ha.
    eapply ascending_app_cons; eauto.
Qed.

Lemma ascending_snoc (l : list N) (c : N) :
  ascending l = true -> (forall a, In a l -> (a <= c)%N) ->
  ascending (l ++ [c]) = true.
Proof.
  induction l as [|x l IH]; simpl; trivial.
  intros H Hc. apply andb_true_iff in H as [H1 H2].
  apply andb_true_iff. split; [|apply IH; auto].
  rewrite forallb_app, H1. simpl.
  rewrite (proj2 (N.leb_le x c)) by auto. reflexivity.
Qed.

Lemma live_inv_append (h : list Snapshot) (l : list ptr) (c c' : N)
    (snap : Snapshot) :
  live_inv h l c -> sn snap = c -> (0 < c)%N -> (c < c')%N ->
  live_inv (h ++ [snap]) (l ++ [length h]) c'.
Proof.
  intros [Hl Ha] Hsn H0 Hc.
  assert (Hold : forall p, In p l ->
            Snapshot_at (h ++ [snap]) p = Snapshot_at h p).
  { intros p Hp. apply Snapshot_at_alloc, Hl, Hp. }
  split.
  - intros p Hp. rewrite length_app. simpl.
    apply in_app_iff in Hp as [Hp|[<-|[]]].
    + rewrite (Hold p Hp). destruct (Hl p Hp) as (H1 & H2 & H3).
      repeat split; lia.
    + rewrite Snapshot_at_new, Hsn. repeat split; lia.
  - unfold sns. rewrite map_app. simpl. rewrite Snapshot_at_new, Hsn.
    rewrite (map_ext_in _ (fun s => sn (Snapshot_at h s)))
      by (intros p Hp; rewrite (Hold p Hp); reflexivity).
    apply ascending_snoc; [exact Ha|].
    intros a Ha'. apply in_map_iff in Ha' as (p & <- & Hp).
    destruct (Hl p Hp) as (_ & _ & H3). lia.
Qed.

Lemma length_set_refCount (h : list Snapshot) (s : ptr) (c : Z) :
  length (set_refCount h s c) = length h.
Proof.
  unfold set_refCount. destruct (h !! s); trivial. apply length_insert.
Qed.

Lemma length_set_gclist (h : list Snapshot) (s : ptr) (l : option ptr) :
  length (set_gclist h s l) = length h.
Proof.
  unfold set_gclist. destruct (h !! s); trivial. apply length_insert.
Qed.

Lemma sn_set_gclist (h : list Snapshot) (s : ptr) (l : option ptr) (p : ptr) :
  sn (Snapshot_at (set_gclist h s l) p) = sn (Snapshot_at h p).
Proof.
  unfold set_gclist, Snapshot_at.
  destruct (h !! s) as [sp|] eqn:Es; trivial.
  destruct (decide (s = p)) as [->|Hne].
  - rewrite list_lookup_insert_eq by (eapply lookup_lt_Some; eauto).
    rewrite Es. reflexivity.
  - rewrite list_lookup_insert_ne by assumption. reflexivity.
Qed.

(** Where [NewSnapshot] links the snapshot it allocates. *)
Lemma NewSnapshot_live_set (m : MemDB) :
  live_before_current m = true -> (currSn m <= Int.MaxUint32)%N ->
  skiplist.Insert
    (Snapshot_at (snaps m ++ [mkSnapshot (currSn m) 1 (count m) None]))
    (length (snaps m)) CompareSnapshot (snapshots m)
  = (snapshots m ++ [length (snaps m)], true).
Proof.
  intros Hlive Hfit.
  apply Insert_above_all. apply List.Forall_forall. intros e He.
  unfold live_before_current in Hlive. rewrite forallb_forall in Hlive.
  specialize (Hlive e He). apply andb_true_iff in Hlive as [Hp Hs].
  apply Nat.ltb_lt in Hp. apply N.ltb_lt in Hs.
  rewrite Snapshot_at_new, Snapshot_at_alloc by exact Hp.
  unfold CompareSnapshot. simpl.
  unfold Int.MaxUint32 in Hfit. unfold getCurrSn in Hs.
  rewrite !int_u32 by (unfold Int.MaxUint32; lia).
  rewrite i64_small by lia. lia.
Qed.

Lemma add32_succ (n : N) :
  (n < Int.MaxUint32)%N -> Int.add32 n 1 = (n + 1)%N.
Proof.
  unfold Int.add32, Int.u32, Int.MaxUint32. intros Hn.
  rewrite Z.mod_small by lia. lia.
Qed.

Lemma snap_inv_NewSnapshot (m : MemDB) :
  (currSn m < Int.MaxUint32)%N ->
  snap_inv m -> snap_inv (fst (NewSnapshot m)).
Proof.
  intros Hlt Hinv. destruct (snap_inv_bools m Hinv) as (Hlive & _ & _).
  destruct Hinv as [Hl [H1 H2]].
  pose proof (NewSnapshot_live_set m Hlive H2) as Hins.
  pose proof (live_inv_append (snaps m) (snapshots m) (currSn m)
                (currSn m + 1) (mkSnapshot (currSn m) 1 (count m) None)
                Hl eq_refl ltac:(lia) ltac:(lia)) as Happ.
  unfold snap_inv, NewSnapshot, getCurrSn, ItemsCount. simpl.
  rewrite Hins, (add32_succ _ Hlt). simpl.
  destruct (_ =? _)%N; simpl.
  - split; [exact Happ | unfold Int.MaxUint32 in *; lia].
  - destruct (stitch _ _ _ _ _) as [[[hd tl] hn] hw]. simpl.
    split; [|unfold Int.MaxUint32 in *; lia].
    eapply live_inv_ext; [apply length_set_gclist | apply sn_set_gclist |].
    exact Happ.
Qed.

Lemma snap_inv_frame (m m' : MemDB) :
  snaps m' = snaps m -> snapshots m' = snapshots m -> currSn m' = currSn m ->
  snap_inv m -> snap_inv m'.
Proof.
  unfold snap_inv. intros -> -> ->. trivial.
Qed.

Lemma snap_inv_Open (s : ptr) (m : MemDB) :
  snap_inv m -> snap_inv (fst (Open s m)).
Proof.
  intros [Hl Hc]. unfold Open. destruct (_ =? _)%Z; simpl; [split; assumption|].
  split; [|exact Hc]. simpl.
  eapply live_inv_ext; [apply length_set_refCount | apply sn_set_refCount |].
  exact Hl.
Qed.

Lemma snap_inv_Close (s : ptr) (m : MemDB) :
  snap_inv m -> snap_inv (Close s m).
Proof.
  intros [Hl Hc].
  destruct (Close_frame s m) as (_ & _ & Hcur & _).
  split; [|rewrite Hcur; exact Hc]. rewrite Hcur.
  unfold Close, setLeastUnrefSn.
  set (c := Int.i32 _).
  set (h := set_refCount (snaps m) s c).
  assert (Hh : live_inv h (snapshots m) (currSn m)).
  { eapply live_inv_ext; [apply length_set_refCount | apply sn_set_refCount |].
    exact Hl. }
  destruct (c =? 0)%Z; [|exact Hh].
  cbn [snaps snapshots set_snaps set_snapshots set_gcsnapshots].
  fold h.
  assert (Hd : live_inv h
                 (fst (skiplist.Delete (Snapshot_at h) (Snapshot_at h s)
                         CompareSnapshot (snapshots m))) (currSn m)).
  { destruct (Delete_shape (Snapshot_at h) (Snapshot_at h s) CompareSnapshot
                (snapshots m)) as [E|(a & e & b & El & E)]; rewrite E.
    - exact Hh.
    - rewrite El in Hh. eapply live_inv_remove; eauto. }
  destruct (skiplist.Get _ _); simpl; destruct (_ =? 0)%Z; exact Hd.
Qed.

(** *** Reachable states *)

Lemma Put2_frame (keyCmp : KeyCompare) (x : Item) (m : MemDB) :
  let m' := fst (fst (Put2 keyCmp x m)) in
  snaps m' = snaps m /\ snapshots m' = snapshots m /\ currSn m' = currSn m.
Proof.
  unfold Put2, store_Insert2.
  destruct (skiplist.Insert2 _ _ _ _ _) as [[chain r] [|]]; repeat split.
Qed.

Lemma DeleteNode'_frame (w x : ptr) (m : MemDB) :
  let m' := fst (fst (DeleteNode' w x m)) in
  snaps m' = snaps m /\ snapshots m' = snapshots m /\ currSn m' = currSn m.
Proof.
  unfold DeleteNode'.
  destruct (nodes m !! x) as [nd|]; [|repeat split].
  destruct (_ =? _)%N.
  - destruct (skiplist.DeleteNode x (store m)) as [chain [|]]; repeat split.
  - destruct (_ =? _)%N; [|repeat split].
    lazy beta iota zeta delta [fst snd]. unfold retire.
    destruct (gctail _); repeat split.
Qed.

Lemma Delete2'_frame (keyCmp : KeyCompare) (w : ptr) (x : Item) (m : MemDB) :
  let m' := fst (fst (fst (Delete2' keyCmp w x m))) in
  snaps m' = snaps m /\ snapshots m' = snapshots m /\ currSn m' = currSn m.
Proof.
  unfold Delete2'. destruct (GetNode keyCmp x m) as [n|]; [|repeat split].
  pose proof (DeleteNode'_frame w n m) as H.
  destruct (DeleteNode' w n m) as [[m' ok] how]. exact H.
Qed.

(** Every reachable state satisfies the invariants of the index and of the
    live set. *)
Lemma reachable_inv (keyCmp : KeyCompare) (m : MemDB) :
  KeyOrder keyCmp -> reachable keyCmp m ->
  store_inv keyCmp m /\ snap_inv m.
Proof.
  intros Hkey Hr. induction Hr as [|o m Hr [Hs Hp] Hadm].
  - split.
    + split; [|unfold Int.MaxUint32; simpl; lia].
      repeat split; simpl; intros; contradiction.
    + split; [|unfold Int.MaxUint32; simpl; lia].
      split; [simpl; intros; contradiction | reflexivity].
  - destruct o as [| |s|s| |x|w x|w n]; simpl in *.
    + split; [eapply store_inv_frame | eapply snap_inv_frame]; eauto.
    + split; [apply store_inv_NewSnapshot | apply snap_inv_NewSnapshot];
        assumption.
    + destruct (Open_frame s m) as (H1 & H2 & H3 & _).
      split; [eapply store_inv_frame; eauto | apply snap_inv_Open, Hp].
    + destruct (Close_frame s m) as (H1 & H2 & H3 & _).
      split; [eapply store_inv_frame; eauto | apply snap_inv_Close, Hp].
    + destruct (GC_frame m) as (H1 & H2 & H3 & _ & H5 & H6).
      split; [eapply store_inv_frame | eapply snap_inv_frame]; eauto.
    + pose proof (store_inv_Put2 keyCmp Hkey x m Hadm Hs) as H.
      pose proof (Put2_frame keyCmp x m) as (F1 & F2 & F3).
      destruct (Put2 keyCmp x m) as [[m' r] ok]. simpl in *.
      split; [exact H | eapply snap_inv_frame; eauto].
    + pose proof (Delete2'_store_inv keyCmp Hkey w x m Hs) as H.
      pose proof (Delete2'_frame keyCmp w x m) as (F1 & F2 & F3).
      destruct (Delete2' keyCmp w x m) as [[[m' r] ok] how]. simpl in *.
      split; [exact H | eapply snap_inv_frame; eauto].
    + pose proof (DeleteNode'_store_inv keyCmp Hkey w n m Hs) as H.
      pose proof (DeleteNode'_frame w n m) as (F1 & F2 & F3).
      destruct (DeleteNode' w n m) as [[m' ok] how]. simpl in *.
      split; [exact H | eapply snap_inv_frame; eauto].
Qed.

(** What the theorems on lookup, on insertion after a tombstone, on
    [leastUnrefSn] and on the failing [NewSnapshot] assume of a state holds
    in every reachable state, for a key comparator that orders the keys. *)
Lemma reachable_assumptions (keyCmp : KeyCompare) (m : MemDB) :
  KeyOrder keyCmp -> reachable keyCmp m ->
  (forall a b : list byte, keyCmp a b = 0%Z -> keyCmp b a = 0%Z)
  /\ (forall a b c : list byte,
        keyCmp a b = 0%Z -> keyCmp b c = 0%Z -> keyCmp a c = 0%Z)
  /\ ordered (insCmp keyCmp) (items m) = true
  /\ forallb stamps_fit (items m) = true
  /\ linked_allocated m = true
  /\ one_live_version keyCmp m = true
  /\ currSn m <> 0%N
  /\ (getCurrSn m <= Int.MaxUint32)%N
  /\ live_before_current m = true
  /\ ascending (sns (snaps m) (snapshots m)) = true
  /\ forallb (fun n => (0 <? n)%N) (sns (snaps m) (snapshots m)) = true.
Proof.
  intros Hkey Hr. destruct (reachable_inv keyCmp m Hkey Hr) as [Hs Hp].
  destruct (store_inv_bools keyCmp m Hs) as (H1 & H2 & H3 & H4).
  destruct (snap_inv_bools m Hp) as (H5 & H6 & H7).
  destruct Hp as [_ [Hc1 Hc2]].
  split; [apply key_sym0, Hkey|]. split; [apply key_trans0, Hkey|].
  repeat split; trivial. lia.
Qed.

(** * A database in use *)

(** ** Unlinking *)

Lemma unlink_notin {A : Type} `{EqDecision A} (n : A) (l : list A) :
  ~ In n l -> skiplist.unlink n l = l.
Proof.
  induction l as [|e l IH]; simpl; trivial.
  intros Hn. destruct (decide (e = n)) as [->|Hne]; [tauto|].
  f_equal. apply IH. tauto.
Qed.

Lemma DeleteNode_unlink {A : Type} `{EqDecision A} (n : A) (l : list A) :
  fst (skiplist.DeleteNode n l) = skiplist.unlink n l.
Proof.
  unfold skiplist.DeleteNode. destruct (decide (n ∈ l)) as [Hin|Hin]; simpl; trivial.
  symmetry. apply unlink_notin. intros H. apply Hin, list_elem_of_In, H.
Qed.

Lemma filter_map_unlink {A B : Type} `{EqDecision A} (g : A -> B)
    (P : B -> bool) (n : A) (l : list A) :
  P (g n) = false ->
  List.filter P (map g (skiplist.unlink n l)) = List.filter P (map g l).
Proof.
  intros Hn. induction l as [|e l IH]; simpl; trivial.
  destruct (decide (e = n)) as [->|Hne].
  - rewrite Hn. reflexivity.
  - simpl. rewrite IH. reflexivity.
Qed.


Lemma NoDup_unlink {A : Type} `{EqDecision A} (n : A) (l : list A) :
  List.NoDup l -> List.NoDup (skiplist.unlink n l).
Proof.
  induction l as [|e l IH]; simpl; trivial.
  intros Hd. apply List.NoDup_cons_iff in Hd as [Hn Hd].
  destruct (decide (e = n)); trivial.
  apply List.NoDup_cons; [|apply IH, Hd].
  intros Hin. apply Hn. revert Hin. clear. induction l as [|a l IH]; simpl; trivial.
  destruct (decide (a = n)); simpl; tauto.
Qed.

Lemma unlink_gone {A : Type} `{EqDecision A} (n : A) (l : list A) :
  List.NoDup l -> ~ In n (skiplist.unlink n l).
Proof.
  induction l as [|e l IH]; simpl; [tauto|].
  intros Hd. apply List.NoDup_cons_iff in Hd as [Hn Hd].
  destruct (decide (e = n)) as [->|Hne]; trivial.
  simpl. intros [E|Hin]; [contradiction | exact (IH Hd Hin)].
Qed.

Lemma unlink_keeps {A : Type} `{EqDecision A} (n e : A) (l : list A) :
  In e l -> e <> n -> In e (skiplist.unlink n l).
Proof.
  induction l as [|a l IH]; simpl; trivial.
  intros [->|Hin] Hne.
  - destruct (decide (e = n)); [contradiction | left; reflexivity].
  - destruct (decide (a = n)); [exact Hin | right; apply IH; assumption].
Qed.

Lemma unlink_subset {A : Type} `{EqDecision A} (n e : A) (l : list A) :
  In e (skiplist.unlink n l) -> In e l.
Proof.
  induction l as [|a l IH]; simpl; trivial.
  destruct (decide (a = n)); simpl; tauto.
Qed.

(** The length of a filtered chain falls by one when an entry that passes
    the filter is unlinked. *)
Lemma filter_unlink_one {A : Type} `{EqDecision A} (P : A -> bool) (n : A)
    (l : list A) :
  In n l -> P n = true ->
  S (length (List.filter P (skiplist.unlink n l))) = length (List.filter P l).
Proof.
  induction l as [|e l IH]; simpl; [tauto|].
  intros Hin Hn. destruct (decide (e = n)) as [->|Hne].
  - rewrite Hn. reflexivity.
  - destruct Hin as [E|Hin]; [contradiction|]. simpl.
    destruct (P e); simpl; rewrite <- (IH Hin Hn); reflexivity.
Qed.

Lemma filter_map_unlinks {A B : Type} `{EqDecision A} (g : A -> B)
    (P : B -> bool) (ks : list A) (l : list A) :
  Forall (fun k => P (g k) = false) ks ->
  List.filter P (map g (unlinks ks l)) = List.filter P (map g l).
Proof.
  revert l. induction ks as [|k ks IH]; intros l Hks; simpl; trivial.
  apply Forall_cons_1 in Hks as [Hk Hks].
  unfold unlinks in *. rewrite IH by exact Hks.
  apply filter_map_unlink, Hk.
Qed.

Lemma unlinks_subset {A : Type} `{EqDecision A} (ks : list A) (l : list A)
    (e : A) :
  In e (unlinks ks l) -> In e l.
Proof.
  revert l. induction ks as [|k ks IH]; intros l; simpl; trivial.
  intros H. apply (unlink_subset k), IH, H.
Qed.

Lemma NoDup_unlinks {A : Type} `{EqDecision A} (ks : list A) (l : list A) :
  List.NoDup l -> List.NoDup (unlinks ks l).
Proof.
  revert l. induction ks as [|k ks IH]; intros l; simpl; trivial.
  intros H. apply IH, NoDup_unlink, H.
Qed.

(** An entry of the chain is unlinked only when it is one of the nodes. *)
Lemma unlinks_keeps {A : Type} `{EqDecision A} (ks : list A) (l : list A)
    (e : A) :
  In e l -> ~ In e ks -> In e (unlinks ks l).
Proof.
  revert l. induction ks as [|k ks IH]; intros l; simpl; trivial.
  intros Hin Hn. apply IH; [|tauto]. apply unlink_keeps; [exact Hin|].
  intros ->. tauto.
Qed.

(** ** The collector *)

(** The walk of the collector changes the index only; what it unlinks are
    nodes of the list it received, all with the [deadSn] of its head. *)
Lemma collectionWorker_loop_spec (fuel : nat) (n : option ptr) (m : MemDB)
    (d : N) :
  (forall a k, GClink_at (nodes m) a = Some k ->
     deadSn (Item_at (nodes m) a) <> 0%N
     /\ deadSn (Item_at (nodes m) k) = deadSn (Item_at (nodes m) a)) ->
  (forall p, n = Some p -> deadSn (Item_at (nodes m) p) = d) ->
  exists ks,
    collectionWorker_loop fuel n m = set_store m (unlinks ks (store m))
    /\ Forall (fun k => deadSn (Item_at (nodes m) k) = d) ks.
Proof.
  revert n m. induction fuel as [|fuel IH]; intros n m Hl Hn.
  - exists []. simpl. split; [destruct m; reflexivity | constructor].
  - destruct n as [p|]; simpl.
    2:{ exists []. simpl. split; [destruct m; reflexivity | constructor]. }
    set (m1 := set_store m (fst (skiplist.DeleteNode p (store m)))).
    destruct (IH (GClink_at (nodes m) p) m1) as (ks & E & Hks).
    + exact Hl.
    + intros k Hk. destruct (Hl p k Hk) as [_ H]. simpl. rewrite H.
      apply Hn. reflexivity.
    + exists (p :: ks). split.
      * change (nodes m1) with (nodes m) in E. rewrite E. unfold m1. simpl.
        rewrite DeleteNode_unlink. reflexivity.
      * constructor; [apply Hn; reflexivity | exact Hks].
Qed.

(** ** The links of the heap *)

Lemma GClink_at_alloc (h : list Node) (x : Item) (e : ptr) :
  GClink_at (h ++ [mkNode x None]) e = GClink_at h e.
Proof.
  unfold GClink_at.
  destruct (decide (e < length h)) as [Hlt|Hge].
  - rewrite lookup_app_l by exact Hlt. reflexivity.
  - rewrite lookup_app_r by lia.
    rewrite (lookup_ge_None_2 h e) by lia.
    destruct (e - length h) as [|k]; simpl; reflexivity.
Qed.

Lemma GClink_at_set_Item (h : list Node) (n : ptr) (x : Item) (e : ptr) :
  GClink_at (set_Item h n x) e = GClink_at h e.
Proof.
  unfold GClink_at, set_Item. destruct (h !! n) as [nd|] eqn:En; trivial.
  destruct (decide (n = e)) as [->|Hne].
  - rewrite list_lookup_insert_eq by (eapply lookup_lt_Some; eauto).
    rewrite En. reflexivity.
  - rewrite list_lookup_insert_ne by assumption. reflexivity.
Qed.

Lemma GClink_at_set_GClink (h : list Node) (t : ptr) (l : option ptr)
    (e : ptr) :
  GClink_at (set_GClink h t l) e
  = if decide (e = t) then (if decide (t < length h) then l else None)
    else GClink_at h e.
Proof.
  unfold GClink_at, set_GClink. destruct (h !! t) as [nd|] eqn:Et.
  - assert (Hlt : t < length h) by (eapply lookup_lt_Some; eauto).
    destruct (decide (e = t)) as [->|Hne].
    + rewrite list_lookup_insert_eq by exact Hlt.
      destruct (decide (t < length h)); [reflexivity | contradiction].
    + rewrite list_lookup_insert_ne by congruence. reflexivity.
  - assert (Hge : ~ t < length h).
    { intros Hlt. apply lookup_lt_is_Some_2 in Hlt as [nd Hnd]. congruence. }
    destruct (decide (e = t)) as [->|Hne]; [|reflexivity].
    rewrite Et. destruct (decide (t < length h)); [contradiction | reflexivity].
Qed.

(** A tombstoned node is allocated. *)
Lemma dead_allocated (h : list Node) (p : ptr) :
  deadSn (Item_at h p) <> 0%N -> p < length h.
Proof.
  unfold Item_at. intros H. destruct (h !! p) as [nd|] eqn:E.
  - eapply lookup_lt_Some; eauto.
  - simpl in H. contradiction.
Qed.

(** ** The stamps of the retired lists are kept *)

(** A change of state that keeps the [deadSn] and the link of every node,
    the writers, the [sn] and the list of every snapshot, the live set,
    [leastUnrefSn] and [currSn], and that adds nothing to the channel. *)
Lemma gc_inv_ext (m m' : MemDB) :
  (forall e, deadSn (Item_at (nodes m') e) = deadSn (Item_at (nodes m) e)) ->
  (forall e, GClink_at (nodes m') e = GClink_at (nodes m) e) ->
  writers m' = writers m ->
  (forall s sp', snaps m' !! s = Some sp' ->
     exists sp, snaps m !! s = Some sp /\ sn sp' = sn sp
                /\ gclist sp' = gclist sp) ->
  (forall s, sn (Snapshot_at (snaps m') s) = sn (Snapshot_at (snaps m) s)) ->
  length (snaps m') = length (snaps m) ->
  snapshots m' = snapshots m ->
  (forall p, In (Some p) (gcchan m') -> In (Some p) (gcchan m)) ->
  leastUnrefSn m' = leastUnrefSn m -> currSn m' = currSn m ->
  gc_inv m -> gc_inv m'.
Proof.
  intros Hd Hl Hw Hs Hsn Hlen Hlive Hch Hleast Hcur [I1 I2 I3 I4 I5 I6 I7 I8].
  constructor.
  - intros n k Hk. rewrite Hl in Hk. rewrite !Hd. apply I1, Hk.
  - intros w wr p Hwr Hp. rewrite Hw in Hwr. rewrite Hd, Hcur.
    eapply I2; eauto.
  - intros s sp' Hsp. destruct (Hs s sp' Hsp) as (sp & Hsp0 & E1 & E2).
    destruct (I3 s sp Hsp0) as [Hr Hg]. rewrite E1, E2, Hcur.
    split; [exact Hr|]. intros p Hp. rewrite Hd. apply Hg, Hp.
  - intros p Hp. rewrite Hd, Hleast. apply I4, Hch, Hp.
  - intros s Hin. rewrite Hleast, Hsn. apply I5. rewrite <- Hlive. exact Hin.
  - rewrite Hleast, Hcur. exact I6.
  - intros i j Hij Hj. rewrite !Hsn. apply I7; [exact Hij | lia].
  - rewrite Hlive. exact I8.
Qed.

Lemma gc_inv_New : gc_inv New.
Proof.
  constructor; simpl.
  - intros n k H. unfold GClink_at in H. rewrite lookup_nil in H. discriminate.
  - intros w wr p H. rewrite lookup_nil in H. discriminate.
  - intros s sp H. rewrite lookup_nil in H. discriminate.
  - intros p [].
  - intros s [].
  - lia.
  - intros i j _ Hj. lia.
  - constructor.
Qed.

Lemma gc_inv_NewWriter (m : MemDB) : gc_inv m -> gc_inv (fst (NewWriter m)).
Proof.
  intros [I1 I2 I3 I4 I5 I6 I7 I8]. constructor; simpl; trivial.
  intros w wr p Hwr Hp.
  apply lookup_app_Some in Hwr as [Hwr|[_ Hwr]]; [eapply I2; eauto|].
  destruct (w - length (writers m)) as [|k]; simpl in Hwr; [|discriminate].
  injection Hwr as <-. simpl in Hp. destruct Hp; discriminate.
Qed.

Lemma gc_inv_Put2 (keyCmp : KeyCompare) (x : Item) (m : MemDB) :
  deadSn x = 0%N -> gc_inv m -> gc_inv (fst (fst (Put2 keyCmp x m))).
Proof.
  intros Hx Hm. unfold Put2, store_Insert2, skiplist.Insert2.
  destruct (List.find _ (store m)) as [e|]; simpl; [exact Hm|].
  eapply gc_inv_ext; [| | | | | | | | | |exact Hm]; simpl; trivial.
  - intros e. rewrite Item_at_alloc.
    destruct (decide (e = length (nodes m))) as [->|Hne].
    + simpl. rewrite Hx. unfold Item_at.
      rewrite lookup_ge_None_2 by lia. reflexivity.
    + destruct (decide (e < length (nodes m))); [reflexivity|].
      unfold Item_at. rewrite lookup_ge_None_2 by lia. reflexivity.
  - intros e. apply GClink_at_alloc.
  - intros s sp' H. exists sp'. auto.
Qed.

(** The tombstoning path of [DeleteNode]. *)
Lemma gc_inv_tombstone (w x : ptr) (m : MemDB) (nd : Node) :
  nodes m !! x = Some nd -> deadSn (itm nd) = 0%N -> currSn m <> 0%N ->
  gc_inv m ->
  gc_inv (retire w x
            (set_nodes m (set_Item (nodes m) x
                            (set_deadSn (itm nd) (getCurrSn m))))).
Proof.
  intros Hnd Hlive Hc [I1 I2 I3 I4 I5 I6 I7 I8].
  assert (Hlt : x < length (nodes m)) by (eapply lookup_lt_Some; eauto).
  assert (Hx0 : deadSn (Item_at (nodes m) x) = 0%N).
  { unfold Item_at. rewrite Hnd. exact Hlive. }
  set (h1 := set_Item (nodes m) x (set_deadSn (itm nd) (getCurrSn m))).
  assert (Hd1 : forall e, deadSn (Item_at h1 e)
                = if decide (e = x) then currSn m
                  else deadSn (Item_at (nodes m) e)).
  { intros e. unfold h1. rewrite Item_at_set_Item by exact Hlt.
    destruct (decide (e = x)); reflexivity. }
  assert (Hkeep : forall e, deadSn (Item_at (nodes m) e) <> 0%N ->
            deadSn (Item_at h1 e) = deadSn (Item_at (nodes m) e)).
  { intros e He. rewrite Hd1. destruct (decide (e = x)) as [->|]; congruence. }
  assert (Hl1 : forall e, GClink_at h1 e = GClink_at (nodes m) e).
  { intros e. apply GClink_at_set_Item. }
  unfold retire. cbn [writers nodes set_nodes].
  destruct (gctail (Writer_at (writers m) w)) as [t|] eqn:Et.
  - (* appended behind the tail *)
    assert (Hw : exists wr, writers m !! w = Some wr /\ gctail wr = Some t).
    { unfold Writer_at in Et. destruct (writers m !! w) as [wr|] eqn:Ew;
        [eauto | discriminate]. }
    destruct Hw as (wr & Hwr & Hwt).
    assert (Ht : deadSn (Item_at (nodes m) t) = currSn m) by (eapply I2; eauto).
    assert (Htx : t <> x) by congruence.
    assert (Htl : t < length h1).
    { unfold h1. rewrite length_set_Item. apply dead_allocated. congruence. }
    constructor; cbn [nodes writers snaps gcchan snapshots leastUnrefSn currSn
                      set_writers set_nodes].
    + intros n k Hk. rewrite !Item_at_set_GClink.
      rewrite GClink_at_set_GClink in Hk.
      destruct (decide (n = t)) as [->|Hnt].
      * destruct (decide (t < length h1)); [|contradiction].
        injection Hk as <-. rewrite !Hd1.
        destruct (decide (t = x)); [contradiction|].
        destruct (decide (x = x)); [|contradiction].
        rewrite Ht. split; [exact Hc | reflexivity].
      * rewrite Hl1 in Hk. destruct (I1 n k Hk) as [Hn Hkn].
        rewrite (Hkeep n Hn), (Hkeep k) by congruence. split; assumption.
    + intros w' wr' p Hwr' Hp. rewrite Item_at_set_GClink.
      destruct (decide (w' = w)) as [->|Hne].
      * rewrite list_lookup_insert_eq in Hwr'
          by (eapply lookup_lt_Some; eauto).
        injection Hwr' as <-. simpl in Hp.
        destruct Hp as [Hp|Hp].
        -- unfold Writer_at in Hp. rewrite Hwr in Hp.
           assert (Hp' : deadSn (Item_at (nodes m) p) = currSn m)
             by (eapply I2; eauto).
           rewrite Hkeep; congruence.
        -- injection Hp as <-. rewrite Hd1.
           destruct (decide (x = x)); [reflexivity | contradiction].
      * rewrite list_lookup_insert_ne in Hwr' by congruence.
        assert (Hp' : deadSn (Item_at (nodes m) p) = currSn m)
          by (eapply I2; eauto).
        rewrite Hkeep; congruence.
    + intros s sp Hsp. destruct (I3 s sp Hsp) as [Hr Hg].
      split; [exact Hr|]. intros p Hp. rewrite Item_at_set_GClink.
      specialize (Hg p Hp). rewrite Hkeep; [exact Hg|]. lia.
    + intros p Hp. rewrite Item_at_set_GClink. specialize (I4 p Hp).
      rewrite Hkeep; [exact I4|]. lia.
    + exact I5.
    + exact I6.
    + exact I7.
    + exact I8.
  - (* the list was empty *)
    constructor; cbn [nodes writers snaps gcchan snapshots leastUnrefSn currSn
                      set_writers set_nodes].
    + intros n k Hk. rewrite Hl1 in Hk. destruct (I1 n k Hk) as [Hn Hkn].
      rewrite (Hkeep n Hn), (Hkeep k) by congruence. split; assumption.
    + intros w' wr' p Hwr' Hp.
      destruct (decide (w' = w)) as [->|Hne].
      * destruct (writers m !! w) as [wr|] eqn:Hwr.
        -- rewrite list_lookup_insert_eq in Hwr'
             by (eapply lookup_lt_Some; eauto).
           injection Hwr' as <-. simpl in Hp.
           assert (p = x) by (destruct Hp; congruence). subst p.
           rewrite Hd1. destruct (decide (x = x)); [reflexivity | contradiction].
        -- rewrite list_insert_ge in Hwr'
             by (apply lookup_ge_None; exact Hwr).
           congruence.
      * rewrite list_lookup_insert_ne in Hwr' by congruence.
        assert (Hp' : deadSn (Item_at (nodes m) p) = currSn m)
          by (eapply I2; eauto).
        rewrite Hkeep; congruence.
    + intros s sp Hsp. destruct (I3 s sp Hsp) as [Hr Hg].
      split; [exact Hr|]. intros p Hp.
      specialize (Hg p Hp). rewrite Hkeep; [exact Hg|]. lia.
    + intros p Hp. specialize (I4 p Hp).
      rewrite Hkeep; [exact I4|]. lia.
    + exact I5.
    + exact I6.
    + exact I7.
    + exact I8.
Qed.

Lemma gc_inv_set_count (m : MemDB) (c : Z) : gc_inv m -> gc_inv (set_count m c).
Proof. intros [? ? ? ? ? ? ? ?]. constructor; assumption. Qed.

Lemma gc_inv_set_store (m : MemDB) (l : list ptr) :
  gc_inv m -> gc_inv (set_store m l).
Proof. intros [? ? ? ? ? ? ? ?]. constructor; assumption. Qed.

Lemma gc_inv_DeleteNode' (w x : ptr) (m : MemDB) :
  currSn m <> 0%N -> gc_inv m -> gc_inv (fst (fst (DeleteNode' w x m))).
Proof.
  intros Hc Hm. unfold DeleteNode'.
  destruct (nodes m !! x) as [nd|] eqn:End; [|exact Hm].
  destruct (bornSn (itm nd) =? getCurrSn m)%N.
  - destruct (skiplist.DeleteNode x (store m)) as [chain [|]];
      lazy beta iota zeta delta [fst snd].
    + apply gc_inv_set_count, gc_inv_set_store, Hm.
    + apply gc_inv_set_store, Hm.
  - destruct (N.eqb_spec (deadSn (itm nd)) 0) as [D|D];
      lazy beta iota zeta delta [fst snd]; [|exact Hm].
    apply gc_inv_set_count. apply gc_inv_tombstone; assumption.
Qed.

Lemma gc_inv_Delete2' (keyCmp : KeyCompare) (w : ptr) (x : Item) (m : MemDB) :
  currSn m <> 0%N -> gc_inv m ->
  gc_inv (fst (fst (fst (Delete2' keyCmp w x m)))).
Proof.
  intros Hc Hm. unfold Delete2'.
  destruct (GetNode keyCmp x m) as [n|]; [|exact Hm].
  pose proof (gc_inv_DeleteNode' w n m Hc Hm) as H.
  destruct (DeleteNode' w n m) as [[m' ok] how]. exact H.
Qed.

(** The harvest of [NewSnapshot]. *)
Lemma stitch_gc (c : N) (ws : list ptr) (head tail : option ptr)
    (hn : list Node) (hw : list Writer) :
  c <> 0%N ->
  (forall n k, GClink_at hn n = Some k ->
     deadSn (Item_at hn n) <> 0%N /\ deadSn (Item_at hn k) = deadSn (Item_at hn n)) ->
  (forall p, head = Some p \/ tail = Some p -> deadSn (Item_at hn p) = c) ->
  (forall w wr p, hw !! w = Some wr ->
     gchead wr = Some p \/ gctail wr = Some p -> deadSn (Item_at hn p) = c) ->
  let r := stitch ws head tail hn hw in
  let hn' := snd (fst r) in
  (forall n k, GClink_at hn' n = Some k ->
     deadSn (Item_at hn' n) <> 0%N
     /\ deadSn (Item_at hn' k) = deadSn (Item_at hn' n))
  /\ (forall p, fst (fst (fst r)) = Some p -> deadSn (Item_at hn' p) = c)
  /\ (forall w wr, snd r !! w = Some wr ->
        wr = mkWriter None None \/ (~ In w ws /\ hw !! w = Some wr)).
Proof.
  intros Hc. revert head tail hn hw.
  induction ws as [|w ws IH]; intros head tail hn hw Hl Hht Hw; simpl.
  - split; [exact Hl|]. split; [intros p Hp; apply Hht; auto|].
    intros w wr Hwr. right. split; [tauto | exact Hwr].
  - set (wr0 := Writer_at hw w).
    assert (Hwr0 : forall p, gchead wr0 = Some p \/ gctail wr0 = Some p ->
              deadSn (Item_at hn p) = c).
    { intros p Hp. unfold wr0, Writer_at in Hp.
      destruct (hw !! w) as [wr|] eqn:E; [eapply Hw; eauto|].
      simpl in Hp. destruct Hp; discriminate. }
    assert (Hclear : forall w' wr p,
              <[w := mkWriter None None]> hw !! w' = Some wr ->
              gchead wr = Some p \/ gctail wr = Some p ->
              forall hn0, (forall e, Item_at hn0 e = Item_at hn e) ->
              deadSn (Item_at hn0 p) = c).
    { intros w' wr p Hwr Hp hn0 Hhn0. rewrite Hhn0.
      destruct (decide (w = w')) as [->|Hne].
      - destruct (decide (w' < length hw)) as [Hlt|Hge].
        + rewrite list_lookup_insert_eq in Hwr by exact Hlt.
          injection Hwr as <-. simpl in Hp. destruct Hp; discriminate.
        + rewrite list_insert_ge in Hwr by lia. eapply Hw; eauto.
      - rewrite list_lookup_insert_ne in Hwr by exact Hne. eapply Hw; eauto. }
    assert (Hback : forall (r : option ptr * option ptr * list Node * list Writer),
              (forall w' wr, snd r !! w' = Some wr ->
                 wr = mkWriter None None
                 \/ (~ In w' ws /\ <[w := mkWriter None None]> hw !! w' = Some wr)) ->
              forall w' wr, snd r !! w' = Some wr ->
                 wr = mkWriter None None
                 \/ (~ In w' (w :: ws) /\ hw !! w' = Some wr)).
    { intros r Hr w' wr Hwr. destruct (Hr w' wr Hwr) as [E|[Hn E]]; [auto|].
      destruct (decide (w = w')) as [->|Hne].
      - destruct (decide (w' < length hw)) as [Hlt|Hge].
        + rewrite list_lookup_insert_eq in E by exact Hlt.
          injection E as <-. auto.
        + rewrite list_insert_ge in E by lia.
          apply lookup_lt_Some in E. lia.
      - rewrite list_lookup_insert_ne in E by exact Hne.
        right. split; [simpl; tauto | exact E]. }
    destruct tail as [t|].
    + destruct (gchead wr0) as [g|] eqn:Eg.
      * (* the list of this writer is linked behind the tail *)
        assert (Ht : deadSn (Item_at hn t) = c) by (apply Hht; auto).
        assert (Hg : deadSn (Item_at hn g) = c) by (apply Hwr0; auto).
        match goal with |- context [stitch ws ?a ?b ?c0 ?d] =>
          destruct (IH a b c0 d) as (J1 & J2 & J3) end.
        -- intros n k Hk. rewrite !Item_at_set_GClink.
           rewrite GClink_at_set_GClink in Hk.
           destruct (decide (n = t)) as [->|Hne]; [|apply Hl, Hk].
           destruct (decide (t < length hn)); [|discriminate].
           injection Hk as <-. rewrite Ht, Hg. split; [exact Hc | reflexivity].
        -- intros p Hp. rewrite Item_at_set_GClink.
           destruct Hp as [Hp|Hp]; [apply Hht; auto | apply Hwr0; auto].
        -- intros w' wr p Hwr Hp. eapply Hclear; eauto.
           intros e. apply Item_at_set_GClink.
        -- split; [exact J1|]. split; [exact J2|]. apply Hback, J3.
      * match goal with |- context [stitch ws ?a ?b ?c0 ?d] =>
          destruct (IH a b c0 d) as (J1 & J2 & J3) end.
        -- exact Hl.
        -- exact Hht.
        -- intros w' wr p Hwr Hp. eapply Hclear; eauto.
        -- split; [exact J1|]. split; [exact J2|]. apply Hback, J3.
    + match goal with |- context [stitch ws ?a ?b ?c0 ?d] =>
        destruct (IH a b c0 d) as (J1 & J2 & J3) end.
      * exact Hl.
      * intros p Hp. apply Hwr0. exact Hp.
      * intros w' wr p Hwr Hp. eapply Hclear; eauto.
      * split; [exact J1|]. split; [exact J2|]. apply Hback, J3.
Qed.

Lemma in_wlist (m : MemDB) (w : ptr) :
  w < length (writers m) -> In w (wlist m).
Proof.
  intros H. unfold wlist. rewrite <- in_rev. apply in_seq. lia.
Qed.

Lemma in_Insert {A K : Type} (get : A -> K) (n : A) (cmp : CompareFn K)
    (l : list A) (e : A) :
  In e (fst (skiplist.Insert get n cmp l)) -> e = n \/ In e l.
Proof.
  unfold skiplist.Insert.
  destruct (skiplist.seek get cmp (get n) l) as [|a rest] eqn:Es.
  - simpl. rewrite in_app_iff. simpl. intros [H|[H|[]]]; auto.
    right. pose proof (preds_seek get cmp (get n) l) as E. rewrite Es in E.
    rewrite app_nil_r in E. rewrite <- E. exact H.
  - destruct (cmp (get a) (get n) =? 0)%Z; simpl; [auto|].
    rewrite <- Es. intros H. apply in_Insert_chain in H. exact H.
Qed.

Lemma live_allocated (m : MemDB) (s : ptr) :
  (leastUnrefSn m < sn (Snapshot_at (snaps m) s))%N -> s < length (snaps m).
Proof.
  unfold Snapshot_at. intros H. destruct (snaps m !! s) as [sp|] eqn:E.
  - eapply lookup_lt_Some; eauto.
  - simpl in H. lia.
Qed.

Lemma gc_inv_NewSnapshot (m : MemDB) :
  (currSn m + 1 < Int.MaxUint32)%N -> currSn m <> 0%N ->
  gc_inv m -> gc_inv (fst (NewSnapshot m)).
Proof.
  intros Hlim Hc [I1 I2 I3 I4 I5 I6 I7 I8].
  assert (Hnew : Int.add32 (currSn m) 1 = (currSn m + 1)%N)
    by (apply add32_succ; lia).
  unfold NewSnapshot, getCurrSn, ItemsCount.
  cbn [snaps snapshots currSn nodes writers set_snaps set_snapshots set_currSn].
  rewrite Hnew.
  destruct (N.eqb_spec (currSn m + 1) Int.MaxUint32) as [E|_]; [lia|].
  set (h0 := snaps m ++ [mkSnapshot (currSn m) 1 (count m) None]).
  set (live' := fst (skiplist.Insert (Snapshot_at h0) (length (snaps m))
                       CompareSnapshot (snapshots m))).
  match goal with |- context [stitch ?a ?b ?c0 ?d ?e] =>
    pose proof (stitch_gc (currSn m) a b c0 d e Hc) as Hst;
    pose proof (stitch_nodes a b c0 d e) as [_ Hitems];
    destruct (stitch a b c0 d e) as [[[hd tl] hn] hw] eqn:Est end.
  cbn [fst snd] in Hst, Hitems.
  destruct Hst as (J1 & J2 & J3).
  { exact I1. }
  { intros p [Hp|Hp]; discriminate. }
  { intros w wr p Hwr Hp. eapply I2; eauto. }
  assert (Hcleared : forall w wr, hw !! w = Some wr -> wr = mkWriter None None).
  { intros w wr Hwr. destruct (J3 w wr Hwr) as [E|[Hn Hw]]; [exact E|].
    exfalso. apply Hn. apply in_wlist. simpl.
    apply lookup_lt_Some in Hw. exact Hw. }
  constructor; cbn [fst nodes writers snaps snapshots gcchan leastUnrefSn
                    currSn set_nodes set_writers set_snaps set_currSn
                    set_snapshots].
  - exact J1.
  - intros w wr p Hwr Hp. rewrite (Hcleared w wr Hwr) in Hp.
    simpl in Hp. destruct Hp; discriminate.
  - intros s sp Hsp.
    destruct (decide (s = length (snaps m))) as [->|Hne].
    + assert (E0 : h0 !! length (snaps m)
                   = Some (mkSnapshot (currSn m) 1 (count m) None)).
      { unfold h0. rewrite lookup_app_r by lia. rewrite Nat.sub_diag.
        reflexivity. }
      rewrite (set_gclist_lookup _ _ _ hd E0) in Hsp. injection Hsp as <-.
      simpl. split; [lia|]. exact J2.
    + unfold set_gclist in Hsp.
      destruct (h0 !! length (snaps m)); [|].
      * rewrite list_lookup_insert_ne in Hsp by congruence.
        unfold h0 in Hsp. apply lookup_app_Some in Hsp as [Hsp|[Hge Hsp]].
        -- destruct (I3 s sp Hsp) as [Hr Hg]. split; [lia|].
           intros p Hp. rewrite Hitems. apply Hg, Hp.
        -- destruct (s - length (snaps m)) as [|k] eqn:Ek; [lia|].
           simpl in Hsp. discriminate.
      * unfold h0 in Hsp. apply lookup_app_Some in Hsp as [Hsp|[Hge Hsp]].
        -- destruct (I3 s sp Hsp) as [Hr Hg]. split; [lia|].
           intros p Hp. rewrite Hitems. apply Hg, Hp.
        -- destruct (s - length (snaps m)) as [|k] eqn:Ek; [lia|].
           simpl in Hsp. discriminate.
  - intros p Hp. rewrite Hitems. apply I4, Hp.
  - intros s Hs. rewrite sn_set_gclist. unfold live' in Hs.
    apply in_Insert in Hs as [->|Hs].
    + unfold h0. rewrite Snapshot_at_new. simpl. exact I6.
    + specialize (I5 s Hs). unfold h0.
      rewrite Snapshot_at_alloc by (apply live_allocated, I5). exact I5.
  - lia.
  - intros i j Hij Hj. rewrite length_set_gclist in Hj. rewrite !sn_set_gclist.
    unfold h0 in *. rewrite length_app in Hj. simpl in Hj.
    destruct (decide (j = length (snaps m))) as [->|Hne].
    + rewrite Snapshot_at_new, Snapshot_at_alloc by exact Hij. simpl.
      apply lookup_lt_is_Some_2 in Hij as [sp Hsp].
      unfold Snapshot_at. rewrite Hsp. destruct (I3 i sp Hsp) as [Hr _]. lia.
    + rewrite !Snapshot_at_alloc by lia. apply I7; lia.
  - unfold live', skiplist.Insert.
    assert (Hfresh : ~ In (length (snaps m)) (snapshots m)).
    { intros Hin. pose proof (live_allocated m _ (I5 _ Hin)). lia. }
    assert (Hadd : List.NoDup
                     (skiplist.preds (Snapshot_at h0) CompareSnapshot
                        (Snapshot_at h0 (length (snaps m))) (snapshots m)
                      ++ length (snaps m)
                         :: skiplist.seek (Snapshot_at h0) CompareSnapshot
                              (Snapshot_at h0 (length (snaps m))) (snapshots m))).
    { eapply List.NoDup_Add; [apply Add_app|]. rewrite preds_seek.
      split; assumption. }
    destruct (skiplist.seek (Snapshot_at h0) CompareSnapshot
                (Snapshot_at h0 (length (snaps m))) (snapshots m))
      as [|e rest] eqn:Es.
    + simpl. exact Hadd.
    + destruct (_ =? 0)%Z; simpl; [exact I8 | exact Hadd].
Qed.

Lemma set_refCount_lookup (h : list Snapshot) (s : ptr) (c : Z) (p : ptr)
    (sp' : Snapshot) :
  set_refCount h s c !! p = Some sp' ->
  exists sp, h !! p = Some sp /\ sn sp' = sn sp /\ gclist sp' = gclist sp.
Proof.
  unfold set_refCount. destruct (h !! s) as [s0|] eqn:Es; [|eauto].
  destruct (decide (s = p)) as [->|Hne].
  - rewrite list_lookup_insert_eq by (eapply lookup_lt_Some; eauto).
    intros H. injection H as <-. exists s0. auto.
  - rewrite list_lookup_insert_ne by exact Hne. eauto.
Qed.

Lemma gc_inv_Open (s : ptr) (m : MemDB) : gc_inv m -> gc_inv (fst (Open s m)).
Proof.
  intros Hm. unfold Open. destruct (_ =? _)%Z; simpl; [exact Hm|].
  eapply gc_inv_ext; [| | | | | | | | | |exact Hm]; simpl; trivial.
  - intros p sp'. apply set_refCount_lookup.
  - intros p. apply sn_set_refCount.
  - apply length_set_refCount.
Qed.

Lemma Close_frame_gc (s : ptr) (m : MemDB) :
  writers (Close s m) = writers m /\ gcchan (Close s m) = gcchan m
  /\ nodes (Close s m) = nodes m /\ currSn (Close s m) = currSn m.
Proof.
  unfold Close, setLeastUnrefSn. destruct (_ =? 0)%Z; [|repeat split].
  cbn [snaps snapshots set_snaps set_snapshots set_gcsnapshots].
  destruct (skiplist.Get _ _); simpl; destruct (_ =? 0)%Z; repeat split.
Qed.

Lemma Close_keeps_reference (s : ptr) (m : MemDB) :
  Int.i32 (refCount (Snapshot_at (snaps m) s) + -1) <> 0%Z ->
  Close s m
  = set_snaps m (set_refCount (snaps m) s
                   (Int.i32 (refCount (Snapshot_at (snaps m) s) + -1))).
Proof.
  intros H. unfold Close. apply Z.eqb_neq in H. rewrite H. reflexivity.
Qed.

(** The first entry of an ascending live set has the least [sn]. *)
Lemma ascending_head (h : list Snapshot) (d : ptr) (l : list ptr) :
  ascending (sns h (d :: l)) = true ->
  forall s, In s (d :: l) -> (sn (Snapshot_at h d) <= sn (Snapshot_at h s))%N.
Proof.
  simpl. intros Ha s [<-|Hs]; [lia|].
  apply andb_true_iff in Ha as [Hmin _]. rewrite forallb_forall in Hmin.
  apply N.leb_le, Hmin. apply (in_map (fun s0 => sn (Snapshot_at h s0))), Hs.
Qed.

(** [Close] does not lower [leastUnrefSn], and leaves it below every
    snapshot that stays live and below the current sequence. *)
Lemma Close_least (s : ptr) (m : MemDB) :
  snap_inv m -> gc_inv m ->
  (leastUnrefSn m <= leastUnrefSn (Close s m))%N
  /\ (forall p, In p (snapshots (Close s m)) ->
        In p (snapshots m)
        /\ (leastUnrefSn (Close s m)
            < sn (Snapshot_at (snaps (Close s m)) p))%N)
  /\ (leastUnrefSn (Close s m) < currSn m)%N.
Proof.
  intros Hsnap [I1 I2 I3 I4 I5 I6 I7 I8].
  assert (Hsn : forall c p,
            sn (Snapshot_at (set_refCount (snaps m) s c) p)
            = sn (Snapshot_at (snaps m) p))
    by (intros c p; apply sn_set_refCount).
  destruct (Z.eq_dec (Int.i32 (refCount (Snapshot_at (snaps m) s) + -1)) 0%Z)
    as [H0|H0].
  2:{ rewrite (Close_keeps_reference s m H0). simpl.
      split; [lia|]. split; [|exact I6].
      intros p Hp. split; [exact Hp|]. rewrite Hsn. apply I5, Hp. }
  destruct (Close_last_reference s m H0) as (Hh & Hlive & Hleast).
  cbv zeta in Hlive, Hleast.
  set (h := set_refCount (snaps m) s 0) in *.
  set (live' := fst (skiplist.Delete (Snapshot_at h) (Snapshot_at h s)
                       CompareSnapshot (snapshots m))) in *.
  pose proof (snap_inv_Close s m Hsnap) as [[Hl' Ha'] Hc'].
  destruct (Close_frame s m) as (_ & _ & Hcur & _).
  rewrite Hh, Hlive in Hl', Ha'. rewrite Hcur in Hl', Hc'.
  assert (Hsub : forall p, In p live' -> In p (snapshots m)).
  { intros p Hp. unfold live' in Hp.
    destruct (Delete_shape (Snapshot_at h) (Snapshot_at h s) CompareSnapshot
                (snapshots m)) as [E|(a & e & b & El & E)];
      rewrite E in Hp; [exact Hp|].
    rewrite El. apply in_app_iff in Hp. apply in_app_iff.
    destruct Hp; [left | right; right]; assumption. }
  rewrite Hh, Hlive, Hleast. destruct live' as [|d l'] eqn:El.
  - split; [lia|]. split; [intros p []|exact I6].
  - assert (Hd : In d (snapshots m)) by (apply Hsub; left; reflexivity).
    pose proof (I5 d Hd) as Hld. rewrite <- (Hsn 0%Z) in Hld. fold h in Hld.
    destruct (Hl' d (or_introl eq_refl)) as (_ & Hpos & Hlt).
    destruct Hsnap as [_ [_ Hmax]].
    rewrite sub32_one_pred by lia.
    split; [lia|]. split; [|lia].
    intros p Hp. split; [apply Hsub, Hp|].
    pose proof (ascending_head h d l' Ha' p Hp). lia.
Qed.

Lemma gc_inv_Close (s : ptr) (m : MemDB) :
  snap_inv m -> gc_inv m -> gc_inv (Close s m).
Proof.
  intros Hsnap Hm.
  destruct (Close_least s m Hsnap Hm) as (U1 & U2 & U3).
  destruct (Close_frame_gc s m) as (Hw & Hch & Hn & Hcur).
  assert (Hsnaps : exists c, snaps (Close s m) = set_refCount (snaps m) s c).
  { destruct (Z.eq_dec (Int.i32 (refCount (Snapshot_at (snaps m) s) + -1)) 0%Z)
      as [H0|H0].
    - destruct (Close_last_reference s m H0) as (Hh & _). eauto.
    - rewrite (Close_keeps_reference s m H0). simpl. eauto. }
  destruct Hsnaps as (c & Hh).
  assert (Hnd : List.NoDup (snapshots (Close s m))).
  { destruct (Z.eq_dec (Int.i32 (refCount (Snapshot_at (snaps m) s) + -1)) 0%Z)
      as [H0|H0].
    - destruct (Close_last_reference s m H0) as (_ & -> & _).
      match goal with |- List.NoDup (fst (skiplist.Delete ?g ?x ?c0 ?l)) =>
        destruct (Delete_shape g x c0 l) as [E|(a & e & b & El & E)];
          rewrite E end.
      + apply (gc_live_nodup m Hm).
      + pose proof (gc_live_nodup m Hm) as Hd. rewrite El in Hd.
        eapply List.NoDup_remove_1; eauto.
    - rewrite (Close_keeps_reference s m H0). apply (gc_live_nodup m Hm). }
  destruct Hm as [I1 I2 I3 I4 I5 I6 I7 I8].
  constructor; rewrite ?Hw, ?Hch, ?Hn, ?Hcur.
  - exact I1.
  - exact I2.
  - rewrite Hh. intros p sp' Hsp.
    destruct (set_refCount_lookup _ _ _ _ _ Hsp) as (sp & Hsp0 & E1 & E2).
    rewrite E1, E2. exact (I3 p sp Hsp0).
  - intros p Hp. specialize (I4 p Hp). lia.
  - intros p Hp. apply U2, Hp.
  - exact U3.
  - rewrite Hh, length_set_refCount. intros i j Hij Hj.
    rewrite !sn_set_refCount. apply I7; assumption.
  - exact Hnd.
Qed.

Lemma GC_frame_gc (m : MemDB) :
  writers (GC m) = writers m /\ leastUnrefSn (GC m) = leastUnrefSn m
  /\ forall p, In (Some p) (gcchan (GC m)) ->
       In (Some p) (gcchan m)
       \/ exists d sp, snaps m !! d = Some sp /\ gclist sp = Some p
                       /\ (sn sp <= leastUnrefSn m)%N.
Proof.
  unfold GC, collectDead, skiplist.SeekFirst, getLeastUnrefSn.
  destruct (negb _ && _).
  - rewrite collectDead_loop_spec by reflexivity.
    cbn [gcsnapshots snaps gcchan leastUnrefSn set_lastGCSn set_gcchan
         set_gcsnapshots isGCRunning].
    assert (Hch : forall (l : list ptr) p,
              Forall (fun d => (sn (Snapshot_at (snaps m) d) <= leastUnrefSn m)%N) l ->
              In (Some p)
                 (gcchan m ++ map (fun d => gclist (Snapshot_at (snaps m) d)) l) ->
              In (Some p) (gcchan m)
              \/ exists d sp, snaps m !! d = Some sp /\ gclist sp = Some p
                              /\ (sn sp <= leastUnrefSn m)%N).
    { intros l p Hl Hp. apply in_app_iff in Hp as [Hp|Hp]; [auto|].
      apply in_map_iff in Hp as (d & Hd & Hin). right.
      rewrite List.Forall_forall in Hl. specialize (Hl d Hin).
      unfold Snapshot_at in Hd, Hl.
      destruct (snaps m !! d) as [sp|] eqn:E; [eauto|discriminate]. }
    destruct (promoted_retained (snaps m) (leastUnrefSn m) (gcsnapshots m))
      as (_ & Hprom & _).
    destruct (_ =? 1)%Z; simpl; repeat split; trivial;
      intros p Hp; eapply Hch; eauto.
  - destruct (_ =? 1)%Z; simpl; repeat split; trivial; intros p Hp; auto.
Qed.

Lemma gc_inv_GC (m : MemDB) : gc_inv m -> gc_inv (GC m).
Proof.
  intros [I1 I2 I3 I4 I5 I6 I7 I8].
  destruct (GC_frame m) as (Hn & _ & Hcur & _ & Hs & Hl).
  destruct (GC_frame_gc m) as (Hw & Hleast & Hch).
  constructor; rewrite ?Hn, ?Hcur, ?Hs, ?Hl, ?Hw, ?Hleast; trivial.
  intros p Hp. destruct (Hch p Hp) as [H|(d & sp & Hsp & Hg & Hle)];
    [apply I4, H|].
  destruct (I3 d sp Hsp) as [Hr Hgl]. rewrite (Hgl p Hg). lia.
Qed.

Lemma collectionWorker_recv_spec (fuel : nat) (m : MemDB) :
  gc_inv m ->
  exists ks,
    collectionWorker_recv fuel m
    = set_store (set_gcchan m (tl (gcchan m))) (unlinks ks (store m))
    /\ Forall (fun k => (0 < deadSn (Item_at (nodes m) k) <= leastUnrefSn m)%N) ks.
Proof.
  intros [I1 I2 I3 I4 I5 I6 I7 I8]. unfold collectionWorker_recv.
  destruct (gcchan m) as [|g rest] eqn:Eg.
  - exists []. simpl. split; [|constructor].
    rewrite (MemDB_eta m) at 1. unfold set_store, set_gcchan. simpl.
    rewrite Eg. reflexivity.
  - assert (Heta : forall l, set_store (set_gcchan m rest) l
                          = set_store (set_gcchan m (tl (g :: rest))) l)
      by reflexivity.
    destruct g as [p|].
    + destruct (collectionWorker_loop_spec fuel (Some p) (set_gcchan m rest)
                  (deadSn (Item_at (nodes m) p))) as (ks & E & Hks).
      * exact I1.
      * intros q Hq. injection Hq as <-. reflexivity.
      * exists ks. split; [exact E|].
        assert (Hp : In (Some p) (Some p :: rest)) by (left; reflexivity).
        specialize (I4 p Hp). simpl in Hks.
        eapply Forall_impl; [exact Hks|]. simpl. intros k Hk. rewrite Hk.
        exact I4.
    + exists []. split; [|constructor].
      destruct fuel; simpl; destruct m; reflexivity.
Qed.

(** ** The versions of the index are kept *)

Lemma version_inv_ext (keyCmp : KeyCompare) (m m' : MemDB) :
  (forall e, Item_at (nodes m') e = Item_at (nodes m) e) ->
  store m' = store m -> (currSn m <= currSn m')%N -> count m' = count m ->
  version_inv keyCmp m -> version_inv keyCmp m'.
Proof.
  intros Hi Hs Hc Hn [V1 V2 V3 V4 V5 V6].
  constructor; rewrite ?Hs.
  - exact V1.
  - intros e He. rewrite Hi. specialize (V2 e He). lia.
  - intros e He Hd. rewrite Hi in *. specialize (V3 e He Hd). lia.
  - intros p q Hp Hq Hne. rewrite !Hi. apply V4; assumption.
  - rewrite Hn, V5. unfold live_entries. rewrite Hs. do 3 f_equal.
    apply List.filter_ext. intros e. rewrite Hi. reflexivity.
  - intros p q Hp Hq Hne. rewrite !Hi. apply V6; assumption.
Qed.

Lemma version_inv_frame (keyCmp : KeyCompare) (m m' : MemDB) :
  nodes m' = nodes m -> store m' = store m -> currSn m' = currSn m ->
  count m' = count m -> version_inv keyCmp m -> version_inv keyCmp m'.
Proof.
  intros Hn Hs Hc Hk. apply version_inv_ext; trivial; [|lia].
  intros e. rewrite Hn. reflexivity.
Qed.

Lemma version_inv_New (keyCmp : KeyCompare) : version_inv keyCmp New.
Proof.
  constructor; simpl; try (intros; contradiction).
  - constructor.
  - reflexivity.
Qed.

(** The count of the entries that pass a filter when one of them stops
    passing it. *)
Lemma filter_flip_one {A : Type} (f f' : A -> bool) (x : A) (l : list A) :
  List.NoDup l -> In x l -> f x = true -> f' x = false ->
  (forall e, e <> x -> f' e = f e) ->
  S (length (List.filter f' l)) = length (List.filter f l).
Proof.
  intros Hd Hin Hx Hx' Hother. induction l as [|a l IH]; [contradiction|].
  apply List.NoDup_cons_iff in Hd as [Hn Hd]. simpl.
  destruct Hin as [->|Hin].
  - rewrite Hx, Hx'. simpl. f_equal. f_equal. apply List.filter_ext_in.
    intros e He. apply Hother. intros ->. contradiction.
  - rewrite (Hother a) by (intros ->; contradiction).
    destruct (f a); simpl; rewrite <- (IH Hd Hin); reflexivity.
Qed.

Lemma i64_pred_succ (n : nat) :
  Int.i64 (Int.i64 (Z.of_nat (S n)) + -1) = Int.i64 (Z.of_nat n).
Proof. rewrite i64_i64_add. f_equal. lia. Qed.

Lemma i64_succ (n : nat) :
  Int.i64 (Int.i64 (Z.of_nat n) + 1) = Int.i64 (Z.of_nat (S n)).
Proof. rewrite i64_i64_add. f_equal. lia. Qed.

Lemma filter_insert_length {A : Type} (f f' : A -> bool) (P Q : list A)
    (n : A) :
  f' n = true -> (forall e, In e (P ++ Q) -> f' e = f e) ->
  length (List.filter f' (P ++ n :: Q)) = S (length (List.filter f (P ++ Q))).
Proof.
  intros Hn Hsame. rewrite !List.filter_app, !List.length_app. simpl.
  rewrite Hn. simpl.
  rewrite (List.filter_ext_in f' f P), (List.filter_ext_in f' f Q); [lia| |];
    intros e He; apply Hsame, in_app_iff; auto.
Qed.

Section KeepVersions.

Variable keyCmp : KeyCompare.
Hypothesis Hkey : KeyOrder keyCmp.

Lemma version_inv_Put2 (x : Item) (m : MemDB) :
  deadSn x = 0%N -> store_inv keyCmp m -> version_inv keyCmp m ->
  version_inv keyCmp (fst (fst (Put2 keyCmp x m))).
Proof.
  intros Hx [(Ha & _) _] [V1 V2 V3 V4 V5 V6].
  unfold Put2, store_Insert2, skiplist.Insert2.
  set (x' := set_bornSn x (getCurrSn m)).
  set (h' := nodes m ++ [mkNode x' None]).
  set (n := length (nodes m)).
  destruct (List.find _ (store m)) as [e|] eqn:Ef; simpl;
    [constructor; assumption|].
  assert (Hnew : Item_at h' n = x').
  { unfold h', n. rewrite Item_at_alloc.
    destruct (decide (length (nodes m) = length (nodes m)));
      [reflexivity | contradiction]. }
  assert (Hold : forall e, In e (store m) -> Item_at h' e = Item_at (nodes m) e).
  { intros e He. unfold h'. rewrite Item_at_alloc. specialize (Ha e He).
    destruct (decide (e = length (nodes m))); [lia|].
    destruct (decide (e < length (nodes m))); [reflexivity | lia]. }
  assert (Hfresh : ~ In n (store m)).
  { intros Hin. specialize (Ha n Hin). unfold n in Ha. lia. }
  assert (Hex : forall e, In e (store m) ->
            deadSn (Item_at (nodes m) e) = 0%N ->
            keyCmp (Bytes x') (Bytes (Item_at (nodes m) e)) <> 0%Z).
  { intros e He De. pose proof (find_none _ _ Ef e He) as Hn. simpl in Hn.
    fold h' n in Hn. rewrite Hnew, (Hold e He) in Hn. apply Z.eqb_neq in Hn.
    unfold existCmp, newExistCompare in Hn.
    replace (deadSn x') with 0%N in Hn by (symmetry; exact Hx).
    rewrite De in Hn. exact Hn. }
  set (chain := skiplist.preds (Item_at h') (insCmp keyCmp) (Item_at h' n) (store m)
                ++ n :: skiplist.seek (Item_at h') (insCmp keyCmp) (Item_at h' n)
                          (store m)).
  assert (Hin : forall e, In e chain <-> e = n \/ In e (store m))
    by (intros e; apply in_Insert_chain).
  assert (Hitem : forall e, In e chain ->
            Item_at h' e = if decide (e = n) then x' else Item_at (nodes m) e).
  { intros e He. apply Hin in He.
    destruct (decide (e = n)) as [->|Hne]; [exact Hnew|].
    destruct He as [->|He]; [contradiction | apply Hold, He]. }
  constructor; cbn [store nodes currSn count set_count set_store set_nodes];
    fold h' n chain.
  - unfold chain. eapply List.NoDup_Add; [apply Add_app|].
    rewrite preds_seek. split; assumption.
  - intros e He. rewrite (Hitem e He). apply Hin in He.
    destruct (decide (e = n)); [simpl; unfold getCurrSn; lia|].
    destruct He as [->|He]; [contradiction | apply V2, He].
  - intros e He. rewrite (Hitem e He). apply Hin in He.
    destruct (decide (e = n)); [simpl; congruence|].
    destruct He as [->|He]; [contradiction | apply V3, He].
  - intros p q Hp Hq Hne. rewrite (Hitem p Hp), (Hitem q Hq).
    apply Hin in Hp, Hq.
    destruct (decide (p = n)) as [->|Hpn], (decide (q = n)) as [->|Hqn];
      [contradiction| | |].
    + destruct Hq as [->|Hq]; [contradiction|]. intros Hk _.
      destruct (N.eq_dec (deadSn (Item_at (nodes m) q)) 0%N) as [Dq|Dq].
      * exfalso. exact (Hex q Hq Dq Hk).
      * specialize (V3 q Hq Dq). simpl. unfold getCurrSn. lia.
    + destruct Hp as [->|Hp]; [contradiction|]. intros Hk Dp. exfalso.
      apply (Hex p Hp Dp). apply (key_sym0 keyCmp Hkey), Hk.
    + destruct Hp as [->|Hp]; [contradiction|].
      destruct Hq as [->|Hq]; [contradiction|]. apply V4; assumption.
  - rewrite V5, i64_succ. do 2 f_equal. unfold live_entries.
    cbn [store nodes set_count set_store set_nodes]. fold h' n chain.
    unfold chain.
    rewrite (filter_insert_length
               (fun e => (deadSn (Item_at (nodes m) e) =? 0)%N)).
    + rewrite preds_seek. reflexivity.
    + rewrite Hnew. replace (deadSn x') with 0%N by (symmetry; exact Hx).
      reflexivity.
    + intros e He. rewrite preds_seek in He. rewrite (Hold e He). reflexivity.
  - intros p q Hp Hq Hne. rewrite (Hitem p Hp), (Hitem q Hq).
    apply Hin in Hp, Hq.
    destruct (decide (p = n)) as [->|Hpn], (decide (q = n)) as [->|Hqn];
      [contradiction| | |].
    + destruct Hq as [->|Hq]; [contradiction|]. intros Hk _.
      destruct (N.eq_dec (deadSn (Item_at (nodes m) q)) 0%N) as [Dq|Dq].
      * exfalso. exact (Hex q Hq Dq Hk).
      * specialize (V3 q Hq Dq). simpl. unfold getCurrSn. lia.
    + destruct Hp as [->|Hp]; [contradiction|]. intros Hk Hb. exfalso.
      simpl in Hb. unfold getCurrSn in Hb.
      destruct (N.eq_dec (deadSn (Item_at (nodes m) p)) 0%N) as [Dp|Dp].
      * apply (Hex p Hp Dp). apply (key_sym0 keyCmp Hkey), Hk.
      * specialize (V3 p Hp Dp). lia.
    + destruct Hp as [->|Hp]; [contradiction|].
      destruct Hq as [->|Hq]; [contradiction|]. apply V6; assumption.
Qed.

Lemma version_inv_DeleteNode' (w x : ptr) (m : MemDB) :
  In x (store m) -> currSn m <> 0%N -> version_inv keyCmp m ->
  version_inv keyCmp (fst (fst (DeleteNode' w x m))).
Proof.
  intros Hin Hc Hv. pose proof Hv as [V1 V2 V3 V4 V5 V6]. unfold DeleteNode'.
  destruct (nodes m !! x) as [nd|] eqn:End; [|exact Hv].
  assert (Hlt : x < length (nodes m)) by (eapply lookup_lt_Some; eauto).
  assert (Hx : Item_at (nodes m) x = itm nd)
    by (unfold Item_at; rewrite End; reflexivity).
  destruct (N.eqb_spec (bornSn (itm nd)) (getCurrSn m)) as [Hb|Hb].
  - (* removal *)
    unfold skiplist.DeleteNode.
    destruct (decide (x ∈ store m)) as [_|Hn];
      [|exfalso; apply Hn, list_elem_of_In, Hin].
    lazy beta iota zeta delta [fst snd].
    assert (Dx : deadSn (Item_at (nodes m) x) = 0%N).
    { destruct (N.eq_dec (deadSn (Item_at (nodes m) x)) 0%N) as [D|D]; trivial.
      specialize (V3 x Hin D). rewrite Hx, Hb in V3. unfold getCurrSn in V3. lia. }
    constructor; cbn [store nodes currSn count set_count set_store].
    + apply NoDup_unlink, V1.
    + intros e He. apply V2. eapply unlink_subset; eauto.
    + intros e He. apply V3. eapply unlink_subset; eauto.
    + intros p q Hp Hq. apply V4; eapply unlink_subset; eauto.
    + rewrite V5. unfold live_entries. cbn [store nodes set_count set_store].
      rewrite <- (filter_unlink_one _ x (store m) Hin)
        by (rewrite Dx; reflexivity).
      apply i64_pred_succ.
    + intros p q Hp Hq. apply V6; eapply unlink_subset; eauto.
  - destruct (N.eqb_spec (deadSn (itm nd)) 0) as [D|D];
      lazy beta iota zeta delta [fst snd]; [|exact Hv].
    (* tombstone *)
    assert (Hitem : forall e,
              Item_at (nodes (retire w x
                        (set_nodes m (set_Item (nodes m) x
                                        (set_deadSn (itm nd) (getCurrSn m)))))) e
              = if decide (e = x) then set_deadSn (itm nd) (getCurrSn m)
                else Item_at (nodes m) e).
    { intros e. rewrite Item_at_retire. simpl.
      apply Item_at_set_Item, Hlt. }
    constructor; cbn [store nodes currSn count set_count];
      rewrite ?retire_store, ?retire_currSn, ?retire_count;
      cbn [store currSn count set_nodes].
    + exact V1.
    + intros e He. rewrite Hitem. specialize (V2 e He).
      destruct (decide (e = x)) as [->|]; [|exact V2].
      simpl. rewrite <- Hx. exact V2.
    + intros e He. rewrite Hitem. pose proof (V2 e He) as Hle.
      destruct (decide (e = x)) as [->|]; [|apply V3, He].
      simpl. intros _. rewrite Hx in Hle. unfold getCurrSn in *. lia.
    + intros p q Hp Hq Hne. rewrite !Hitem.
      destruct (decide (p = x)) as [->|Hpx].
      * simpl. unfold getCurrSn. intros _ Hcur. contradiction.
      * destruct (decide (q = x)) as [->|Hqx].
        -- simpl. rewrite <- Hx. apply V4; assumption.
        -- apply V4; assumption.
    + rewrite V5. unfold live_entries. cbn [store nodes set_count].
      rewrite retire_store. cbn [store set_nodes].
      pose proof (filter_flip_one
                    (fun e => (deadSn (Item_at (nodes m) e) =? 0)%N)
                    (fun e => (deadSn (Item_at (nodes (retire w x
                        (set_nodes m (set_Item (nodes m) x
                           (set_deadSn (itm nd) (getCurrSn m)))))) e) =? 0)%N)
                    x (store m) V1 Hin) as Hflip.
      rewrite <- Hflip; [apply i64_pred_succ | | |].
      * rewrite Hx, D. reflexivity.
      * rewrite Hitem. destruct (decide (x = x)); [|contradiction].
        simpl. apply N.eqb_neq. exact Hc.
      * intros e Hne. rewrite Hitem.
        destruct (decide (e = x)); [contradiction | reflexivity].
    + intros p q Hp Hq Hne. rewrite !Hitem.
      destruct (decide (q = x)) as [->|Hqx].
      * destruct (decide (p = x)) as [->|Hpx]; [contradiction|].
        simpl. rewrite <- Hx. intros Hk Hle. exfalso.
        assert (Hlt' : (bornSn (Item_at (nodes m) p)
                        < bornSn (Item_at (nodes m) x))%N).
        { apply V4; trivial; [congruence| |rewrite Hx; exact D].
          apply (key_sym0 keyCmp Hkey), Hk. }
        lia.
      * destruct (decide (p = x)) as [->|Hpx].
        -- simpl. rewrite <- Hx. apply V6; assumption.
        -- apply V6; assumption.
Qed.

Lemma version_inv_Delete2' (w : ptr) (x : Item) (m : MemDB) :
  currSn m <> 0%N -> version_inv keyCmp m ->
  version_inv keyCmp (fst (fst (fst (Delete2' keyCmp w x m)))).
Proof.
  intros Hc Hv. unfold Delete2'.
  destruct (GetNode keyCmp x m) as [n|] eqn:Eg; [|exact Hv].
  destruct (GetNode_Some keyCmp (key_trans0 keyCmp Hkey) m x n Eg)
    as (Hin & _).
  pose proof (version_inv_DeleteNode' w n m Hin Hc Hv) as H.
  destruct (DeleteNode' w n m) as [[m' ok] how]. exact H.
Qed.

Lemma version_inv_NewSnapshot (m : MemDB) :
  (currSn m < Int.MaxUint32)%N -> version_inv keyCmp m ->
  version_inv keyCmp (fst (NewSnapshot m)).
Proof.
  intros Hlt Hv. destruct (NewSnapshot_nodes m) as (_ & Hi & Hs & Hc).
  eapply version_inv_ext; [exact Hi | exact Hs | | apply NewSnapshot_count | exact Hv].
  rewrite Hc, add32_succ by exact Hlt. lia.
Qed.

Lemma chain_inv_unlinks (h : list Node) (ks l : list ptr) :
  chain_inv keyCmp h l -> chain_inv keyCmp h (unlinks ks l).
Proof.
  revert l. induction ks as [|k ks IH]; intros l Hl; simpl; trivial.
  apply IH. apply (chain_inv_unlink keyCmp Hkey), Hl.
Qed.

Lemma version_inv_unlinks (ks : list ptr) (m : MemDB) :
  Forall (fun k => deadSn (Item_at (nodes m) k) <> 0%N) ks ->
  version_inv keyCmp m ->
  version_inv keyCmp (set_store m (unlinks ks (store m))).
Proof.
  intros Hks [V1 V2 V3 V4 V5 V6].
  constructor; cbn [store nodes currSn count set_store].
  - apply NoDup_unlinks, V1.
  - intros e He. apply V2. eapply unlinks_subset; eauto.
  - intros e He. apply V3. eapply unlinks_subset; eauto.
  - intros p q Hp Hq. apply V4; eapply unlinks_subset; eauto.
  - rewrite V5. unfold live_entries. cbn [store nodes set_store]. do 3 f_equal.
    pose proof (filter_map_unlinks (fun e : ptr => e)
                  (fun e => (deadSn (Item_at (nodes m) e) =? 0)%N)
                  ks (store m)) as H.
    rewrite !map_id in H. symmetry. apply H.
    eapply Forall_impl; [exact Hks|]. simpl. intros k Hk.
    apply N.eqb_neq, Hk.
  - intros p q Hp Hq. apply V6; eapply unlinks_subset; eauto.
Qed.

End KeepVersions.

(** ** Every state of a database in use keeps the invariants *)

Lemma sound_New (keyCmp : KeyCompare) : sound keyCmp New.
Proof.
  split; [|split; [|split]].
  - split; [|unfold Int.MaxUint32; simpl; lia].
    repeat split; simpl; intros; contradiction.
  - split; [|unfold Int.MaxUint32; simpl; lia].
    split; [simpl; intros; contradiction | reflexivity].
  - apply gc_inv_New.
  - apply version_inv_New.
Qed.

Lemma sound_step (keyCmp : KeyCompare) (o : Op) (m : MemDB) :
  KeyOrder keyCmp -> proper (Call o) m -> sound keyCmp m ->
  sound keyCmp (fst (step keyCmp o m)).
Proof.
  intros Hkey Hadm (Hs & Hp & Hg & Hv).
  assert (Hc : currSn m <> 0%N) by (destruct Hp as [_ [H _]]; lia).
  destruct o as [| |s|s| |x|w x|w n]; simpl in *.
  - split; [|split; [|split]].
    + eapply (store_inv_frame keyCmp); [| | |exact Hs]; reflexivity.
    + eapply snap_inv_frame; [| | |exact Hp]; reflexivity.
    + apply gc_inv_NewWriter, Hg.
    + eapply version_inv_frame; [| | | |exact Hv]; reflexivity.
  - split; [|split; [|split]].
    + apply store_inv_NewSnapshot, Hs.
    + apply snap_inv_NewSnapshot; [lia | exact Hp].
    + apply gc_inv_NewSnapshot; assumption.
    + apply version_inv_NewSnapshot; [lia | exact Hv].
  - destruct (Open_frame s m) as (H1 & H2 & H3 & H4 & _).
    split; [|split; [|split]].
    + eapply (store_inv_frame keyCmp); [| | |exact Hs]; assumption.
    + apply snap_inv_Open, Hp.
    + apply gc_inv_Open, Hg.
    + eapply version_inv_frame; [| | | |exact Hv]; assumption.
  - destruct (Close_frame s m) as (H1 & H2 & H3 & H4).
    split; [|split; [|split]].
    + eapply (store_inv_frame keyCmp); [| | |exact Hs]; assumption.
    + apply snap_inv_Close, Hp.
    + apply gc_inv_Close; assumption.
    + eapply version_inv_frame; [| | | |exact Hv]; assumption.
  - destruct (GC_frame m) as (H1 & H2 & H3 & H4 & H5 & H6).
    split; [|split; [|split]].
    + eapply (store_inv_frame keyCmp); [| | |exact Hs]; assumption.
    + eapply snap_inv_frame; [| | |exact Hp]; assumption.
    + apply gc_inv_GC, Hg.
    + eapply version_inv_frame; [| | | |exact Hv]; assumption.
  - pose proof (store_inv_Put2 keyCmp Hkey x m Hadm Hs) as H.
    pose proof (Put2_frame keyCmp x m) as (F1 & F2 & F3).
    pose proof (gc_inv_Put2 keyCmp x m Hadm Hg) as G.
    pose proof (version_inv_Put2 keyCmp Hkey x m Hadm Hs Hv) as V.
    destruct (Put2 keyCmp x m) as [[m' r] ok]. simpl in *.
    split; [exact H|]. split; [eapply snap_inv_frame; eauto|]. split; assumption.
  - pose proof (Delete2'_store_inv keyCmp Hkey w x m Hs) as H.
    pose proof (Delete2'_frame keyCmp w x m) as (F1 & F2 & F3).
    pose proof (gc_inv_Delete2' keyCmp w x m Hc Hg) as G.
    pose proof (version_inv_Delete2' keyCmp Hkey w x m Hc Hv) as V.
    destruct (Delete2' keyCmp w x m) as [[[m' r] ok] how]. simpl in *.
    split; [exact H|]. split; [eapply snap_inv_frame; eauto|]. split; assumption.
  - pose proof (DeleteNode'_store_inv keyCmp Hkey w n m Hs) as H.
    pose proof (DeleteNode'_frame w n m) as (F1 & F2 & F3).
    pose proof (gc_inv_DeleteNode' w n m Hc Hg) as G.
    pose proof (version_inv_DeleteNode' keyCmp Hkey w n m Hadm Hc Hv) as V.
    destruct (DeleteNode' w n m) as [[m' ok] how]. simpl in *.
    split; [exact H|]. split; [eapply snap_inv_frame; eauto|]. split; assumption.
Qed.

Lemma sound_collect (keyCmp : KeyCompare) (fuel : nat) (m : MemDB) :
  KeyOrder keyCmp -> sound keyCmp m ->
  sound keyCmp (collectionWorker_recv fuel m).
Proof.
  intros Hkey (Hs & Hp & Hg & Hv).
  destruct (collectionWorker_recv_spec fuel m Hg) as (ks & E & Hks).
  rewrite E. split; [|split; [|split]].
  - destruct Hs as [Hc Hmax]. split; [|exact Hmax].
    cbn [nodes store set_store set_gcchan].
    apply (chain_inv_unlinks keyCmp Hkey), Hc.
  - eapply snap_inv_frame; [| | |exact Hp]; reflexivity.
  - eapply gc_inv_ext; [| | | | | | | | | |exact Hg]; simpl; trivial.
    + intros s sp' H. exists sp'. auto.
    + intros p Hp'. destruct (gcchan m); [exact Hp' | right; exact Hp'].
  - apply (version_inv_unlinks keyCmp ks (set_gcchan m (tl (gcchan m)))).
    + eapply Forall_impl; [exact Hks|]. simpl. intros k Hk. lia.
    + eapply version_inv_frame; [| | | |exact Hv]; reflexivity.
Qed.

Lemma operating_sound (keyCmp : KeyCompare) (m : MemDB) :
  KeyOrder keyCmp -> operating keyCmp m -> sound keyCmp m.
Proof.
  intros Hkey Hop. induction Hop as [|a m Hop IH Hadm].
  - apply sound_New.
  - destruct a as [o|fuel]; simpl.
    + apply sound_step; assumption.
    + apply sound_collect; assumption.
Qed.

Lemma operating_acts (keyCmp : KeyCompare) (l : list Action) (m : MemDB) :
  operating keyCmp m -> proper_all keyCmp l m ->
  operating keyCmp (acts keyCmp l m).
Proof.
  revert m. induction l as [|a l IH]; intros m Hm Hl; simpl; trivial.
  destruct Hl as [Ha Hl]. apply IH; [|exact Hl].
  apply operating_act; assumption.
Qed.

(** ** Lookup, insertion and deletion by key *)

Section ByKey.

Variable keyCmp : KeyCompare.
Hypothesis Hkey : KeyOrder keyCmp.

Lemma key_refl (a : list byte) : keyCmp a a = 0%Z.
Proof.
  pose proof (key_antisym keyCmp Hkey a a) as H.
  destruct (keyCmp a a); simpl in H; try discriminate; reflexivity.
Qed.

(** A live entry of the index with the probe's key is what [GetNode]
    returns. *)
Lemma GetNode_complete (m : MemDB) (x : Item) (n : ptr) :
  store_inv keyCmp m -> version_inv keyCmp m ->
  In n (store m) -> deadSn (Item_at (nodes m) n) = 0%N ->
  keyCmp (Bytes (Item_at (nodes m) n)) (Bytes x) = 0%Z ->
  GetNode keyCmp x m = Some n.
Proof.
  intros Hs Hv Hin Hlive Hk.
  destruct (store_inv_bools keyCmp m Hs) as (_ & _ & Hord & Hfit).
  destruct Hv as [V1 V2 V3 V4 V5 V6].
  pose proof (key_sym0 keyCmp Hkey) as Hsym.
  pose proof (key_trans0 keyCmp Hkey) as Htr.
  set (item := Item_at (nodes m)) in *.
  rewrite GetNode_refines. unfold GetNode_spec. fold item.
  destruct (seek_split m (iterCmp keyCmp) x (store m)) as (Hsplit & Hpre & Hhd).
  fold item in Hsplit, Hpre, Hhd.
  set (passed := skiplist.preds item (iterCmp keyCmp) x (store m)) in *.
  destruct (skiplist.seek item (iterCmp keyCmp) x (store m)) as [|first rest].
  { (* the entry lies in what was passed *)
    exfalso. rewrite Hsplit, app_nil_r in Hin.
    rewrite List.Forall_forall in Hpre. specialize (Hpre n Hin).
    unfold iterCmp, newIterCompare in Hpre. lia. }
  assert (Hn : In n (first :: rest)).
  { rewrite Hsplit in Hin. apply in_app_iff in Hin as [Hin|Hin]; [|exact Hin].
    exfalso. rewrite List.Forall_forall in Hpre. specialize (Hpre n Hin).
    unfold iterCmp, newIterCompare in Hpre. lia. }
  assert (Hord' : ordered (insCmp keyCmp) (map item (first :: rest)) = true).
  { unfold items in Hord. fold item in Hord. rewrite Hsplit, map_app in Hord.
    eapply ordered_app_r; eauto. }
  assert (Hfit' : forallb stamps_fit (map item (first :: rest)) = true).
  { unfold items in Hfit. fold item in Hfit. rewrite Hsplit, map_app in Hfit.
    eapply forallb_app_r; eauto. }
  assert (Hfit1 : forall e, In e (first :: rest) -> stamps_fit (item e) = true).
  { intros e He. rewrite forallb_forall in Hfit'. apply Hfit'.
    apply in_map, He. }
  assert (Hfirst : iterCmp keyCmp (item first) x = 0%Z).
  { destruct Hn as [<-|Hn]; [exact Hk|].
    pose proof (ordered_pairwise keyCmp Hkey m first rest Hord' Hfit' n Hn) as Hle.
    apply (insCmp_le_key keyCmp) in Hle;
      [|apply Hfit1; left; reflexivity | apply Hfit1; right; exact Hn].
    assert (Hle2 : (keyCmp (Bytes (item first)) (Bytes x) <= 0)%Z).
    { eapply (key_trans keyCmp Hkey); [exact Hle|]. fold item. rewrite Hk. lia. }
    unfold iterCmp, newIterCompare in *. lia. }
  rewrite Hfirst, Z.eqb_refl. cbv zeta.
  set (run := equal_run keyCmp m first rest).
  set (l := List.last (first :: run) first).
  assert (Hnrun : In n (first :: run)).
  { destruct Hn as [<-|Hn]; [left; reflexivity|]. right.
    apply (equal_run_complete keyCmp Hkey m x); assumption. }
  destruct (equal_run_split keyCmp m first rest) as (Hlinked & _).
  fold run in Hlinked.
  assert (Hl : In l (first :: run)) by apply last_in.
  assert (Hlrest : In l (first :: rest)).
  { destruct Hl as [<-|Hl]; [left; reflexivity|]. right.
    eapply in_equal_run; eauto. }
  assert (Hlk : keyCmp (Bytes (item l)) (Bytes x) = 0%Z).
  { apply (linked_last_key keyCmp Htr m x first run); assumption. }
  assert (Hasc : (bornSn (item n) <= bornSn (item l))%N).
  { apply (equal_run_ascends keyCmp m Hsym first rest Hord' Hfit' n Hnrun). }
  assert (Hstore : forall e, In e (first :: rest) -> In e (store m)).
  { intros e He. rewrite Hsplit. apply in_app_iff. right. exact He. }
  assert (El : l = n).
  { destruct (decide (l = n)) as [E|Hne]; [exact E|]. exfalso.
    assert (Hnl : keyCmp (Bytes (item n)) (Bytes (item l)) = 0%Z).
    { eapply Htr; [exact Hk|]. apply Hsym, Hlk. }
    pose proof (V4 n l (Hstore n Hn) (Hstore l Hlrest) (not_eq_sym Hne) Hnl Hlive).
    fold item in H. lia. }
  rewrite El, Hlive. reflexivity.
Qed.

(** [GetNode] returns a node exactly when it is the live entry of the
    probe's key. *)
Lemma GetNode_iff (m : MemDB) (x : Item) (n : ptr) :
  store_inv keyCmp m -> version_inv keyCmp m ->
  GetNode keyCmp x m = Some n
  <-> In n (store m) /\ deadSn (Item_at (nodes m) n) = 0%N
      /\ keyCmp (Bytes (Item_at (nodes m) n)) (Bytes x) = 0%Z.
Proof.
  intros Hs Hv. split.
  - apply (GetNode_Some keyCmp (key_trans0 keyCmp Hkey)).
  - intros (H1 & H2 & H3). apply GetNode_complete; assumption.
Qed.

(** Two live entries of one key are one entry. *)
Lemma live_unique (m : MemDB) (x : Item) (p q : ptr) :
  store_inv keyCmp m ->
  In p (store m) -> In q (store m) ->
  deadSn (Item_at (nodes m) p) = 0%N -> deadSn (Item_at (nodes m) q) = 0%N ->
  keyCmp (Bytes (Item_at (nodes m) p)) (Bytes x) = 0%Z ->
  keyCmp (Bytes (Item_at (nodes m) q)) (Bytes x) = 0%Z ->
  p = q.
Proof.
  intros [(_ & Ho & _) _] Hp Hq Dp Dq Kp Kq.
  destruct (decide (p = q)) as [E|Hne]; [exact E|]. exfalso.
  apply (Ho p q Hp Hq Hne Dp Dq).
  eapply (key_trans0 keyCmp Hkey); [exact Kp|].
  apply (key_sym0 keyCmp Hkey), Kq.
Qed.

End ByKey.

Lemma Put2_cases (keyCmp : KeyCompare) (x : Item) (m : MemDB) :
  let x' := set_bornSn x (getCurrSn m) in
  let h' := nodes m ++ [mkNode x' None] in
  let n := length (nodes m) in
  match List.find (fun e => (existCmp keyCmp (Item_at h' n) (Item_at h' e) =? 0)%Z)
          (store m) with
  | Some e => Put2 keyCmp x m = (m, e, false)
  | None =>
      Put2 keyCmp x m
      = (set_count
           (set_store (set_nodes m h')
              (skiplist.preds (Item_at h') (insCmp keyCmp) (Item_at h' n) (store m)
               ++ n :: skiplist.seek (Item_at h') (insCmp keyCmp) (Item_at h' n)
                         (store m)))
           (Int.i64 (count m + 1)),
         n, true)
  end.
Proof.
  intros x' h' n. unfold Put2, store_Insert2, skiplist.Insert2.
  fold x' h' n. destruct (List.find _ (store m)); reflexivity.
Qed.

(** What [DeleteNode] does to a live node of the index: it succeeds, by
    unlinking the node or by stamping it. *)
Lemma DeleteNode'_live (w n : ptr) (m : MemDB) :
  In n (store m) -> n < length (nodes m) ->
  deadSn (Item_at (nodes m) n) = 0%N ->
  exists m1 how,
    DeleteNode' w n m = (m1, true, how)
    /\ count m1 = Int.i64 (count m + -1)
    /\ ((store m1 = skiplist.unlink n (store m)
         /\ forall e, Item_at (nodes m1) e = Item_at (nodes m) e)
        \/ (store m1 = store m
            /\ forall e, Item_at (nodes m1) e
                 = if decide (e = n)
                   then set_deadSn (Item_at (nodes m) n) (currSn m)
                   else Item_at (nodes m) e)).
Proof.
  intros Hin Hlt Hlive. unfold DeleteNode'.
  destruct (nodes m !! n) as [nd|] eqn:End.
  2:{ apply lookup_ge_None in End. lia. }
  assert (Hx : Item_at (nodes m) n = itm nd)
    by (unfold Item_at; rewrite End; reflexivity).
  destruct (bornSn (itm nd) =? getCurrSn m)%N.
  - unfold skiplist.DeleteNode.
    destruct (decide (n ∈ store m)) as [_|Hn];
      [|exfalso; apply Hn, list_elem_of_In, Hin].
    eexists _, _. split; [reflexivity|]. split; [reflexivity|].
    left. split; reflexivity.
  - rewrite Hx in Hlive. rewrite Hlive. simpl.
    eexists _, _. split; [reflexivity|]. split.
    + simpl. rewrite retire_count. reflexivity.
    + right. cbn [store nodes set_count]. rewrite retire_store. split; [reflexivity|].
      intros e. rewrite Item_at_retire. simpl. rewrite Hx.
      apply Item_at_set_Item, Hlt.
Qed.

Section ByKeyCalls.

Variable keyCmp : KeyCompare.
Hypothesis Hkey : KeyOrder keyCmp.

Lemma existCmp_zero (a b : Item) :
  existCmp keyCmp a b = 0%Z ->
  deadSn a = 0%N /\ deadSn b = 0%N /\ keyCmp (Bytes a) (Bytes b) = 0%Z.
Proof.
  unfold existCmp, newExistCompare.
  destruct (N.eqb_spec (deadSn a) 0), (N.eqb_spec (deadSn b) 0); simpl;
    try discriminate. auto.
Qed.

(** After a successful [Delete2] the key has no live entry. *)
Lemma Delete2'_after (w : ptr) (x : Item) (m : MemDB) (n : ptr) :
  sound keyCmp m -> GetNode keyCmp x m = Some n ->
  exists m1 how,
    Delete2' keyCmp w x m = (m1, Some n, true, how)
    /\ count m1 = Int.i64 (count m + -1)
    /\ GetNode keyCmp x m1 = None.
Proof.
  intros Hsound Hg. pose proof Hsound as (Hs & Hp & Hgc & Hv).
  destruct (GetNode_Some keyCmp (key_trans0 keyCmp Hkey) m x n Hg)
    as (Hin & Hlive & Hk).
  assert (Hlt : n < length (nodes m)).
  { destruct Hs as [(Ha & _) _]. apply Ha, Hin. }
  assert (Hc : currSn m <> 0%N) by (destruct Hp as [_ [H _]]; lia).
  destruct (DeleteNode'_live w n m Hin Hlt Hlive) as (m1 & how & E & Hcnt & Hcase).
  assert (E2 : Delete2' keyCmp w x m = (m1, Some n, true, how)).
  { unfold Delete2'. rewrite Hg, E. reflexivity. }
  exists m1, how. split; [exact E2|]. split; [exact Hcnt|].
  assert (Hsound1 : sound keyCmp m1).
  { pose proof (sound_step keyCmp (OpDelete w x) m Hkey I Hsound) as H.
    simpl in H. rewrite E2 in H. exact H. }
  destruct Hsound1 as (Hs1 & _ & _ & Hv1).
  destruct (GetNode keyCmp x m1) as [n'|] eqn:Eg; [|reflexivity].
  exfalso.
  destruct (GetNode_Some keyCmp (key_trans0 keyCmp Hkey) m1 x n' Eg)
    as (Hin' & Hlive' & Hk').
  destruct Hcase as [[Est Eit]|[Est Eit]].
  - rewrite Est in Hin'. rewrite Eit in Hlive', Hk'.
    assert (n' = n).
    { apply (live_unique keyCmp Hkey m x); trivial.
      eapply unlink_subset; eauto. }
    subst n'. revert Hin'. apply unlink_gone. destruct Hv; assumption.
  - rewrite Est in Hin'. rewrite Eit in Hlive', Hk'.
    destruct (decide (n' = n)) as [->|Hne].
    + simpl in Hlive'. contradiction.
    + apply Hne. apply (live_unique keyCmp Hkey m x); trivial.
Qed.

End ByKeyCalls.

(** ** A database in use *)

Lemma filter_length_le {A : Type} (f : A -> bool) (l : list A) :
  length (List.filter f l) <= length l.
Proof.
  induction l as [|a l IH]; simpl; [lia|]. destruct (f a); simpl; lia.
Qed.

(** X1. In a database in use the index stays in the order of the insert
    comparator and links no node twice; every entry is allocated and was
    born at or before the current sequence; a tombstoned entry died after it
    was born and not after the current sequence; and of two entries of one
    key, either the other one is tombstoned and older, or they are the same
    entry: a key has at most one live entry, its newest version. *)
Theorem index_stays_ordered_with_one_live_version (keyCmp : KeyCompare)
    (m : MemDB) (Hkey : KeyOrder keyCmp) (Hop : operating keyCmp m) :
  let item := Item_at (nodes m) in
  ordered (insCmp keyCmp) (items m) = true
  /\ List.NoDup (store m)
  /\ (forall e, In e (store m) ->
        e < length (nodes m)
        /\ (bornSn (item e) <= getCurrSn m)%N
        /\ (deadSn (item e) <> 0%N ->
            (bornSn (item e) < deadSn (item e) <= getCurrSn m)%N))
  /\ (forall p q, In p (store m) -> In q (store m) ->
        keyCmp (Bytes (item p)) (Bytes (item q)) = 0%Z ->
        deadSn (item p) = 0%N ->
        p = q
        \/ (deadSn (item q) <> 0%N /\ (bornSn (item q) < bornSn (item p))%N))
  /\ (1 <= getCurrSn m <= Int.MaxUint32)%N.
Proof.
  intros item.
  destruct (operating_sound keyCmp m Hkey Hop) as (Hs & Hp & _ & [V1 V2 V3 V4 _ _]).
  destruct (store_inv_bools keyCmp m Hs) as (_ & _ & Hord & _).
  destruct Hs as [(Ha & Ho & _) _].
  split; [exact Hord|]. split; [exact V1|]. split; [|split].
  - intros e He. split; [apply Ha, He|]. split; [apply V2, He | apply V3, He].
  - intros p q Hin Hq Hk Dp.
    destruct (decide (p = q)) as [E|Hne]; [left; exact E | right].
    split; [|apply V4; assumption].
    intros Dq. exact (Ho p q Hin Hq Hne Dp Dq Hk).
  - destruct Hp as [_ Hc]. exact Hc.
Qed.

Lemma reclaimed_operating : operating defaultKeyCmp reclaimed.
Proof.
  apply operating_acts; [apply operating_New|].
  vm_compute. repeat split; auto.
Qed.

(** In the example the index is in order and holds the two keys once each,
    the first one tombstoned. *)
Lemma index_stays_ordered_with_one_live_version_witness :
  ordered (insCmp defaultKeyCmp) (items reclaimed) = true
  /\ List.NoDup (store reclaimed)
  /\ store reclaimed = [0; 1].
Proof.
  pose proof (index_stays_ordered_with_one_live_version defaultKeyCmp reclaimed
                defaultKeyCmp_order
                (operating_acts defaultKeyCmp reclaiming New
                   (operating_New defaultKeyCmp)
                   ltac:(vm_compute; repeat split; auto))) as (H1 & H2 & _).
  split; [exact H1|]. split; [exact H2 | vm_compute; reflexivity].
Defined.

(** X2. In a database in use [ItemsCount] is the number of live entries of the
    index (in 64-bit arithmetic; exactly, for an index of fewer than [2^63]
    entries). *)
Theorem ItemsCount_is_the_number_of_live_entries (keyCmp : KeyCompare)
    (m : MemDB) (Hkey : KeyOrder keyCmp) (Hop : operating keyCmp m) :
  ItemsCount m = Int.i64 (Z.of_nat (length (live_entries m)))
  /\ ((Z.of_nat (length (store m)) < 9223372036854775808)%Z ->
      ItemsCount m = Z.of_nat (length (live_entries m)))
  /\ length (live_entries m) <= length (store m).
Proof.
  destruct (operating_sound keyCmp m Hkey Hop) as (_ & _ & _ & [_ _ _ _ V5]).
  pose proof (filter_length_le
                (fun e => (deadSn (Item_at (nodes m) e) =? 0)%N) (store m)) as Hle.
  fold (live_entries m) in Hle.
  split; [exact V5|]. split; [|exact Hle].
  intros Hlen. unfold ItemsCount. rewrite V5. apply i64_small. lia.
Qed.

Lemma ItemsCount_is_the_number_of_live_entries_witness :
  ItemsCount reclaimed = 1%Z /\ live_entries reclaimed = [1].
Proof.
  destruct (ItemsCount_is_the_number_of_live_entries defaultKeyCmp reclaimed
              defaultKeyCmp_order
              (operating_acts defaultKeyCmp reclaiming New
                 (operating_New defaultKeyCmp)
                 ltac:(vm_compute; repeat split; auto))) as (H1 & _).
  split; [rewrite H1 | ]; vm_compute; reflexivity.
Defined.

(** X3. In a database in use [GetNode] returns a node exactly when that node is
    an entry of the index that is live and carries the probe's key; such an
    entry is unique; [GetNode] returns nil exactly when no live entry has
    the key; and [Get] returns the item of the node [GetNode] returns. *)
Theorem GetNode_finds_the_live_entry_of_a_key (keyCmp : KeyCompare)
    (m : MemDB) (x : Item) (Hkey : KeyOrder keyCmp)
    (Hop : operating keyCmp m) :
  let item := Item_at (nodes m) in
  let found n :=
    In n (store m) /\ deadSn (item n) = 0%N
    /\ keyCmp (Bytes (item n)) (Bytes x) = 0%Z in
  (forall n, GetNode keyCmp x m = Some n <-> found n)
  /\ (forall p q, found p -> found q -> p = q)
  /\ (GetNode keyCmp x m = None <-> forall n, ~ found n)
  /\ (forall y, Get keyCmp x m = Some y <-> exists n, found n /\ y = item n).
Proof.
  intros item found.
  destruct (operating_sound keyCmp m Hkey Hop) as (Hs & _ & _ & Hv).
  assert (Hiff : forall n, GetNode keyCmp x m = Some n <-> found n)
    by (intros n; apply (GetNode_iff keyCmp Hkey); assumption).
  split; [exact Hiff|]. split; [|split].
  - intros p q (Hp & Dp & Kp) (Hq & Dq & Kq).
    apply (live_unique keyCmp Hkey m x); assumption.
  - split.
    + intros Hn n Hf. apply Hiff in Hf. congruence.
    + intros Hn. destruct (GetNode keyCmp x m) as [n|] eqn:E; [|reflexivity].
      exfalso. apply (Hn n), Hiff. reflexivity.
  - intros y. unfold Get. split.
    + destruct (GetNode keyCmp x m) as [n|] eqn:E; [|discriminate].
      intros H. injection H as <-. exists n. split; [apply Hiff; reflexivity|].
      reflexivity.
    + intros (n & Hf & ->). apply Hiff in Hf. rewrite Hf. reflexivity.
Qed.

(** In the example the second key is found at its node and the first key,
    tombstoned, is not found. *)
Lemma GetNode_finds_the_live_entry_of_a_key_witness :
  GetNode defaultKeyCmp key_b reclaimed = Some 1
  /\ Get defaultKeyCmp key_a reclaimed = None.
Proof.
  destruct (GetNode_finds_the_live_entry_of_a_key defaultKeyCmp reclaimed key_b
              defaultKeyCmp_order
              (operating_acts defaultKeyCmp reclaiming New
                 (operating_New defaultKeyCmp)
                 ltac:(vm_compute; repeat split; auto))) as (H1 & _).
  split; [|vm_compute; reflexivity].
  apply H1. vm_compute. repeat split; auto.
Defined.



(** X5. In a database in use, [Delete] succeeds exactly when the key has a live
    entry.  When it does not the database is unchanged.  When it does the
    counter is one down.  In both cases the key has no live entry
    afterwards: [GetNode] and [Get] return nil and a second [Delete] of the
    key returns false and changes nothing. *)
Theorem Delete_succeeds_exactly_on_live_keys (keyCmp : KeyCompare) (m : MemDB)
    (w : ptr) (x : Item) (Hkey : KeyOrder keyCmp) (Hop : operating keyCmp m) :
  let m' := fst (Delete keyCmp w x m) in
  let success := snd (Delete keyCmp w x m) in
  (success = true <-> exists n, GetNode keyCmp x m = Some n)
  /\ (success = false -> m' = m)
  /\ (success = true -> ItemsCount m' = Int.i64 (ItemsCount m - 1))
  /\ GetNode keyCmp x m' = None
  /\ Get keyCmp x m' = None
  /\ Delete keyCmp w x m' = (m', false).
Proof.
  intros m' success.
  pose proof (operating_sound keyCmp m Hkey Hop) as Hsound.
  assert (Hnil : forall m0, GetNode keyCmp x m0 = None ->
            Get keyCmp x m0 = None /\ Delete keyCmp w x m0 = (m0, false)).
  { intros m0 H0. unfold Get, Delete, Delete2, Delete2'. rewrite H0.
    split; reflexivity. }
  destruct (GetNode keyCmp x m) as [n|] eqn:Eg.
  - destruct (Delete2'_after keyCmp Hkey w x m n Hsound Eg)
      as (m1 & how & E & Hcnt & Hafter).
    assert (Ed : Delete keyCmp w x m = (m1, true)).
    { unfold Delete, Delete2. rewrite E. reflexivity. }
    unfold m', success. rewrite Ed. cbn [fst snd].
    destruct (Hnil m1 Hafter) as [Hget Hdel].
    split; [split; [eauto | reflexivity]|].
    split; [discriminate|]. split; [|repeat split; assumption].
    intros _. unfold ItemsCount. rewrite Hcnt. f_equal.
  - destruct (Hnil m Eg) as [Hget Hdel].
    unfold m', success. rewrite Hdel. cbn [fst snd].
    split; [split; [discriminate | intros (n & Hn); discriminate]|].
    split; [reflexivity|]. split; [discriminate|]. repeat split; assumption.
Qed.

(** In the example the [Delete] of the second key succeeds and leaves no
    entry to find; the [Delete] of the first key, tombstoned already,
    fails. *)
Lemma Delete_succeeds_exactly_on_live_keys_witness :
  snd (Delete defaultKeyCmp 0 key_b reclaimed) = true
  /\ GetNode defaultKeyCmp key_b (fst (Delete defaultKeyCmp 0 key_b reclaimed))
     = None
  /\ Delete defaultKeyCmp 0 key_a reclaimed = (reclaimed, false).
Proof.
  destruct (Delete_succeeds_exactly_on_live_keys defaultKeyCmp reclaimed 0 key_b
              defaultKeyCmp_order
              (operating_acts defaultKeyCmp reclaiming New
                 (operating_New defaultKeyCmp)
                 ltac:(vm_compute; repeat split; auto)))
    as (_ & _ & _ & Hg & _).
  split; [vm_compute; reflexivity|]. split; [exact Hg | vm_compute; reflexivity].
Defined.

(** ** What a snapshot sees *)

Lemma filter_map_comm {A B : Type} (P : B -> bool) (g : A -> B) (l : list A) :
  List.filter P (map g l) = map g (List.filter (fun a => P (g a)) l).
Proof.
  induction l as [|a l IH]; simpl; trivial.
  destruct (P (g a)); simpl; rewrite IH; reflexivity.
Qed.

(** An iteration over a snapshot from [SeekFirst] yields the items of the
    nodes the snapshot sees. *)
Lemma scan_sees (m : MemDB) (s : ptr) (c : list ptr) :
  scan (S (length (store m))) m (Iterator_SeekFirst m (mkIterator s c))
  = Some (map (Item_at (nodes m)) (sees m s)).
Proof.
  unfold Iterator_SeekFirst, skiplist.SeekFirst. cbn [snap].
  rewrite scan_skipped by lia. rewrite filter_map_comm. reflexivity.
Qed.


Lemma sees_ext (m m' : MemDB) (s : ptr) :
  store m' = store m ->
  (forall e, In e (store m) ->
     visible (Snapshot_at (snaps m') s) (Item_at (nodes m') e)
     = visible (Snapshot_at (snaps m) s) (Item_at (nodes m) e)) ->
  sees m' s = sees m s.
Proof.
  intros Hs Hv. unfold sees. rewrite Hs. apply List.filter_ext_in. exact Hv.
Qed.













(** ** The collector *)

(** X7. A collector that receives a list in a database in use unlinks nothing
    but nodes tombstoned at or before [leastUnrefSn], which no live snapshot
    sees; it allocates and stamps nothing and leaves the counter alone.  So
    every live snapshot sees the same nodes after as before, and an
    iteration over it yields the same items. *)
Theorem collector_unlinks_only_what_no_live_snapshot_sees
    (keyCmp : KeyCompare) (m : MemDB) (fuel : nat)
    (Hkey : KeyOrder keyCmp) (Hop : operating keyCmp m) :
  let m' := collectionWorker_recv fuel m in
  let item := Item_at (nodes m) in
  (forall e, In e (store m') -> In e (store m))
  /\ (forall e, In e (store m) -> ~ In e (store m') ->
        (0 < deadSn (item e) <= getLeastUnrefSn m)%N
        /\ forall s, In s (snapshots m) ->
             visible (Snapshot_at (snaps m) s) (item e) = false)
  /\ nodes m' = nodes m
  /\ snaps m' = snaps m
  /\ snapshots m' = snapshots m
  /\ ItemsCount m' = ItemsCount m
  /\ gcchan m' = tl (gcchan m)
  /\ (forall s, In s (snapshots m) ->
        sees m' s = sees m s
        /\ scan (S (length (store m'))) m'
             (Iterator_SeekFirst m' (mkIterator s []))
           = scan (S (length (store m))) m
               (Iterator_SeekFirst m (mkIterator s []))).
Proof.
  intros m' item.
  destruct (operating_sound keyCmp m Hkey Hop) as (_ & _ & Hg & _).
  destruct (collectionWorker_recv_spec fuel m Hg) as (ks & E & Hks).
  fold m' in E.
  assert (Hinvisible : forall k s,
            (0 < deadSn (item k) <= leastUnrefSn m)%N -> In s (snapshots m) ->
            visible (Snapshot_at (snaps m) s) (item k) = false).
  { intros k s Hk Hs. pose proof (gc_least m Hg s Hs) as Hl.
    unfold visible. apply andb_false_iff. right. apply orb_false_iff.
    split; [apply N.eqb_neq; lia | apply N.ltb_ge; lia]. }
  rewrite List.Forall_forall in Hks.
  assert (Hst : store m' = unlinks ks (store m)) by (rewrite E; reflexivity).
  assert (Hn : nodes m' = nodes m) by (rewrite E; reflexivity).
  assert (Hsp : snaps m' = snaps m) by (rewrite E; reflexivity).
  split; [|split; [|repeat split]]; try (rewrite E; reflexivity).
  - intros e He. rewrite Hst in He. eapply unlinks_subset; eauto.
  - intros e He Hgone.
    assert (Hk : In e ks).
    { destruct (in_dec Nat.eq_dec e ks) as [H|H]; [exact H|].
      exfalso. apply Hgone. rewrite Hst. apply unlinks_keeps; assumption. }
    split; [apply Hks, Hk|]. intros s Hs. apply Hinvisible; [apply Hks, Hk | exact Hs].
  - unfold sees. rewrite Hst, Hn, Hsp.
    pose proof (filter_map_unlinks (fun e : ptr => e)
                  (fun e => visible (Snapshot_at (snaps m) s) (Item_at (nodes m) e))
                  ks (store m)) as Hf.
    rewrite !map_id in Hf. apply Hf. apply List.Forall_forall.
    intros k Hk. apply Hinvisible; [apply Hks, Hk | assumption].
  - rewrite !scan_sees. f_equal. rewrite Hn. f_equal.
    unfold sees. rewrite Hst, Hn, Hsp.
    pose proof (filter_map_unlinks (fun e : ptr => e)
                  (fun e => visible (Snapshot_at (snaps m) s) (Item_at (nodes m) e))
                  ks (store m)) as Hf.
    rewrite !map_id in Hf. apply Hf. apply List.Forall_forall.
    intros k Hk. apply Hinvisible; [apply Hks, Hk | assumption].
Qed.

(** In the example the collector unlinks the tombstoned node, and the live
    snapshot sees the one node it saw. *)
Lemma collector_unlinks_only_what_no_live_snapshot_sees_witness :
  store reclaimed = [0; 1]
  /\ store (collectionWorker_recv 8 reclaimed) = [1]
  /\ snapshots reclaimed = [2]
  /\ sees reclaimed 2 = [1]
  /\ sees (collectionWorker_recv 8 reclaimed) 2 = sees reclaimed 2.
Proof.
  destruct (collector_unlinks_only_what_no_live_snapshot_sees defaultKeyCmp
              reclaimed 8 defaultKeyCmp_order
              (operating_acts defaultKeyCmp reclaiming New
                 (operating_New defaultKeyCmp)
                 ltac:(vm_compute; repeat split; auto)))
    as (_ & _ & _ & _ & _ & _ & _ & H).
  split; [vm_compute; reflexivity|]. split; [vm_compute; reflexivity|].
  split; [vm_compute; reflexivity|]. split; [vm_compute; reflexivity|].
  apply H. vm_compute. auto.
Defined.

(** ** The sequence numbers *)

Lemma NewSnapshot_least (m : MemDB) :
  leastUnrefSn (fst (NewSnapshot m)) = leastUnrefSn m.
Proof.
  unfold NewSnapshot. simpl. destruct (_ =? _)%N; simpl; [reflexivity|].
  destruct (stitch _ _ _ _ _) as [[[hd tl] hn] hw]. reflexivity.
Qed.

Lemma Put2_least (keyCmp : KeyCompare) (x : Item) (m : MemDB) :
  leastUnrefSn (fst (fst (Put2 keyCmp x m))) = leastUnrefSn m.
Proof.
  pose proof (Put2_cases keyCmp x m) as H. cbv zeta in H.
  destruct (List.find _ (store m)); rewrite H; reflexivity.
Qed.

Lemma DeleteNode'_least (w x : ptr) (m : MemDB) :
  leastUnrefSn (fst (fst (DeleteNode' w x m))) = leastUnrefSn m.
Proof.
  unfold DeleteNode'.
  destruct (nodes m !! x) as [nd|]; [|reflexivity].
  destruct (_ =? _)%N.
  - destruct (skiplist.DeleteNode x (store m)) as [chain [|]]; reflexivity.
  - destruct (_ =? _)%N; [|reflexivity].
    lazy beta iota zeta delta [fst snd]. unfold retire.
    destruct (gctail _); reflexivity.
Qed.

Lemma step_stamps (keyCmp : KeyCompare) (o : Op) (m : MemDB) :
  sound keyCmp m -> proper (Call o) m ->
  (leastUnrefSn m <= leastUnrefSn (fst (step keyCmp o m)))%N
  /\ (currSn m <= currSn (fst (step keyCmp o m)))%N.
Proof.
  intros (Hs & Hp & Hg & Hv) Hadm.
  destruct o as [| |s|s| |x|w x|w n]; simpl in *.
  - split; lia.
  - rewrite NewSnapshot_least.
    destruct (NewSnapshot_nodes m) as (_ & _ & _ & ->).
    rewrite add32_succ by lia. split; lia.
  - unfold Open. destruct (_ =? _)%Z; simpl; split; lia.
  - destruct (Close_least s m Hp Hg) as (H & _).
    destruct (Close_frame s m) as (_ & _ & -> & _). split; [exact H | lia].
  - destruct (GC_frame_gc m) as (_ & -> & _).
    destruct (GC_frame m) as (_ & _ & -> & _). split; lia.
  - pose proof (Put2_least keyCmp x m) as H1.
    pose proof (Put2_frame keyCmp x m) as (_ & _ & H2).
    destruct (Put2 keyCmp x m) as [[m' r] ok]. simpl in *.
    rewrite H1, H2. split; lia.
  - unfold Delete2'. destruct (GetNode keyCmp x m) as [n|]; [|split; simpl; lia].
    pose proof (DeleteNode'_least w n m) as H1.
    pose proof (DeleteNode'_frame w n m) as (_ & _ & H2).
    destruct (DeleteNode' w n m) as [[m' ok] how]. simpl in *.
    rewrite H1, H2. split; lia.
  - pose proof (DeleteNode'_least w n m) as H1.
    pose proof (DeleteNode'_frame w n m) as (_ & _ & H2).
    destruct (DeleteNode' w n m) as [[m' ok] how]. simpl in *.
    rewrite H1, H2. split; lia.
Qed.

(** X8. In a database in use [leastUnrefSn] is below the [sn] of every live
    snapshot and below [currSn]; every snapshot was stamped with a sequence
    from 1 to below [currSn]; every list on the channel is headed by a node
    tombstoned at or before [leastUnrefSn]; and no action lowers
    [leastUnrefSn] or [currSn]. *)
Theorem leastUnrefSn_stays_below_live_snapshots (keyCmp : KeyCompare)
    (m : MemDB) (a : Action)
    (Hkey : KeyOrder keyCmp) (Hop : operating keyCmp m) (Ha : proper a m) :
  (forall s, In s (snapshots m) ->
     (getLeastUnrefSn m < sn (Snapshot_at (snaps m) s))%N)
  /\ (getLeastUnrefSn m < getCurrSn m)%N
  /\ (forall s, s < length (snaps m) ->
        (1 <= sn (Snapshot_at (snaps m) s) < getCurrSn m)%N)
  /\ (forall p, In (Some p) (gcchan m) ->
        (0 < deadSn (Item_at (nodes m) p) <= getLeastUnrefSn m)%N)
  /\ (getLeastUnrefSn m <= getLeastUnrefSn (act keyCmp a m))%N
  /\ (getCurrSn m <= getCurrSn (act keyCmp a m))%N.
Proof.
  pose proof (operating_sound keyCmp m Hkey Hop) as Hsound.
  pose proof Hsound as (_ & _ & [I1 I2 I3 I4 I5 I6 I7 I8] & _).
  unfold getLeastUnrefSn, getCurrSn.
  split; [exact I5|]. split; [exact I6|]. split; [|split; [exact I4|]].
  - intros s Hs. apply lookup_lt_is_Some_2 in Hs as [sp Hsp].
    unfold Snapshot_at. rewrite Hsp. apply (I3 s sp Hsp).
  - destruct a as [o|fuel]; simpl.
    + apply step_stamps; assumption.
    + destruct Hsound as (_ & _ & Hg & _).
      destruct (collectionWorker_recv_spec fuel m Hg) as (ks & -> & _).
      simpl. split; lia.
Qed.

(** In the example [leastUnrefSn] is 2, below the one live snapshot, and
    the [Close] of that snapshot leaves it at 2. *)
Lemma leastUnrefSn_stays_below_live_snapshots_witness :
  getLeastUnrefSn reclaimed = 2%N
  /\ snapshots reclaimed = [2]
  /\ (getLeastUnrefSn reclaimed < sn (Snapshot_at (snaps reclaimed) 2))%N
  /\ (getLeastUnrefSn reclaimed
      <= getLeastUnrefSn (act defaultKeyCmp (Call (OpClose 2)) reclaimed))%N.
Proof.
  destruct (leastUnrefSn_stays_below_live_snapshots defaultKeyCmp reclaimed
              (Call (OpClose 2)) defaultKeyCmp_order
              (operating_acts defaultKeyCmp reclaiming New
                 (operating_New defaultKeyCmp)
                 ltac:(vm_compute; repeat split; auto)) I)
    as (H1 & _ & _ & _ & H5 & _).
  split; [vm_compute; reflexivity|]. split; [vm_compute; reflexivity|].
  split; [|exact H5]. apply H1. vm_compute. auto.
Defined.

(** ** The life of a snapshot *)

Lemma i32_i32_add (a b : Z) : Int.i32 (Int.i32 a + b) = Int.i32 (a + b).
Proof.
  unfold Int.i32. f_equal.
  replace ((a + 2147483648) mod 4294967296 - 2147483648 + b + 2147483648)%Z
    with ((a + 2147483648) mod 4294967296 + b)%Z by lia.
  rewrite Z.add_mod_idemp_l by lia. f_equal. lia.
Qed.

Lemma i32_small (z : Z) :
  (-2147483648 <= z < 2147483648)%Z -> Int.i32 z = z.
Proof.
  intros Hz. unfold Int.i32. rewrite Z.mod_small by lia. lia.
Qed.

Lemma set_refCount_at (h : list Snapshot) (s : ptr) (c : Z) (sp : Snapshot) :
  h !! s = Some sp ->
  set_refCount h s c = <[s := mkSnapshot (sn sp) c (s_count sp) (gclist sp)]> h.
Proof. intros H. unfold set_refCount. rewrite H. reflexivity. Qed.

Lemma set_snaps_set_snaps (m : MemDB) (a b : list Snapshot) :
  set_snaps (set_snaps m a) b = set_snaps m b.
Proof. reflexivity. Qed.

Lemma set_snaps_id (m : MemDB) : set_snaps m (snaps m) = m.
Proof. destruct m. reflexivity. Qed.

(** X9. [Open] that succeeds, followed by [Close], leaves the database as it
    was: the count of references goes up by one and comes back, and nothing
    else is touched.  So does [NewIterator] followed by the [Close] of the
    iterator. *)
Theorem Open_then_Close_restores_the_database (s : ptr) (m : MemDB)
    (Hopen : snd (Open s m) = true)
    (Hrange : (-2147483648 <= refCount (Snapshot_at (snaps m) s)
               < 2147483648)%Z) :
  s < length (snaps m)
  /\ refCount (Snapshot_at (snaps m) s) <> 0%Z
  /\ refCount (Snapshot_at (snaps (fst (Open s m))) s)
     = Int.i32 (refCount (Snapshot_at (snaps m) s) + 1)
  /\ Close s (fst (Open s m)) = m
  /\ exists it,
       NewIterator s m = (fst (Open s m), Some it)
       /\ snap it = s
       /\ Iterator_Close it (fst (NewIterator s m)) = m.
Proof.
  unfold NewIterator, Iterator_Close.
  unfold Open in *.
  destruct (Z.eqb_spec (refCount (Snapshot_at (snaps m) s)) 0) as [E|Hne];
    [discriminate|]. cbn [fst snd] in *.
  destruct (snaps m !! s) as [sp|] eqn:Es.
  2:{ exfalso. apply Hne. unfold Snapshot_at. rewrite Es. reflexivity. }
  assert (Hlt : s < length (snaps m)) by (eapply lookup_lt_Some; eauto).
  assert (Hat : Snapshot_at (snaps m) s = sp)
    by (unfold Snapshot_at; rewrite Es; reflexivity).
  rewrite Hat in *.
  set (r1 := Int.i32 (refCount sp + 1)).
  set (h1 := set_refCount (snaps m) s r1).
  assert (Hh1 : h1 !! s = Some (mkSnapshot (sn sp) r1 (s_count sp) (gclist sp))).
  { unfold h1. rewrite (set_refCount_at _ _ _ _ Es).
    apply list_lookup_insert_eq, Hlt. }
  assert (Hat1 : Snapshot_at h1 s = mkSnapshot (sn sp) r1 (s_count sp) (gclist sp))
    by (unfold Snapshot_at; rewrite Hh1; reflexivity).
  assert (Hback : Close s (set_snaps m h1) = m).
  { assert (Hr : Int.i32 (refCount (Snapshot_at (snaps (set_snaps m h1)) s) + -1)
                 = refCount sp).
    { cbn [snaps set_snaps]. rewrite Hat1. cbn [refCount]. unfold r1.
      rewrite i32_i32_add.
      replace (refCount sp + 1 + -1)%Z with (refCount sp) by lia.
      apply i32_small, Hrange. }
    rewrite Close_keeps_reference by (rewrite Hr; exact Hne).
    rewrite Hr. cbn [snaps set_snaps]. rewrite set_snaps_set_snaps.
    rewrite (set_refCount_at _ _ _ _ Hh1). cbn [sn s_count gclist].
    unfold h1. rewrite (set_refCount_at _ _ _ _ Es).
    rewrite list_insert_insert_eq.
    rewrite list_insert_id by (rewrite Es; destruct sp; reflexivity).
    apply set_snaps_id. }
  split; [exact Hlt|]. split; [exact Hne|]. split; [|split; [exact Hback|]].
  - cbn [snaps set_snaps]. fold r1 h1. rewrite Hat1. reflexivity.
  - eexists. split; [reflexivity|]. split; [reflexivity|]. exact Hback.
Qed.

(** The snapshot of the example is opened a second time and closed. *)
Lemma Open_then_Close_restores_the_database_witness :
  snd (Open 0 snapped) = true
  /\ refCount (Snapshot_at (snaps (fst (Open 0 snapped))) 0) = 2%Z
  /\ Close 0 (fst (Open 0 snapped)) = snapped.
Proof.
  destruct (Open_then_Close_restores_the_database 0 snapped
              ltac:(vm_compute; reflexivity)
              ltac:(vm_compute; split; [intro; discriminate | reflexivity]))
    as (_ & _ & _ & H & _).
  split; [vm_compute; reflexivity|]. split; [vm_compute; reflexivity | exact H].
Defined.

Lemma GC_after (m : MemDB) :
  leastUnrefSn (GC m) = leastUnrefSn m
  /\ lastGCSn (GC m)
     = (if negb (leastUnrefSn m =? lastGCSn m)%N && (0 <? leastUnrefSn m)%N
        then leastUnrefSn m else lastGCSn m)
  /\ isGCRunning (GC m) <> 1%Z.
Proof.
  unfold GC, collectDead, skiplist.SeekFirst, getLeastUnrefSn.
  destruct (negb (leastUnrefSn m =? lastGCSn m)%N && (0 <? leastUnrefSn m)%N).
  - rewrite collectDead_loop_spec by reflexivity.
    cbn [gcsnapshots snaps gcchan leastUnrefSn isGCRunning lastGCSn
         set_lastGCSn set_gcchan set_gcsnapshots].
    destruct (Z.eqb_spec (isGCRunning m) 1) as [E|E]; simpl;
      repeat split; trivial; lia.
  - destruct (Z.eqb_spec (isGCRunning m) 1) as [E|E]; simpl;
      repeat split; trivial; lia.
Qed.

(** X10. A second pass of [GC] right after a pass does nothing: [lastGCSn] is
    [leastUnrefSn] by then, or [leastUnrefSn] is 0, and the flag is down. *)
Theorem GC_twice_is_GC_once (m : MemDB) :
  GC (GC m) = GC m
  /\ lastGCSn (GC m)
     = (if negb (getLeastUnrefSn m =? lastGCSn m)%N && (0 <? getLeastUnrefSn m)%N
        then getLeastUnrefSn m else lastGCSn m)
  /\ isGCRunning (GC m) <> 1%Z.
Proof.
  destruct (GC_after m) as (H1 & H2 & H3).
  split; [|split; assumption].
  set (g := GC m) in *. unfold GC at 1. unfold getLeastUnrefSn.
  rewrite H1, H2.
  assert (Hc : negb (leastUnrefSn m
                     =? (if negb (leastUnrefSn m =? lastGCSn m)%N
                            && (0 <? leastUnrefSn m)%N
                         then leastUnrefSn m else lastGCSn m))%N
               && (0 <? leastUnrefSn m)%N = false).
  { destruct (negb (leastUnrefSn m =? lastGCSn m)%N && (0 <? leastUnrefSn m)%N)
      eqn:Ec; [|exact Ec].
    rewrite N.eqb_refl. reflexivity. }
  rewrite Hc. destruct (Z.eqb_spec (isGCRunning g) 1); [contradiction | reflexivity].
Qed.

(** ** The live set *)






Lemma unlink_app_notin {A : Type} `{EqDecision A} (n : A) (a b : list A) :
  ~ In n a -> skiplist.unlink n (a ++ n :: b) = a ++ b.
Proof.
  induction a as [|e a IH]; simpl; intros Hn.
  - destruct (decide (n = n)); [reflexivity | contradiction].
  - destruct (decide (e = n)) as [->|Hne]; [tauto|].
    f_equal. apply IH. tauto.
Qed.







(** ** Snapshots that do not overlap *)

Lemma acts_app (keyCmp : KeyCompare) (l1 l2 : list Action) (m : MemDB) :
  acts keyCmp (l1 ++ l2) m = acts keyCmp l2 (acts keyCmp l1 m).
Proof.
  revert m. induction l1 as [|a l1 IH]; intros m; simpl; [reflexivity|].
  apply IH.
Qed.

Lemma proper_all_app (keyCmp : KeyCompare) (l1 l2 : list Action) (m : MemDB) :
  proper_all keyCmp (l1 ++ l2) m ->
  proper_all keyCmp l1 m /\ proper_all keyCmp l2 (acts keyCmp l1 m).
Proof.
  revert m. induction l1 as [|a l1 IH]; intros m; simpl; [tauto|].
  intros [Ha H]. destruct (IH _ H). tauto.
Qed.

Lemma alone_all_app (keyCmp : KeyCompare) (l1 l2 : list Action) (m : MemDB) :
  alone_all keyCmp (l1 ++ l2) m ->
  alone_all keyCmp l1 m /\ alone_all keyCmp l2 (acts keyCmp l1 m).
Proof.
  revert m. induction l1 as [|a l1 IH]; intros m; simpl; [tauto|].
  intros [Ha H]. destruct (IH _ H). tauto.
Qed.

Lemma NewSnapshot_idle (m : MemDB) :
  lastGCSn (fst (NewSnapshot m)) = lastGCSn m
  /\ gcchan (fst (NewSnapshot m)) = gcchan m.
Proof.
  unfold NewSnapshot. simpl. destruct (_ =? _)%N; simpl; [split; reflexivity|].
  destruct (stitch _ _ _ _ _) as [[[hd tl] hn] hw]. split; reflexivity.
Qed.

Lemma Put2_idle (keyCmp : KeyCompare) (x : Item) (m : MemDB) :
  lastGCSn (fst (fst (Put2 keyCmp x m))) = lastGCSn m
  /\ gcchan (fst (fst (Put2 keyCmp x m))) = gcchan m.
Proof.
  pose proof (Put2_cases keyCmp x m) as H. cbv zeta in H.
  destruct (List.find _ (store m)); rewrite H; split; reflexivity.
Qed.

Lemma DeleteNode'_idle (w x : ptr) (m : MemDB) :
  lastGCSn (fst (fst (DeleteNode' w x m))) = lastGCSn m
  /\ gcchan (fst (fst (DeleteNode' w x m))) = gcchan m.
Proof.
  unfold DeleteNode'.
  destruct (nodes m !! x) as [nd|]; [|split; reflexivity].
  destruct (_ =? _)%N.
  - destruct (skiplist.DeleteNode x (store m)) as [chain [|]]; split; reflexivity.
  - destruct (_ =? _)%N; [|split; reflexivity].
    lazy beta iota zeta delta [fst snd]. unfold retire.
    destruct (gctail _); split; reflexivity.
Qed.

Lemma CompareSnapshot_refl (a : Snapshot) : CompareSnapshot a a = 0%Z.
Proof. unfold CompareSnapshot. rewrite Z.sub_diag. reflexivity. Qed.

Lemma Close_idle (s : ptr) (m : MemDB) :
  snapshots m = [] \/ snapshots m = [s] -> idle m -> idle (Close s m).
Proof.
  intros Hal (H1 & H2 & H3).
  destruct (Close_frame_gc s m) as (_ & Hch & _).
  assert (Hlast : lastGCSn (Close s m) = lastGCSn m).
  { unfold Close, setLeastUnrefSn. destruct (_ =? 0)%Z; [|reflexivity].
    cbn [snaps snapshots set_snaps set_snapshots set_gcsnapshots].
    destruct (skiplist.Get _ _); simpl; destruct (_ =? 0)%Z; reflexivity. }
  split; [|split; [rewrite Hlast; exact H2 | rewrite Hch; exact H3]].
  destruct (Z.eq_dec (Int.i32 (refCount (Snapshot_at (snaps m) s) + -1)) 0%Z)
    as [H0|H0].
  - destruct (Close_last_reference s m H0) as (_ & _ & Hleast).
    cbv zeta in Hleast. rewrite Hleast.
    destruct Hal as [E | E]; rewrite E; unfold skiplist.Delete; simpl.
    + exact H1.
    + repeat (rewrite CompareSnapshot_refl; simpl). exact H1.
  - rewrite (Close_keeps_reference s m H0). exact H1.
Qed.

Lemma idle_act (keyCmp : KeyCompare) (a : Action) (m : MemDB) :
  alone a m -> idle m -> idle (act keyCmp a m).
Proof.
  intros Hal Hid. pose proof Hid as (H1 & H2 & H3).
  destruct a as [[| |s|s| |x|w x|w n]|fuel]; simpl in *.
  - exact Hid.
  - destruct (NewSnapshot_idle m) as [E2 E3].
    unfold idle. rewrite NewSnapshot_least, E2, E3. exact Hid.
  - unfold Open. destruct (_ =? _)%Z; exact Hid.
  - apply Close_idle; assumption.
  - unfold GC, getLeastUnrefSn. rewrite H1.
    change (0 <? 0)%N with false. rewrite andb_false_r.
    destruct (_ =? 1)%Z; exact Hid.
  - destruct (Put2_idle keyCmp x m) as [E2 E3].
    pose proof (Put2_least keyCmp x m) as E1.
    destruct (Put2 keyCmp x m) as [[m' r] ok]. simpl in *.
    unfold idle. rewrite E1, E2, E3. exact Hid.
  - unfold Delete2'. destruct (GetNode keyCmp x m) as [n|]; [|exact Hid].
    destruct (DeleteNode'_idle w n m) as [E2 E3].
    pose proof (DeleteNode'_least w n m) as E1.
    destruct (DeleteNode' w n m) as [[m' ok] how]. simpl in *.
    unfold idle. rewrite E1, E2, E3. exact Hid.
  - destruct (DeleteNode'_idle w n m) as [E2 E3].
    pose proof (DeleteNode'_least w n m) as E1.
    destruct (DeleteNode' w n m) as [[m' ok] how]. simpl in *.
    unfold idle. rewrite E1, E2, E3. exact Hid.
  - unfold collectionWorker_recv. rewrite H3. exact Hid.
Qed.

Lemma idle_acts (keyCmp : KeyCompare) (l : list Action) (m : MemDB) :
  alone_all keyCmp l m -> idle m -> idle (acts keyCmp l m).
Proof.
  revert m. induction l as [|a l IH]; intros m Hal Hid; simpl; trivial.
  destruct Hal as [Ha Hal]. apply IH; [exact Hal|]. apply idle_act; assumption.
Qed.

(** [DeleteNode] leaves a tombstoned entry of the index where it is. *)
Lemma DeleteNode'_keeps_tombstoned (keyCmp : KeyCompare) (w n : ptr)
    (m : MemDB) (e : ptr) :
  version_inv keyCmp m ->
  In e (store m) -> deadSn (Item_at (nodes m) e) <> 0%N ->
  In e (store (fst (fst (DeleteNode' w n m))))
  /\ deadSn (Item_at (nodes (fst (fst (DeleteNode' w n m)))) e)
     = deadSn (Item_at (nodes m) e).
Proof.
  intros Hv Hin Hdead. unfold DeleteNode'.
  destruct (nodes m !! n) as [nd|] eqn:End; [|split; [exact Hin | reflexivity]].
  assert (Hlt : n < length (nodes m)) by (eapply lookup_lt_Some; eauto).
  assert (Hx : Item_at (nodes m) n = itm nd)
    by (unfold Item_at; rewrite End; reflexivity).
  destruct (N.eqb_spec (bornSn (itm nd)) (getCurrSn m)) as [Hb|Hb].
  - assert (Hne : e <> n).
    { intros ->. pose proof (v_dead keyCmp m Hv n Hin Hdead) as H.
      rewrite Hx, Hb in H. unfold getCurrSn in H. lia. }
    pose proof (DeleteNode_unlink n (store m)) as Hfst.
    destruct (skiplist.DeleteNode n (store m)) as [chain ok]. simpl in Hfst.
    subst chain. lazy beta iota zeta delta [fst snd].
    destruct ok; cbn [store nodes set_count set_store];
      (split; [apply unlink_keeps; assumption | reflexivity]).
  - destruct (N.eqb_spec (deadSn (itm nd)) 0) as [D|D];
      lazy beta iota zeta delta [fst snd]; [|split; [exact Hin | reflexivity]].
    assert (Hne : e <> n) by (intros ->; rewrite Hx in Hdead; contradiction).
    cbn [store nodes set_count]. rewrite retire_store, Item_at_retire.
    cbn [store nodes set_nodes]. rewrite Item_at_set_Item by exact Hlt.
    destruct (decide (e = n)); [contradiction|]. split; [exact Hin | reflexivity].
Qed.

(** A tombstoned entry outlives an action of an idle database. *)
Lemma tombstoned_stays (keyCmp : KeyCompare) (a : Action) (m : MemDB)
    (e : ptr) :
  sound keyCmp m -> idle m ->
  In e (store m) -> deadSn (Item_at (nodes m) e) <> 0%N ->
  In e (store (act keyCmp a m))
  /\ deadSn (Item_at (nodes (act keyCmp a m)) e) = deadSn (Item_at (nodes m) e).
Proof.
  intros (Hs & Hp & Hg & Hv) (H1 & H2 & H3) Hin Hdead.
  assert (Hlt : e < length (nodes m)).
  { destruct Hs as [(Ha & _) _]. apply Ha, Hin. }
  destruct a as [[| |s|s| |x|w x|w n]|fuel]; simpl.
  - split; [exact Hin | reflexivity].
  - destruct (NewSnapshot_nodes m) as (_ & Hi & Hst & _).
    rewrite Hst, Hi. split; [exact Hin | reflexivity].
  - destruct (Open_frame s m) as (Hn & Hst & _). rewrite Hn, Hst.
    split; [exact Hin | reflexivity].
  - destruct (Close_frame s m) as (Hn & Hst & _). rewrite Hn, Hst.
    split; [exact Hin | reflexivity].
  - destruct (GC_frame m) as (Hn & Hst & _). rewrite Hn, Hst.
    split; [exact Hin | reflexivity].
  - pose proof (Put2_cases keyCmp x m) as Hc. cbv zeta in Hc.
    destruct (List.find _ (store m)); rewrite Hc; cbn [fst snd];
      [split; [exact Hin | reflexivity]|].
    cbn [store nodes set_count set_store set_nodes].
    split; [apply in_Insert_chain; right; exact Hin|].
    rewrite Item_at_alloc.
    destruct (decide (e = length (nodes m))); [lia|].
    destruct (decide (e < length (nodes m))); [reflexivity | lia].
  - unfold Delete2'. destruct (GetNode keyCmp x m) as [n|];
      [|split; [exact Hin | reflexivity]].
    pose proof (DeleteNode'_keeps_tombstoned keyCmp w n m e Hv Hin Hdead) as H.
    destruct (DeleteNode' w n m) as [[m' ok] how]. exact H.
  - pose proof (DeleteNode'_keeps_tombstoned keyCmp w n m e Hv Hin Hdead) as H.
    destruct (DeleteNode' w n m) as [[m' ok] how]. exact H.
  - unfold collectionWorker_recv. rewrite H3. split; [exact Hin | reflexivity].
Qed.

Lemma tombstoned_stay (keyCmp : KeyCompare) (l : list Action) (m : MemDB)
    (e : ptr) :
  KeyOrder keyCmp -> operating keyCmp m -> proper_all keyCmp l m ->
  alone_all keyCmp l m -> idle m ->
  In e (store m) -> deadSn (Item_at (nodes m) e) <> 0%N ->
  In e (store (acts keyCmp l m))
  /\ deadSn (Item_at (nodes (acts keyCmp l m)) e) = deadSn (Item_at (nodes m) e).
Proof.
  intros Hkey. revert m.
  induction l as [|a l IH]; intros m Hop Hpr Hal Hid Hin Hdead; simpl;
    [split; [exact Hin | reflexivity]|].
  destruct Hpr as [Ha Hpr]. destruct Hal as [Hb Hal].
  destruct (tombstoned_stays keyCmp a m e (operating_sound keyCmp m Hkey Hop)
              Hid Hin Hdead) as [Hin' Hdead'].
  destruct (IH (act keyCmp a m)) as [H1 H2]; trivial.
  - apply operating_act; assumption.
  - apply idle_act; assumption.
  - rewrite Hdead'. exact Hdead.
  - split; [exact H1 | rewrite H2; exact Hdead'].
Qed.

(** X12. When every snapshot is closed while it is the only live one,
    [leastUnrefSn] never leaves 0: [setLeastUnrefSn] stores nothing on an
    empty live set.  Then no pass of [GC] promotes a list, the channel stays
    empty, a collector receives nothing, and every entry that was tombstoned
    stays in the index, whatever is closed afterwards. *)
Theorem snapshots_closed_in_turn_release_nothing (keyCmp : KeyCompare)
    (before after : list Action) (Hkey : KeyOrder keyCmp)
    (Hproper : proper_all keyCmp (before ++ after) New)
    (Halone : alone_all keyCmp (before ++ after) New) :
  let m0 := acts keyCmp before New in
  let m := acts keyCmp (before ++ after) New in
  getLeastUnrefSn m = 0%N
  /\ lastGCSn m = 0%N
  /\ gcchan m = []
  /\ gcchan (GC m) = [] /\ gcsnapshots (GC m) = gcsnapshots m
  /\ (forall fuel, collectionWorker_recv fuel m = m)
  /\ (forall e, In e (store m0) -> deadSn (Item_at (nodes m0) e) <> 0%N ->
        In e (store m)
        /\ deadSn (Item_at (nodes m) e) = deadSn (Item_at (nodes m0) e)).
Proof.
  intros m0 m.
  assert (Hnew : idle New) by (repeat split).
  pose proof (idle_acts keyCmp _ New Halone Hnew) as Hid. fold m in Hid.
  destruct (proper_all_app keyCmp _ _ _ Hproper) as [Hp1 Hp2].
  destruct (alone_all_app keyCmp _ _ _ Halone) as [Ha1 Ha2].
  pose proof (idle_acts keyCmp _ New Ha1 Hnew) as Hid0. fold m0 in Hid0.
  pose proof (operating_acts keyCmp before New (operating_New keyCmp) Hp1) as Hop0.
  fold m0 in Hop0, Hp2, Ha2.
  pose proof Hid as (H1 & H2 & H3).
  split; [exact H1|]. split; [exact H2|]. split; [exact H3|].
  assert (Hgc : gcchan (GC m) = gcchan m /\ gcsnapshots (GC m) = gcsnapshots m).
  { unfold GC, getLeastUnrefSn. rewrite H1.
    change (0 <? 0)%N with false. rewrite andb_false_r.
    destruct (_ =? 1)%Z; split; reflexivity. }
  destruct Hgc as [G1 G2].
  split; [rewrite G1; exact H3|]. split; [exact G2|]. split.
  - intros fuel. unfold collectionWorker_recv. rewrite H3. reflexivity.
  - intros e Hin Hdead. unfold m. rewrite acts_app. fold m0.
    apply tombstoned_stay; assumption.
Qed.

(** Three snapshots, each closed before the next is taken, around the
    deletion of a key: the tombstoned node is still in the index after the
    last pass and the last round of the collector. *)
Lemma snapshots_closed_in_turn_release_nothing_witness :
  store (acts defaultKeyCmp in_turn New) = [0]
  /\ deadSn (Item_at (nodes (acts defaultKeyCmp in_turn New)) 0) = 2%N
  /\ snapshots (acts defaultKeyCmp in_turn New) = []
  /\ getLeastUnrefSn (acts defaultKeyCmp in_turn New) = 0%N
  /\ gcchan (acts defaultKeyCmp in_turn New) = [].
Proof.
  destruct (snapshots_closed_in_turn_release_nothing defaultKeyCmp [] in_turn
              defaultKeyCmp_order
              ltac:(vm_compute; repeat split; auto)
              ltac:(vm_compute; repeat split; auto))
    as (H1 & _ & H3 & _).
  split; [vm_compute; reflexivity|]. split; [vm_compute; reflexivity|].
  split; [vm_compute; reflexivity|]. split; [exact H1 | exact H3].
Defined.

(** ** The keys under a snapshot *)

Lemma FOP_filter {A : Type} (R : A -> A -> Prop) (f : A -> bool) (l : list A) :
  ForallOrdPairs R l -> ForallOrdPairs R (List.filter f l).
Proof.
  induction 1 as [|a l Ha _ IH]; simpl; [constructor|].
  destruct (f a); [|exact IH]. constructor; [|exact IH].
  apply List.Forall_forall. intros x Hx. apply filter_In in Hx as [Hx _].
  rewrite List.Forall_forall in Ha. apply Ha, Hx.
Qed.

Lemma FOP_lookup {A : Type} (R : A -> A -> Prop) (l : list A) :
  ForallOrdPairs R l ->
  forall i j p q, i < j -> l !! i = Some p -> l !! j = Some q -> R p q.
Proof.
  induction 1 as [|a l Ha _ IH]; intros i j p q Hij Hp Hq; [discriminate|].
  destruct j as [|j]; [lia|]. simpl in Hq.
  destruct i as [|i].
  - simpl in Hp. injection Hp as <-. rewrite List.Forall_forall in Ha.
    apply Ha, list_elem_of_In. eapply list_elem_of_lookup_2; eauto.
  - simpl in Hp. apply (IH i j); trivial. lia.
Qed.

(** In an ordered chain no entry compares above one behind it. *)
Lemma ordered_FOP (keyCmp : KeyCompare) (m : MemDB) (l : list ptr) :
  KeyOrder keyCmp ->
  ordered (insCmp keyCmp) (map (Item_at (nodes m)) l) = true ->
  forallb stamps_fit (map (Item_at (nodes m)) l) = true ->
  ForallOrdPairs
    (fun p q =>
       (insCmp keyCmp (Item_at (nodes m) p) (Item_at (nodes m) q) <= 0)%Z) l.
Proof.
  intros Hkey. induction l as [|a l IH]; intros Ho Hf; constructor.
  - apply List.Forall_forall. intros e He.
    apply (ordered_pairwise keyCmp Hkey m a l); assumption.
  - apply IH.
    + cbn [map] in Ho. apply ordered_cons in Ho as [Ho _]. exact Ho.
    + cbn [map forallb] in Hf. apply andb_true_iff in Hf as [_ Hf]. exact Hf.
Qed.

Lemma key_flip (keyCmp : KeyCompare) (a b : list byte) :
  KeyOrder keyCmp -> (0 <= keyCmp a b)%Z -> (keyCmp b a <= 0)%Z.
Proof.
  intros Hkey H. pose proof (key_antisym keyCmp Hkey a b) as Hs.
  apply Z.sgn_nonpos. apply Z.sgn_nonneg in H. lia.
Qed.

Lemma key_flop (keyCmp : KeyCompare) (a b : list byte) :
  KeyOrder keyCmp -> (keyCmp a b <= 0)%Z -> (0 <= keyCmp b a)%Z.
Proof.
  intros Hkey H. pose proof (key_antisym keyCmp Hkey a b) as Hs.
  apply Z.sgn_nonneg. apply Z.sgn_nonpos in H. lia.
Qed.

Lemma filter_all {A : Type} (f : A -> bool) (l : list A) :
  (forall e, In e l -> f e = true) -> List.filter f l = l.
Proof.
  induction l as [|a l IH]; intros H; simpl; trivial.
  rewrite (H a) by (left; reflexivity). f_equal. apply IH.
  intros e He. apply H. right. exact He.
Qed.

Lemma filter_comm {A : Type} (f g : A -> bool) (l : list A) :
  List.filter f (List.filter g l) = List.filter g (List.filter f l).
Proof.
  induction l as [|a l IH]; simpl; trivial.
  destruct (f a) eqn:Ef, (g a) eqn:Eg; simpl; rewrite ?Ef, ?Eg, IH; reflexivity.
Qed.

(** On an ordered chain the search by key stops before the entries whose key
    is not below the probe's. *)
Lemma seek_filter (keyCmp : KeyCompare) (m : MemDB) (x : Item) (l : list ptr) :
  KeyOrder keyCmp ->
  ordered (insCmp keyCmp) (map (Item_at (nodes m)) l) = true ->
  forallb stamps_fit (map (Item_at (nodes m)) l) = true ->
  skiplist.seek (Item_at (nodes m)) (iterCmp keyCmp) x l
  = List.filter
      (fun e => (0 <=? keyCmp (Bytes (Item_at (nodes m) e)) (Bytes x))%Z) l.
Proof.
  intros Hkey. induction l as [|a l IH]; intros Ho Hf; simpl; trivial.
  unfold iterCmp at 1, newIterCompare.
  destruct (Z.ltb_spec (keyCmp (Bytes (Item_at (nodes m) a)) (Bytes x)) 0)
    as [Hlt|Hge].
  - destruct (Z.leb_spec 0 (keyCmp (Bytes (Item_at (nodes m) a)) (Bytes x)));
      [lia|].
    apply IH.
    + cbn [map] in Ho. apply ordered_cons in Ho as [Ho _]. exact Ho.
    + cbn [map forallb] in Hf. apply andb_true_iff in Hf as [_ Hf]. exact Hf.
  - destruct (Z.leb_spec 0 (keyCmp (Bytes (Item_at (nodes m) a)) (Bytes x)));
      [|lia].
    f_equal. symmetry. apply filter_all. intros e He. apply Z.leb_le.
    pose proof (ordered_pairwise keyCmp Hkey m a l Ho Hf e He) as Hle.
    assert (Fa : stamps_fit (Item_at (nodes m) a) = true).
    { cbn [map forallb] in Hf. apply andb_true_iff in Hf as [Fa _]. exact Fa. }
    assert (Fe : stamps_fit (Item_at (nodes m) e) = true).
    { rewrite forallb_forall in Hf. apply Hf, in_map. right. exact He. }
    apply insCmp_le_key in Hle; trivial.
    apply (key_flop keyCmp _ _ Hkey).
    apply (key_trans keyCmp Hkey _ (Bytes (Item_at (nodes m) a))); trivial.
    apply (key_flip keyCmp _ _ Hkey). exact Hge.
Qed.

(** Two versions of a key of which one died before the other was born are
    not both visible to a snapshot. *)
Lemma successive_not_both_visible (D : Snapshot) (a b : Item) :
  (0 < deadSn b <= bornSn a)%N ->
  visible D a = true -> visible D b = true -> False.
Proof.
  unfold visible. intros Hd Ha Hb.
  apply andb_true_iff in Ha as [Ha _]. apply andb_true_iff in Hb as [_ Hb].
  apply N.leb_le in Ha. apply orb_true_iff in Hb as [Hb|Hb].
  - apply N.eqb_eq in Hb. lia.
  - apply N.ltb_lt in Hb. lia.
Qed.

(** X13. In a database in use a snapshot sees every key at most once: two
    nodes it sees whose keys compare equal are one node.  What it sees is in
    strictly ascending order of the keys, and an iteration from [SeekFirst]
    yields the items of exactly these nodes, so no key comes twice. *)
Theorem snapshot_sees_each_key_once (keyCmp : KeyCompare) (m : MemDB)
    (s : ptr) (Hkey : KeyOrder keyCmp) (Hop : operating keyCmp m) :
  let key e := Bytes (Item_at (nodes m) e) in
  (forall p q, In p (sees m s) -> In q (sees m s) ->
     keyCmp (key p) (key q) = 0%Z -> p = q)
  /\ (forall i j p q, i < j ->
        sees m s !! i = Some p -> sees m s !! j = Some q ->
        (keyCmp (key p) (key q) < 0)%Z)
  /\ (forall c,
        scan (S (length (store m))) m (Iterator_SeekFirst m (mkIterator s c))
        = Some (map (Item_at (nodes m)) (sees m s))).
Proof.
  intros key.
  destruct (operating_sound keyCmp m Hkey Hop) as (Hs & _ & _ & Hv).
  destruct (store_inv_bools keyCmp m Hs) as (_ & _ & Hord & Hfit).
  pose proof Hv as [V1 _ _ _ _ V6].
  assert (Honce : forall p q, In p (sees m s) -> In q (sees m s) ->
            keyCmp (key p) (key q) = 0%Z -> p = q).
  { intros p q Hp Hq Hk. unfold sees in Hp, Hq.
    apply filter_In in Hp as [Hp Vp]. apply filter_In in Hq as [Hq Vq].
    destruct (decide (p = q)) as [|Hne]; trivial. exfalso.
    destruct (N.le_gt_cases (bornSn (Item_at (nodes m) q))
                (bornSn (Item_at (nodes m) p))) as [Hle|Hgt].
    - eapply successive_not_both_visible; [|exact Vp|exact Vq].
      apply V6; assumption.
    - eapply successive_not_both_visible; [|exact Vq|exact Vp].
      apply V6; trivial; [congruence| |lia].
      apply (key_sym0 keyCmp Hkey), Hk. }
  split; [exact Honce|]. split; [|intros c; apply scan_sees].
  intros i j p q Hij Hp Hq.
  assert (Hin : forall k e, sees m s !! k = Some e -> In e (sees m s)).
  { intros k e He. apply list_elem_of_In. eapply list_elem_of_lookup_2; eauto. }
  pose proof (FOP_lookup _ _
                (FOP_filter _
                   (fun e => visible (Snapshot_at (snaps m) s)
                               (Item_at (nodes m) e)) _
                   (ordered_FOP keyCmp m (store m) Hkey Hord Hfit))
                i j p q Hij Hp Hq) as Hle.
  assert (Fit : forall e, In e (sees m s) ->
            stamps_fit (Item_at (nodes m) e) = true).
  { intros e He. unfold sees in He. apply filter_In in He as [He _].
    rewrite forallb_forall in Hfit. apply Hfit. unfold items.
    apply in_map, He. }
  apply insCmp_le_key in Hle; eauto.
  assert (Hne : keyCmp (key p) (key q) <> 0%Z).
  { intros Hk. pose proof (Honce p q (Hin i p Hp) (Hin j q Hq) Hk) as <-.
    assert (Hd : List.NoDup (sees m s)) by (apply List.NoDup_filter, V1).
    apply NoDup_ListNoDup in Hd.
    pose proof (NoDup_lookup _ i j p Hd Hp Hq). lia. }
  unfold key in *. lia.
Qed.

(** In the example the index holds two versions of the first key; the first
    snapshot sees the old one, the second the new one and the second key. *)
Lemma snapshot_sees_each_key_once_witness :
  store rewritten = [0; 1; 2]
  /\ sees rewritten 0 = [0] /\ sees rewritten 1 = [1; 2]
  /\ scan 4 rewritten (Iterator_SeekFirst rewritten (mkIterator 1 []))
     = Some (map (Item_at (nodes rewritten)) (sees rewritten 1)).
Proof.
  destruct (snapshot_sees_each_key_once defaultKeyCmp rewritten 1
              defaultKeyCmp_order
              (operating_acts defaultKeyCmp rewriting New
                 (operating_New defaultKeyCmp)
                 ltac:(vm_compute; repeat split; auto)))
    as (_ & _ & H3).
  split; [vm_compute; reflexivity|].
  split; [vm_compute; reflexivity|].
  split; [vm_compute; reflexivity|].
  exact (H3 []).
Defined.

(** X14. In a database in use an iteration that starts with [Seek] yields,
    in index order, the items of the nodes the snapshot sees whose key is
    not below the probe's: nothing the snapshot sees from the probe on is
    left out and nothing before the probe is yielded. *)
Theorem Seek_yields_what_the_snapshot_sees_from_the_probe
    (keyCmp : KeyCompare) (m : MemDB) (s : ptr) (x : Item) (c : list ptr)
    (Hkey : KeyOrder keyCmp) (Hop : operating keyCmp m) :
  scan (S (length (store m))) m (Iterator_Seek keyCmp m x (mkIterator s c))
  = Some (map (Item_at (nodes m))
            (List.filter
               (fun e => (0 <=? keyCmp (Bytes (Item_at (nodes m) e)) (Bytes x))%Z)
               (sees m s))).
Proof.
  destruct (operating_sound keyCmp m Hkey Hop) as (Hs & _).
  destruct (store_inv_bools keyCmp m Hs) as (_ & _ & Hord & Hfit).
  unfold Iterator_Seek, skiplist.Seek. cbn [fst snap].
  rewrite scan_skipped
    by (pose proof (seek_length (Item_at (nodes m)) (iterCmp keyCmp) x (store m));
        lia).
  rewrite (seek_filter keyCmp m x (store m) Hkey Hord Hfit).
  rewrite filter_map_comm. unfold sees. rewrite filter_comm. reflexivity.
Qed.

(** In the example a [Seek] to the second key under the second snapshot
    yields that key alone, and a [Seek] to the first key both. *)
Lemma Seek_yields_what_the_snapshot_sees_from_the_probe_witness :
  scan (S (length (store rewritten))) rewritten
    (Iterator_Seek defaultKeyCmp rewritten key_b (mkIterator 1 []))
  = Some [mkItem ["b"%byte] 2 0]
  /\ scan 4 rewritten
       (Iterator_Seek defaultKeyCmp rewritten key_a (mkIterator 1 []))
     = Some [mkItem ["a"%byte] 2 0; mkItem ["b"%byte] 2 0].
Proof.
  split.
  - rewrite (Seek_yields_what_the_snapshot_sees_from_the_probe defaultKeyCmp
               rewritten 1 key_b [] defaultKeyCmp_order
               (operating_acts defaultKeyCmp rewriting New
                  (operating_New defaultKeyCmp)
                  ltac:(vm_compute; repeat split; auto))).
    vm_compute. reflexivity.
  - vm_compute. reflexivity.
Defined.

(** ** The codec of a snapshot *)

Lemma to_N_byte_of (v : N) : Byte.to_N (byte_of v) = (v mod 2 ^ 8)%N.
Proof.
  unfold byte_of. change (2 ^ 8)%N with 256%N.
  destruct (Byte.of_N (v mod 256)) as [b|] eqn:E.
  - apply Byte.to_of_N in E. exact E.
  - apply Byte.of_N_None_iff in E.
    pose proof (N.mod_lt v 256). lia.
Qed.

(** The big-endian bytes of a 32-bit number give the number back. *)
Lemma Uint32_PutUint32 (v : N) :
  (v <= Int.MaxUint32)%N -> Uint32 (PutUint32 v) = v.
Proof.
  intros Hv. unfold Uint32, PutUint32. rewrite !to_N_byte_of.
  assert (Hhigh : forall n, (32 <= n)%N -> N.testbit v n = false).
  { intros n Hn. rewrite <- (N.mod_small v (2 ^ 32))
      by (unfold Int.MaxUint32 in Hv; change (2 ^ 32)%N with 4294967296%N; lia).
    apply N.mod_pow2_bits_high. exact Hn. }
  apply N.bits_inj. intros n. rewrite !N.lor_spec.
  destruct (N.lt_ge_cases n 8) as [H8|H8].
  { rewrite N.mod_pow2_bits_low by lia.
    rewrite !N.shiftl_spec_low by lia.
    rewrite !orb_false_r. reflexivity. }
  rewrite (N.mod_pow2_bits_high v) by lia.
  rewrite (N.shiftl_spec_high' _ 8) by lia.
  destruct (N.lt_ge_cases n 16) as [H16|H16].
  { rewrite N.mod_pow2_bits_low by lia. rewrite N.shiftr_spec'.
    rewrite !N.shiftl_spec_low by lia.
    rewrite !orb_false_r. simpl. f_equal. lia. }
  rewrite (N.mod_pow2_bits_high (N.shiftr v 8)) by lia.
  rewrite (N.shiftl_spec_high' _ 16) by lia.
  destruct (N.lt_ge_cases n 24) as [H24|H24].
  { rewrite N.mod_pow2_bits_low by lia. rewrite N.shiftr_spec'.
    rewrite !N.shiftl_spec_low by lia.
    rewrite !orb_false_r. simpl. f_equal. lia. }
  rewrite (N.mod_pow2_bits_high (N.shiftr v 16)) by lia.
  rewrite (N.shiftl_spec_high' _ 24) by lia.
  destruct (N.lt_ge_cases n 32) as [H32|H32].
  { rewrite N.mod_pow2_bits_low by lia. rewrite N.shiftr_spec'.
    simpl. f_equal. lia. }
  rewrite (N.mod_pow2_bits_high (N.shiftr v 24)) by lia.
  simpl. symmetry. apply Hhigh, H32.
Qed.

Lemma firstn_app_exact {A : Type} (p rest : list A) :
  firstn (length p) (p ++ rest) = p.
Proof.
  rewrite firstn_app, Nat.sub_diag, firstn_all. simpl. apply app_nil_r.
Qed.

Lemma skipn_app_exact {A : Type} (p rest : list A) :
  skipn (length p) (p ++ rest) = rest.
Proof. rewrite skipn_app, Nat.sub_diag, skipn_all. reflexivity. Qed.

Lemma upto_overwrite (p : list byte) (b : Slice) :
  length p <= cap b -> upto (length p) (overwrite p b) = p.
Proof.
  intros Hc. unfold upto, overwrite. cbn [elems spare].
  rewrite firstn_skipn. rewrite firstn_app, Nat.sub_diag, firstn_all.
  simpl. apply app_nil_r.
Qed.

Lemma len_overwrite (p : list byte) (b : Slice) :
  length p <= cap b -> len (overwrite p b) = len b /\ cap (overwrite p b) = cap b.
Proof.
  intros Hc. unfold cap in Hc. rewrite List.length_app in Hc.
  unfold cap, overwrite. cbn [elems spare]. unfold len. cbn [elems spare].
  rewrite firstn_skipn. rewrite length_firstn, !List.length_app, length_skipn.
  rewrite !List.length_app. lia.
Qed.

(** X15. The sequence number of a snapshot survives the codec.  [Encode]
    into a buffer of at least four bytes hands the writer, in one call of
    [Write], the four big-endian bytes of [sn] and returns what [Write]
    returns; [Decode] from a stream that starts with these bytes, through a
    buffer of capacity four or more, returns no error, sets [sn] to the
    number encoded, leaves the other fields of the snapshot and the rest of
    the stream as they were. *)
Theorem Decode_reads_back_what_Encode_wrote (W : Type)
    (Write : list byte -> W -> W * option codec_error) (w : W)
    (s t : Snapshot) (buf buf' : Slice) (rest : list byte)
    (e : option error)
    (Hsn : (sn s <= Int.MaxUint32)%N) (Hlen : 4 <= len buf)
    (Hcap : 4 <= cap buf') :
  let sent := PutUint32 (sn s) in
  Encode W Write s buf w
  = (overwrite sent buf, fst (Write sent w), snd (Write sent w))
  /\ length sent = 4
  /\ Decode t buf' (mkReader (sent ++ rest) e)
     = Returned (mkSnapshot (sn s) (refCount t) (s_count t) (gclist t))
         (overwrite sent buf') (mkReader rest e) None.
Proof.
  intros sent.
  assert (Hfour : length sent = 4) by reflexivity.
  split; [|split; [exact Hfour|]].
  - unfold Encode. destruct (Nat.ltb_spec (len buf) 4) as [|_]; [lia|].
    fold sent. rewrite <- Hfour at 1. rewrite upto_overwrite
      by (unfold cap, len in *; rewrite List.length_app; lia).
    destruct (Write sent w) as [w' err]. reflexivity.
  - unfold Decode. destruct (Nat.ltb_spec (cap buf') 4) as [|_]; [lia|].
    unfold ReadFull. cbn [pending failure].
    destruct (Nat.leb_spec 4 (length (sent ++ rest))) as [_|Hshort];
      [|rewrite List.length_app in Hshort; lia].
    change 4 with (length sent).
    rewrite firstn_app_exact, skipn_app_exact. cbv beta iota zeta.
    rewrite upto_overwrite by (rewrite Hfour; exact Hcap).
    unfold set_sn, sent. rewrite Uint32_PutUint32 by exact Hsn. reflexivity.
Qed.

(** The third snapshot of the example, whose [sn] is 3, through a buffer of
    eight bytes: the bytes written are 0, 0, 0, 3. *)
Lemma Decode_reads_back_what_Encode_wrote_witness :
  PutUint32 (sn (Snapshot_at (snaps reclaimed) 2))
  = ["000"; "000"; "000"; "003"]%byte
  /\ Decode (mkSnapshot 0 1 0 None) (mkSlice (repeat "000"%byte 8) [])
       (mkReader ["000"; "000"; "000"; "003"; "255"]%byte None)
     = Returned (mkSnapshot 3 1 0 None)
         (mkSlice ["000"; "000"; "000"; "003"; "000"; "000"; "000"; "000"]%byte
            [])
         (mkReader ["255"%byte] None) None.
Proof.
  split; [vm_compute; reflexivity|].
  destruct (Decode_reads_back_what_Encode_wrote (list byte)
              (fun p w => (w ++ p, None)) []
              (Snapshot_at (snaps reclaimed) 2) (mkSnapshot 0 1 0 None)
              (mkSlice (repeat "000"%byte 8) [])
              (mkSlice (repeat "000"%byte 8) []) ["255"%byte] None
              ltac:(vm_compute; intro; discriminate)
              ltac:(vm_compute; lia) ltac:(vm_compute; lia))
    as (_ & _ & H).
  etransitivity; [|etransitivity; [exact H|]]; vm_compute; reflexivity.
Defined.

(** X16. How the codec fails.  [Encode] with a buffer shorter than four
    bytes returns [ErrNotEnoughSpace] and writes nothing; otherwise it
    calls [Write] and keeps the length and the capacity of the buffer.
    [Decode] does not look at the length of its buffer: it panics exactly
    when the capacity is below four.  When it returns, only [sn] of the
    snapshot can have changed, and it returns an error exactly when the
    stream held fewer than four bytes: then the snapshot is unchanged, the
    stream is used up, and the error is [EOF] for an empty stream that
    ended, [ErrUnexpectedEOF] for one that ended after one to three bytes,
    and the error of the stream when it failed.  Without an error [sn] is
    the big-endian number of the first four bytes and the stream has lost
    those four bytes. *)
Theorem codec_fails_on_short_buffers_and_streams (W : Type)
    (Write : list byte -> W -> W * option codec_error) (w : W)
    (s : Snapshot) (buf : Slice) (r : Reader) :
  (len buf < 4 ->
     Encode W Write s buf w = (buf, w, Some ErrNotEnoughSpace))
  /\ (4 <= len buf ->
      exists buf',
        Encode W Write s buf w
        = (buf', fst (Write (PutUint32 (sn s)) w),
           snd (Write (PutUint32 (sn s)) w))
        /\ len buf' = len buf /\ cap buf' = cap buf)
  /\ (Decode s buf r = Panicked <-> cap buf < 4)
  /\ (forall s' buf' r' err, Decode s buf r = Returned s' buf' r' err ->
        refCount s' = refCount s /\ s_count s' = s_count s
        /\ gclist s' = gclist s
        /\ len buf' = len buf /\ cap buf' = cap buf
        /\ failure r' = failure r
        /\ match err with
           | None =>
               4 <= length (pending r)
               /\ sn s' = Uint32 (firstn 4 (pending r))
               /\ pending r' = skipn 4 (pending r)
           | Some e =>
               length (pending r) < 4 /\ s' = s /\ pending r' = []
               /\ e = match failure r, pending r with
                      | Some x, _ => ErrStream x
                      | None, [] => EOF
                      | None, _ :: _ => ErrUnexpectedEOF
                      end
           end).
Proof.
  split; [|split; [|split]].
  - intros Hlen. unfold Encode.
    destruct (Nat.ltb_spec (len buf) 4) as [_|]; [reflexivity | lia].
  - intros Hlen. exists (overwrite (PutUint32 (sn s)) buf).
    assert (Hc : length (PutUint32 (sn s)) <= cap buf)
      by (unfold cap, len in *; rewrite List.length_app; simpl; lia).
    split; [|apply len_overwrite, Hc].
    unfold Encode. destruct (Nat.ltb_spec (len buf) 4) as [|_]; [lia|].
    change 4 with (length (PutUint32 (sn s))) at 1.
    rewrite upto_overwrite by exact Hc.
    destruct (Write (PutUint32 (sn s)) w) as [w' err]. reflexivity.
  - unfold Decode. destruct (Nat.ltb_spec (cap buf) 4) as [Hc|Hc].
    + split; [intros _; exact Hc | reflexivity].
    + destruct (ReadFull r 4) as [[got r'] [e|]]; split;
        try discriminate; intros; lia.
  - intros s' buf' r' err. unfold Decode.
    destruct (Nat.ltb_spec (cap buf) 4) as [Hc|Hc]; [discriminate|].
    unfold ReadFull.
    destruct (Nat.leb_spec 4 (length (pending r))) as [Hp|Hp].
    + intros [= <- <- <- <-]. cbn [refCount s_count gclist sn set_sn
        pending failure].
      assert (Hg : length (firstn 4 (pending r)) = 4)
        by (rewrite length_firstn; lia).
      destruct (len_overwrite (firstn 4 (pending r)) buf) as [L C]; [lia|].
      repeat (split; trivial).
      rewrite <- Hg at 1. rewrite upto_overwrite by lia. reflexivity.
    + intros [= <- <- <- <-]. cbn [pending failure].
      destruct (len_overwrite (pending r) buf) as [L C]; [lia|].
      repeat (split; trivial).
Qed.

(** ** The comparators of the default configuration *)

Lemma bytes_Compare_sign (a b : list byte) :
  In (bytes_Compare a b) [(-1)%Z; 0%Z; 1%Z].
Proof.
  revert b. induction a as [|x a IH]; intros [|y b]; simpl; auto.
  destruct (N.compare (Byte.to_N x) (Byte.to_N y)); auto. apply IH.
Qed.

(** X17. The comparators a database gets from the default configuration.
    [defaultKeyCmp] answers -1, 0 or 1, and 0 on equal keys only; it is a
    key order, so what is proved of a database under a key order holds of
    a database with the default comparator.  The insert comparator over it
    orders items by key and, within a key, by [bornSn]: on items whose
    stamps fit 32 bits it answers 0 exactly on items of one key and one
    [bornSn], swapping its arguments swaps the sign of its answer, and "not
    above" is transitive. *)
Theorem default_comparators_order_keys_then_versions :
  KeyOrder defaultKeyCmp
  /\ (forall a b, In (defaultKeyCmp a b) [(-1)%Z; 0%Z; 1%Z])
  /\ (forall a b, defaultKeyCmp a b = 0%Z <-> a = b)
  /\ (forall x y, stamps_fit x = true -> stamps_fit y = true ->
        (insCmp defaultKeyCmp x y = 0%Z
         <-> Bytes x = Bytes y /\ bornSn x = bornSn y)
        /\ Z.sgn (insCmp defaultKeyCmp y x)
           = (- Z.sgn (insCmp defaultKeyCmp x y))%Z)
  /\ (forall x y z,
        stamps_fit x = true -> stamps_fit y = true -> stamps_fit z = true ->
        (insCmp defaultKeyCmp x y <= 0)%Z ->
        (insCmp defaultKeyCmp y z <= 0)%Z ->
        (insCmp defaultKeyCmp x z <= 0)%Z).
Proof.
  pose proof defaultKeyCmp_order as Hkey.
  assert (Hzero : forall a b, defaultKeyCmp a b = 0%Z <-> a = b).
  { intros a b. split; [apply bytes_Compare_eq|].
    intros ->. apply bytes_Compare_refl. }
  split; [exact Hkey|]. split; [intros a b; apply bytes_Compare_sign|].
  split; [exact Hzero|]. split.
  - intros x y Fx Fy.
    rewrite (insCmp_fit defaultKeyCmp x y Fx Fy),
      (insCmp_fit defaultKeyCmp y x Fy Fx).
    pose proof (key_antisym defaultKeyCmp Hkey (Bytes x) (Bytes y)) as Hs.
    destruct (Z.eqb_spec (defaultKeyCmp (Bytes x) (Bytes y)) 0) as [E|E].
    + rewrite (key_sym0 defaultKeyCmp Hkey _ _ E). simpl.
      apply Hzero in E. split; [|lia].
      split; [intros H; split; [exact E | lia] | intros [_ ->]; lia].
    + destruct (Z.eqb_spec (defaultKeyCmp (Bytes y) (Bytes x)) 0) as [E'|E'].
      * exfalso. apply E, (key_sym0 defaultKeyCmp Hkey), E'.
      * split; [|exact Hs]. split; [intros H; contradiction|].
        intros [Hb _]. exfalso. apply E, Hzero, Hb.
  - intros x y z. apply (insCmp_trans defaultKeyCmp Hkey).
Qed.

(** ** The count of a snapshot *)









(** ** A key put and deleted within one sequence *)

(** An item whose key has no live entry is not a duplicate for [Put2]. *)
Lemma Put2_absent (keyCmp : KeyCompare) (x : Item) (m : MemDB) :
  KeyOrder keyCmp -> sound keyCmp m -> deadSn x = 0%N ->
  GetNode keyCmp x m = None ->
  let x' := set_bornSn x (getCurrSn m) in
  let h' := nodes m ++ [mkNode x' None] in
  let k := length (nodes m) in
  List.find (fun e => (existCmp keyCmp (Item_at h' k) (Item_at h' e) =? 0)%Z)
    (store m) = None
  /\ Item_at h' k = x'
  /\ (forall e, In e (store m) -> Item_at h' e = Item_at (nodes m) e)
  /\ ~ In k (store m).
Proof.
  intros Hkey (Hs & _ & _ & Hv) Hx Hnone x' h' k.
  assert (Hnew : Item_at h' k = x').
  { unfold h', k. rewrite Item_at_alloc.
    destruct (decide (length (nodes m) = length (nodes m)));
      [reflexivity | contradiction]. }
  assert (Hold : forall e, In e (store m) -> Item_at h' e = Item_at (nodes m) e).
  { intros e He. unfold h'. rewrite Item_at_alloc.
    destruct Hs as [(Ha & _) _]. specialize (Ha e He).
    destruct (decide (e = length (nodes m))); [lia|].
    destruct (decide (e < length (nodes m))); [reflexivity | lia]. }
  split; [|split; [exact Hnew|split; [exact Hold|]]].
  - destruct (List.find _ (store m)) as [e|] eqn:Ef; [|reflexivity]. exfalso.
    destruct (find_some _ _ Ef) as [He Hz]. apply Z.eqb_eq in Hz.
    rewrite Hnew, (Hold e He) in Hz.
    destruct (existCmp_zero keyCmp _ _ Hz) as (_ & De & Hk).
    assert (Hg : GetNode keyCmp x m = Some e).
    { apply (GetNode_complete keyCmp Hkey); trivial.
      apply (key_sym0 keyCmp Hkey). exact Hk. }
    congruence.
  - intros Hin. destruct Hs as [(Ha & _) _]. specialize (Ha k Hin).
    unfold k in Ha. lia.
Qed.

(** X19. In a database in use, a key that has no live entry, put and then
    deleted before the next snapshot is taken, leaves no trace in the
    index: the [Delete] succeeds by unlinking the node just inserted, with
    no tombstone and nothing retired.  The database is what it was before
    the [Put] but for one allocated node that nothing links: the index,
    the counter, the writers, the snapshots and what each of them sees are
    as before. *)
Theorem Put_then_Delete_within_a_sequence_leaves_no_trace
    (keyCmp : KeyCompare) (m : MemDB) (w : ptr) (x : Item)
    (Hkey : KeyOrder keyCmp) (Hop : operating keyCmp m)
    (Hx : deadSn x = 0%N) (Habsent : GetNode keyCmp x m = None) :
  let m1 := Put keyCmp x m in
  let m2 := fst (Delete keyCmp w x m1) in
  Delete keyCmp w x m1
  = (set_nodes m (nodes m ++ [mkNode (set_bornSn x (getCurrSn m)) None]), true)
  /\ store m2 = store m
  /\ ItemsCount m2 = ItemsCount m
  /\ GetNode keyCmp x m2 = None
  /\ (forall s, sees m2 s = sees m s)
  /\ (forall e, In e (store m2) -> deadSn (Item_at (nodes m2) e)
                                   = deadSn (Item_at (nodes m) e)).
Proof.
  intros m1 m2.
  pose proof (operating_sound keyCmp m Hkey Hop) as Hsound.
  pose proof Hsound as (Hs & _ & _ & Hv).
  destruct (Put2_absent keyCmp x m Hkey Hsound Hx Habsent)
    as (Hf & Hnew & Hold & Hfresh).
  pose proof (Put2_cases keyCmp x m) as Hcases. cbv zeta in Hcases.
  rewrite Hf in Hcases.
  set (x' := set_bornSn x (getCurrSn m)) in *.
  set (h' := nodes m ++ [mkNode x' None]) in *.
  set (k := length (nodes m)) in *.
  set (chain := skiplist.preds (Item_at h') (insCmp keyCmp) (Item_at h' k)
                  (store m)
                ++ k :: skiplist.seek (Item_at h') (insCmp keyCmp)
                          (Item_at h' k) (store m)) in *.
  assert (E1 : m1 = set_count (set_store (set_nodes m h') chain)
                      (Int.i64 (count m + 1))).
  { unfold m1, Put. rewrite Hcases. reflexivity. }
  assert (Hsound1 : sound keyCmp m1).
  { pose proof (sound_step keyCmp (OpPut x) m Hkey Hx Hsound) as H.
    simpl in H. rewrite Hcases in H. rewrite E1. exact H. }
  assert (Hg : GetNode keyCmp x m1 = Some k).
  { destruct Hsound1 as (Hs1 & _ & _ & Hv1).
    apply (GetNode_complete keyCmp Hkey); trivial; rewrite E1;
      cbn [store nodes set_count set_store set_nodes].
    - apply in_Insert_chain. left. reflexivity.
    - rewrite Hnew. exact Hx.
    - rewrite Hnew. apply key_refl, Hkey. }
  assert (Hunlink : skiplist.unlink k chain = store m).
  { unfold chain. rewrite unlink_app_notin.
    - apply preds_seek.
    - intros Hin. apply Hfresh. rewrite <- (preds_seek (Item_at h')
        (insCmp keyCmp) (Item_at h' k) (store m)).
      apply in_app_iff. left. exact Hin. }
  assert (Hcount : Int.i64 (Int.i64 (count m + 1) + -1) = count m).
  { rewrite (v_count keyCmp m Hv), i64_succ. apply i64_pred_succ. }
  assert (E2 : Delete keyCmp w x m1 = (set_nodes m h', true)).
  { unfold Delete, Delete2, Delete2'. rewrite Hg. unfold DeleteNode'.
    rewrite E1. cbn [nodes store count set_count set_store set_nodes getCurrSn
                     currSn].
    assert (Hk : h' !! k = Some (mkNode x' None))
      by (unfold h', k; apply list_lookup_middle; reflexivity).
    rewrite Hk. cbn [itm]. unfold x' at 1. cbn [bornSn set_bornSn].
    unfold getCurrSn. rewrite N.eqb_refl.
    unfold skiplist.DeleteNode.
    destruct (decide (k ∈ chain)) as [_|Hn].
    2:{ exfalso. apply Hn, list_elem_of_In. unfold chain.
        apply in_app_iff. right. left. reflexivity. }
    cbn [fst snd set_count set_store count store]. rewrite Hunlink, Hcount.
    reflexivity. }
  assert (E3 : m2 = set_nodes m h') by (unfold m2; rewrite E2; reflexivity).
  split; [exact E2|]. rewrite E3. cbn [store nodes set_nodes].
  split; [reflexivity|]. split; [reflexivity|]. split.
  - destruct (GetNode keyCmp x (set_nodes m h')) as [e|] eqn:Eg; [|reflexivity].
    exfalso.
    destruct (GetNode_Some keyCmp (key_trans0 keyCmp Hkey) _ x e Eg)
      as (He & De & Hk).
    cbn [store nodes set_nodes] in He, De, Hk. rewrite (Hold e He) in De, Hk.
    assert (Hg0 : GetNode keyCmp x m = Some e)
      by (apply (GetNode_complete keyCmp Hkey); trivial).
    congruence.
  - split.
    + intros s. apply sees_ext; [reflexivity|]. intros e He.
      cbn [nodes snaps set_nodes]. rewrite (Hold e He). reflexivity.
    + intros e He. rewrite (Hold e He). reflexivity.
Qed.

(** In the example the third key is put and deleted after the second
    snapshot: the index and the counter are as before. *)
Lemma Put_then_Delete_within_a_sequence_leaves_no_trace_witness :
  store (fst (Delete defaultKeyCmp 0 (mkItem ["c"%byte] 0 0)
                (Put defaultKeyCmp (mkItem ["c"%byte] 0 0) rewritten)))
  = store rewritten
  /\ store (Put defaultKeyCmp (mkItem ["c"%byte] 0 0) rewritten) = [0; 1; 2; 3].
Proof.
  destruct (Put_then_Delete_within_a_sequence_leaves_no_trace defaultKeyCmp
              rewritten 0 (mkItem ["c"%byte] 0 0) defaultKeyCmp_order
              (operating_acts defaultKeyCmp rewriting New
                 (operating_New defaultKeyCmp)
                 ltac:(vm_compute; repeat split; auto))
              ltac:(reflexivity) ltac:(vm_compute; reflexivity))
    as (_ & H & _).
  split; [exact H | vm_compute; reflexivity].
Defined.
